(** * Vivaldi icon maker: recoloring and variant generation

    A shallow embedding of [src/svgColorizer.ts], [src/colorTransforms.ts]
    and [src/lib/vivaldiIconMaker.ts], followed by the properties of the
    recoloring engine.

    Conventions of the embedding.
    - A JavaScript string is the list of its UTF-16 code units ([str]);
      string literals of the source are written [u "..."].
    - The regular expressions of the source are written out as matchers on
      the text that starts at the current position: each of them is
      deterministic (a greedy class followed by a character outside the
      class, or a lazy run up to the first delimiter), so the matcher is the
      backtracking search itself.
    - Numbers are exact rationals ([Q]); where the source can meet [NaN] or
      an infinity the type [number] carries them. *)

From Stdlib Require Import List NArith ZArith QArith Qround Qabs Qminmax.
From Stdlib Require Import Lia Lqa Bool String Ascii.
Import ListNotations.

Set Implicit Arguments.

Open Scope N_scope.
Open Scope list_scope.

(** ** JavaScript strings *)

Definition str := list N.

Definition u (s : string) : str :=
  List.map N_of_ascii (list_ascii_of_string s).

Definition QUOTE : N := 34. (* double quote *)
Definition DOLLAR : N := 36. (* dollar *)
Definition AMP : N := 38. (* ampersand *)
Definition APOS : N := 39. (* apostrophe *)
Definition MINUS : N := 45. (* hyphen *)
Definition SLASH : N := 47. (* slash *)
Definition COLON : N := 58. (* colon *)
Definition SEMI : N := 59. (* semicolon *)
Definition LT : N := 60. (* less-than *)
Definition EQUALS : N := 61. (* equals *)
Definition GT : N := 62. (* greater-than *)
Definition BACKTICK : N := 96. (* backtick *)
Definition RBRACE : N := 125. (* closing brace *)
Definition HASH : N := 35. (* hash *)

Fixpoint streq (a b : str) : bool :=
  match a, b with
  | [], [] => true
  | x :: a', y :: b' => N.eqb x y && streq a' b'
  | _, _ => false
  end.

(** ECMAScript LineTerminator: what [.] of a regular expression refuses. *)
Definition isLineTerminator (c : N) : bool :=
  (c =? 10) || (c =? 13) || (c =? 8232) || (c =? 8233).

(** ECMAScript WhiteSpace and LineTerminator: the class [\s] and what
    [String.prototype.trim] removes. *)
Definition isSpace (c : N) : bool :=
  ((9 <=? c) && (c <=? 13)) || (c =? 32) || (c =? 160) || (c =? 5760)
  || ((8192 <=? c) && (c <=? 8202)) || (c =? 8232) || (c =? 8233)
  || (c =? 8239) || (c =? 8287) || (c =? 12288) || (c =? 65279).

(** Canonicalize of a regular expression with the [i] flag (no [u] flag),
    as far as a comparison with an ASCII pattern character goes: ASCII
    letters fold, and no code unit from 128 on folds into ASCII. *)
Definition canon (c : N) : N :=
  if (97 <=? c) && (c <=? 122) then c - 32 else c.

Definition ciEq (a b : N) : bool := canon a =? canon b.

(** [String.prototype.toLowerCase], faithful wherever the result is compared
    with ASCII text: the only code units outside ASCII whose lower case
    reaches ASCII are U+212A (Kelvin sign, to [k]) and U+0130 (to [i]
    followed by U+0307). *)
Definition lowerUnit (c : N) : str :=
  if (65 <=? c) && (c <=? 90) then [c + 32]
  else if c =? 8490 then [107]
  else if c =? 304 then [105; 775]
  else [c].

Definition toLowerCase (s : str) : str := flat_map lowerUnit s.

Fixpoint dropWhile (p : N -> bool) (s : str) : str :=
  match s with
  | [] => []
  | c :: t => if p c then dropWhile p t else s
  end.

Fixpoint takeWhile (p : N -> bool) (s : str) : str :=
  match s with
  | [] => []
  | c :: t => if p c then c :: takeWhile p t else []
  end.

Definition trimStart (s : str) : str := dropWhile isSpace s.
Definition trimEnd (s : str) : str := rev (dropWhile isSpace (rev s)).
Definition trim (s : str) : str := trimEnd (trimStart s).

(** [s.split(sep)] for a separator of one code unit: never an empty list. *)
Fixpoint split (sep : N) (s : str) : list str :=
  match s with
  | [] => [[]]
  | c :: t =>
      if c =? sep then [] :: split sep t
      else match split sep t with
           | [] => [[c]]
           | p :: ps => (c :: p) :: ps
           end
  end.

(** [parts.join(sep)]. *)
Fixpoint join (sep : str) (parts : list str) : str :=
  match parts with
  | [] => []
  | [p] => p
  | p :: ps => p ++ sep ++ join sep ps
  end.

(** The text in front of a literal prefix, compared exactly. *)
Fixpoint stripPrefix (pat s : str) : option str :=
  match pat, s with
  | [], _ => Some s
  | p :: pat', c :: s' => if p =? c then stripPrefix pat' s' else None
  | _ :: _, [] => None
  end.

(** A literal of a regular expression with the [i] flag at the current
    position: the text it matched (in the document's letter case) and the
    rest. *)
Fixpoint stripPrefixCI (pat s : str) : option (str * str) :=
  match pat, s with
  | [], _ => Some ([], s)
  | p :: pat', c :: s' =>
      if ciEq p c then
        match stripPrefixCI pat' s' with
        | Some (m, r) => Some (c :: m, r)
        | None => None
        end
      else None
  | _ :: _, [] => None
  end.

(** First occurrence of [pat] in [s]: the text before it and the text after
    it ([indexOf] and the two slices around the occurrence). *)
Fixpoint findSub (pat s : str) : option (str * str) :=
  match stripPrefix pat s with
  | Some r => Some ([], r)
  | None =>
      match s with
      | [] => None
      | c :: t =>
          match findSub pat t with
          | Some (b, a) => Some (c :: b, a)
          | None => None
          end
      end
  end.

Definition includes (pat s : str) : bool :=
  match findSub pat s with Some _ => true | None => false end.

(** The same for a literal under the [i] flag: text before, text matched,
    text after. *)
Fixpoint findSubCI (pat s : str) : option (str * str * str) :=
  match stripPrefixCI pat s with
  | Some (m, r) => Some ([], m, r)
  | None =>
      match s with
      | [] => None
      | c :: t =>
          match findSubCI pat t with
          | Some (b, m, a) => Some (c :: b, m, a)
          | None => None
          end
      end
  end.

(** The run of code units up to the first one that satisfies [stop], and
    the text from that one on. *)
Fixpoint span (stop : N -> bool) (s : str) : str * str :=
  match s with
  | [] => ([], [])
  | c :: t =>
      if stop c then ([], s)
      else let (a, b) := span stop t in (c :: a, b)
  end.

(** ** Replacement machinery of [String.prototype.replace] *)

Section GlobalReplace.
(** [matchAt s]: the regular expression matched at the head of [s]; the
    number of code units it covers (at least one for every expression of
    the source) and what the callback returns for them. *)
Variable matchAt : str -> option (nat * str).

(** [text.replace(/.../g, callback)]: left to right, each match replaced,
    the search resuming behind it. *)
Fixpoint scanFrom (skip : nat) (s : str) : str :=
  match s with
  | [] => []
  | c :: t =>
      match skip with
      | S k => scanFrom k t
      | O =>
          match matchAt s with
          | Some (len, repl) => repl ++ scanFrom (pred len) t
          | None => c :: scanFrom 0%nat t
          end
      end
  end.

Definition replaceAll (s : str) : str := scanFrom 0%nat s.
End GlobalReplace.

Section FirstMatch.
(** [matchLen s]: the length of the match at the head of [s]. *)
Variable matchLen : str -> option nat.

(** Leftmost match of an expression without the [g] flag: text before,
    text matched, text after. *)
Fixpoint searchFirst (s : str) : option (str * str * str) :=
  match matchLen s with
  | Some len => Some ([], firstn len s, skipn len s)
  | None =>
      match s with
      | [] => None
      | c :: t =>
          match searchFirst t with
          | Some (b, m, a) => Some (c :: b, m, a)
          | None => None
          end
      end
  end.
End FirstMatch.

(** GetSubstitution for a pattern without capture groups: dollar-dollar, dollar-ampersand,
    dollar-backtick and dollar-apostrophe are expanded; a dollar before a
    digit, before a less-than sign or before anything else stays as it is, there being no capture to insert. *)
Fixpoint getSubstitution (before matched after template : str) : str :=
  match template with
  | [] => []
  | c :: t =>
      if c =? DOLLAR then
        match t with
        | d :: t' =>
            if d =? DOLLAR then DOLLAR :: getSubstitution before matched after t'
            else if d =? AMP then matched ++ getSubstitution before matched after t'
            else if d =? BACKTICK then before ++ getSubstitution before matched after t'
            else if d =? APOS then after ++ getSubstitution before matched after t'
            else c :: getSubstitution before matched after t
        | [] => [c]
        end
      else c :: getSubstitution before matched after t
  end.

(** [text.replace(pattern, replacement)] with two strings: the first
    occurrence only. *)
Definition replaceString (pattern replacement text : str) : str :=
  match findSub pattern text with
  | Some (before, after) =>
      before ++ getSubstitution before pattern after replacement ++ after
  | None => text
  end.

(** Exceptions of the source, one constructor per [throw]. *)
Inductive error : Type :=
| UnsupportedColorInput (color : str)  (* validateColorInput *)
| UnsupportedColorValue (hex : str)    (* parseHexColor *)
| InvalidSvgContent                    (* ensureValidSvg *)
| NotAnSvgDocument.                    (* addOrUpdateBackgroundRect *)

Inductive result (A : Type) : Type :=
| Ok (value : A)
| Throw (e : error).
Arguments Ok {A} value.
Arguments Throw {A} e.

(** ** svgColorizer.ts *)

Inductive Property : Type := Fill | Stroke.

Definition propertyName (p : Property) : str :=
  match p with
  | Fill => u "fill"
  | Stroke => u "stroke"
  end.

Record RecolorOptions : Type := {
  ro_fill : option str;
  ro_stroke : option str;
  ro_preserveFillNone : option bool;
  ro_preserveStrokeNone : option bool
}.

Definition NONE : str := u "none".

Definition isHexDigit (c : N) : bool :=
  ((48 <=? c) && (c <=? 57)) || ((97 <=? c) && (c <=? 102))
  || ((65 <=? c) && (c <=? 70)).

(** HEX_COLOR_PATTERN: a hash and 3, 4, 6 or 8 hexadecimal digits, nothing
    before and nothing behind. *)
Definition HEX_COLOR_PATTERN (s : str) : bool :=
  match s with
  | h :: digits =>
      (h =? HASH) && forallb isHexDigit digits
      && let n := List.length digits in
         (Nat.eqb n 3 || Nat.eqb n 4 || Nat.eqb n 6 || Nat.eqb n 8)
  | [] => false
  end.

Definition validateColorInput (color : str) : result str :=
  let trimmed := trim color in
  if streq (toLowerCase trimmed) NONE then Ok NONE
  else if HEX_COLOR_PATTERN trimmed then Ok trimmed
  else Throw (UnsupportedColorInput color).

Definition notSpace (c : N) : bool := negb (isSpace c).

(** The none-preservation test, the same in the three callbacks. *)
Definition keepsNone (preserveNone : bool) (normalizedValue normalizedTarget : str)
  : bool :=
  preserveNone && streq normalizedValue NONE && negb (streq normalizedTarget NONE).

(** attributePattern, the property name under the [i] flag, white space,
    an equals sign, white space, a double quote, then lazily up to the next
    double quote on the same line: the prefix group and the value group. *)
Definition attributePattern (property : Property) (s : str) : option (str * str) :=
  match stripPrefixCI (propertyName property) s with
  | Some (name, s1) =>
      let (ws1, s2) := span notSpace s1 in
      match s2 with
      | e :: s3 =>
          if e =? EQUALS then
            let (ws2, s4) := span notSpace s3 in
            match s4 with
            | q :: s5 =>
                if q =? QUOTE then
                  let (value, s6) :=
                    span (fun c => (c =? QUOTE) || isLineTerminator c) s5 in
                  match s6 with
                  | q' :: _ =>
                      if q' =? QUOTE
                      then Some (name ++ ws1 ++ [EQUALS] ++ ws2 ++ [QUOTE], value)
                      else None
                  | [] => None
                  end
                else None
            | [] => None
            end
          else None
      | [] => None
      end
  | None => None
  end.

Definition attributeCallback (color : str) (preserveNone : bool)
    (prefix value : str) : str :=
  let normalizedValue := toLowerCase (trim value) in
  let normalizedTarget := toLowerCase (trim color) in
  if keepsNone preserveNone normalizedValue normalizedTarget
  then prefix ++ value ++ [QUOTE]
  else prefix ++ color ++ [QUOTE].

Definition attributeMatchAt (property : Property) (color : str)
    (preserveNone : bool) (s : str) : option (nat * str) :=
  match attributePattern property s with
  | Some (prefix, value) =>
      Some (S (List.length prefix + List.length value),
            attributeCallback color preserveNone prefix value)
  | None => None
  end.

Definition replaceSvgAttributes (svgContent : str) (property : Property)
    (color : str) (preserveNone : bool) : str :=
  replaceAll (attributeMatchAt property color preserveNone) svgContent.

(** styleAttributePattern: the style body group. *)
Definition styleAttributePattern (s : str) : option (str * str) :=
  match stripPrefixCI (u "style=" ++ [QUOTE]) s with
  | Some (opening, s1) =>
      let (styleBody, s2) := span (fun c => c =? QUOTE) s1 in
      match s2 with
      | _ :: _ => Some (opening, styleBody)
      | [] => None
      end
  | None => None
  end.

Definition isEmpty (s : str) : bool :=
  match s with [] => true | _ :: _ => false end.

(** The callback of [declarations.map]: whether the declaration changed,
    and the declaration to emit. *)
Definition updateDeclaration (property : Property) (color : str)
    (preserveNone : bool) (declaration : str) : bool * str :=
  let normalizedTarget := toLowerCase (trim color) in
  match List.map trim (split COLON declaration) with
  | name :: value :: _ =>
      if isEmpty name then (false, declaration)
      else if negb (streq (toLowerCase name) (propertyName property))
      then (false, declaration)
      else
        let normalizedValue := toLowerCase value in
        if keepsNone preserveNone normalizedValue normalizedTarget
        then (false, declaration)
        else (true, name ++ [COLON] ++ color)
  | _ => (false, declaration)
  end.

Definition styleDeclarations (styleBody : str) : list str :=
  List.filter (fun block => negb (isEmpty block))
    (List.map trim (split SEMI styleBody)).

Definition styleAttributeCallback (property : Property) (color : str)
    (preserveNone : bool) (opening styleBody : str) : str :=
  let matched := opening ++ styleBody ++ [QUOTE] in
  let declarations := styleDeclarations styleBody in
  match declarations with
  | [] => matched
  | _ :: _ =>
      let updated := List.map (updateDeclaration property color preserveNone)
                       declarations in
      let changed := existsb fst updated in
      if negb changed then matched
      else u "style=" ++ [QUOTE] ++ join (u "; ") (List.map snd updated) ++ [QUOTE]
  end.

Definition styleAttributeMatchAt (property : Property) (color : str)
    (preserveNone : bool) (s : str) : option (nat * str) :=
  match styleAttributePattern s with
  | Some (opening, styleBody) =>
      Some (S (List.length opening + List.length styleBody),
            styleAttributeCallback property color preserveNone opening styleBody)
  | None => None
  end.

Definition replaceInlineStyleAttributes (svgContent : str) (property : Property)
    (color : str) (preserveNone : bool) : str :=
  replaceAll (styleAttributeMatchAt property color preserveNone) svgContent.

(** styleBlockPattern: the opening tag up to its first greater-than sign,
    then lazily up to the first closing tag: the text in front of the block
    content, the block content group, the closing tag as written. *)
Definition styleBlockPattern (s : str) : option (str * str * str) :=
  match stripPrefixCI (u "<style") s with
  | Some (opening, s1) =>
      let (attrs, s2) := span (fun c => c =? GT) s1 in
      match s2 with
      | _ :: s3 =>
          match findSubCI (u "</style>") s3 with
          | Some (blockContent, closing, _) =>
              Some (opening ++ attrs ++ [GT], blockContent, closing)
          | None => None
          end
      | [] => None
      end
  | None => None
  end.

(** propertyPattern inside a style block: the property name, not followed
    by a hyphen; white space, a colon, white space; then the longest run
    without semicolon and closing brace, at least one code unit long. When
    nothing but white space stands in front of the semicolon, the greedy
    white space gives its last code unit back to the value group. The three
    parts are the name group, the text between the groups, the value. *)
Definition propertyPattern (property : Property) (s : str)
  : option (str * str * str) :=
  match stripPrefixCI (propertyName property) s with
  | Some (propName, s1) =>
      if match s1 with c :: _ => c =? MINUS | [] => false end then None
      else
        let (ws1, s2) := span notSpace s1 in
        match s2 with
        | c :: s3 =>
            if c =? COLON then
              let (ws2, s4) := span notSpace s3 in
              let (value, _) := span (fun c => (c =? SEMI) || (c =? RBRACE)) s4 in
              match value with
              | _ :: _ => Some (propName, ws1 ++ [COLON] ++ ws2, value)
              | [] =>
                  match rev ws2 with
                  | w :: front => Some (propName, ws1 ++ [COLON] ++ rev front, [w])
                  | [] => None
                  end
              end
            else None
        | [] => None
        end
  | None => None
  end.

Definition propertyMatchAt (property : Property) (color : str)
    (preserveNone : bool) (s : str) : option (nat * str) :=
  match propertyPattern property s with
  | Some (propName, between, value) =>
      let declaration := propName ++ between ++ value in
      let normalizedValue := toLowerCase (trim value) in
      let normalizedTarget := toLowerCase (trim color) in
      Some (List.length declaration,
            if keepsNone preserveNone normalizedValue normalizedTarget
            then declaration
            else propName ++ [COLON] ++ color)
  | None => None
  end.

Definition styleBlockMatchAt (property : Property) (color : str)
    (preserveNone : bool) (s : str) : option (nat * str) :=
  match styleBlockPattern s with
  | Some (front, blockContent, closing) =>
      let matched := front ++ blockContent ++ closing in
      let updated :=
        replaceAll (propertyMatchAt property color preserveNone) blockContent in
      Some (List.length matched,
            if streq updated blockContent then matched
            else replaceString blockContent updated matched)
  | None => None
  end.

Definition replaceStyleBlocks (svgContent : str) (property : Property)
    (color : str) (preserveNone : bool) : str :=
  replaceAll (styleBlockMatchAt property color preserveNone) svgContent.

Definition applyColor (svgContent : str) (property : Property) (color : str)
    (preserveNone : bool) : str :=
  let result := svgContent in
  let result := replaceSvgAttributes result property color preserveNone in
  let result := replaceInlineStyleAttributes result property color preserveNone in
  let result := replaceStyleBlocks result property color preserveNone in
  result.

(** Truthiness of an optional string: neither [undefined] nor empty. *)
Definition truthy (o : option str) : option str :=
  match o with
  | Some (_ :: _) => o
  | _ => None
  end.

Definition orTrue (o : option bool) : bool :=
  match o with Some b => b | None => true end.

Definition recolorVivaldiSvg (svgContent : str) (options : RecolorOptions) : str :=
  let preserveFillNone := orTrue (ro_preserveFillNone options) in
  let preserveStrokeNone := orTrue (ro_preserveStrokeNone options) in
  let output := svgContent in
  let output :=
    match truthy (ro_fill options) with
    | Some fill => applyColor output Fill fill preserveFillNone
    | None => output
    end in
  let output :=
    match truthy (ro_stroke options) with
    | Some stroke => applyColor output Stroke stroke preserveStrokeNone
    | None => output
    end in
  output.

(** ** colorTransforms.ts *)

(** Channels are integers (they come from [parseInt] or [Math.round]); the
    alpha channel is a fraction. *)
Record Rgba : Type := { r : Z; g : Z; b : Z; a : Q }.

Record Hsla : Type := { h : Q; s : Q; l : Q; ha : Q }.

Open Scope Q_scope.

Definition clamp (value min max : Q) : Q := Qmin (Qmax value min) max.

Definition clamp01 (value : Q) : Q := clamp value 0 1.

Definition clampChannel (value : Z) : Z := Z.min (Z.max value 0) 255.

(** [Math.round]: the nearest integer, a half going up. *)
Definition round (x : Q) : Z := Qfloor (x + (1 # 2)).

Close Scope Q_scope.

Definition hexValue (c : N) : option Z :=
  if (48 <=? c) && (c <=? 57) then Some (Z.of_N (c - 48))
  else if (97 <=? c) && (c <=? 102) then Some (Z.of_N (c - 87))
  else if (65 <=? c) && (c <=? 70) then Some (Z.of_N (c - 55))
  else None.

(** The digits [parseInt] reads: the longest run of hexadecimal digits,
    most significant first; [None] when there is none. *)
Fixpoint hexRun (acc : option Z) (s : str) : option Z :=
  match s with
  | [] => acc
  | c :: t =>
      match hexValue c with
      | Some d =>
          hexRun (Some (match acc with Some v => 16 * v + d | None => d end)%Z) t
      | None => acc
      end
  end.

(** [parseInt(text, 16)]: leading white space, a sign, a [0x] prefix, then
    the digits; [None] is [NaN]. *)
Definition parseInt16 (text : str) : option Z :=
  let s0 := trimStart text in
  let (negative, s1) :=
    match s0 with
    | c :: t => if c =? MINUS then (true, t)
                else if c =? 43 then (false, t) else (false, s0)
    | [] => (false, s0)
    end in
  let s2 :=
    match s1 with
    | z :: x :: t => if (z =? 48) && ((x =? 120) || (x =? 88)) then t else s1
    | _ => s1
    end in
  match hexRun None s2 with
  | Some v => Some (if negative then - v else v)%Z
  | None => None
  end.

(** [value[i] + value[i]]. *)
Definition doubled (value : str) (i : nat) : str :=
  match nth_error value i with
  | Some c => [c; c]
  | None => []
  end.

Definition slice (value : str) (from to : nat) : str :=
  firstn (to - from) (skipn from value).

(** A channel that is [NaN] makes the colour [None]: the arithmetic on such
    colours is not modelled. *)
Definition parseShortHex (value : str) : option Rgba :=
  match parseInt16 (doubled value 0), parseInt16 (doubled value 1),
        parseInt16 (doubled value 2) with
  | Some r, Some g, Some b =>
      if Nat.eqb (List.length value) 4 then
        match parseInt16 (doubled value 3) with
        | Some a => Some {| r := r; g := g; b := b; a := (inject_Z a / 255)%Q |}
        | None => None
        end
      else Some {| r := r; g := g; b := b; a := 1%Q |}
  | _, _, _ => None
  end.

Definition parseLongHex (value : str) : option Rgba :=
  match parseInt16 (slice value 0 2), parseInt16 (slice value 2 4),
        parseInt16 (slice value 4 6) with
  | Some r, Some g, Some b =>
      if Nat.eqb (List.length value) 8 then
        match parseInt16 (slice value 6 8) with
        | Some a => Some {| r := r; g := g; b := b; a := (inject_Z a / 255)%Q |}
        | None => None
        end
      else Some {| r := r; g := g; b := b; a := 1%Q |}
  | _, _, _ => None
  end.

(** [text.trim().replace(/^#/, emptyString)]. *)
Definition stripHash (text : str) : str :=
  match trim text with
  | c :: t => if c =? HASH then t else c :: t
  | [] => []
  end.

Definition parseHexColor (hex : str) : result (option Rgba) :=
  let normalized := stripHash hex in
  let n := List.length normalized in
  if negb (Nat.eqb n 3 || Nat.eqb n 4 || Nat.eqb n 6 || Nat.eqb n 8)
  then Throw (UnsupportedColorValue hex)
  else if Nat.eqb n 3 || Nat.eqb n 4 then Ok (parseShortHex normalized)
  else Ok (parseLongHex normalized).

Definition hexDigit (d : N) : N := if d <? 10 then 48 + d else 87 + d.

Fixpoint hexDigits (fuel : nat) (n : N) : str :=
  match fuel with
  | O => []
  | S fuel' =>
      if n <? 16 then [hexDigit n]
      else hexDigits fuel' (n / 16) ++ [hexDigit (n mod 16)]
  end.

(** [n.toString(16)] of an integer. *)
Definition toString16 (z : Z) : str :=
  let n := Z.to_N (Z.abs z) in
  let digits := hexDigits (S (N.size_nat n)) n in
  if (z <? 0)%Z then MINUS :: digits else digits.

(** [text.padStart(2, zero)]. *)
Definition padStart2 (text : str) : str :=
  match text with
  | [] => [48; 48]
  | [c] => [48; c]
  | _ => text
  end.

Definition formatHexColor (color : Rgba) (includeAlpha : bool) : str :=
  let r := padStart2 (toString16 (r color)) in
  let g := padStart2 (toString16 (g color)) in
  let b := padStart2 (toString16 (b color)) in
  if includeAlpha then
    let alphaByte := round (a color * 255)%Q in
    let a := padStart2 (toString16 alphaByte) in
    HASH :: r ++ g ++ b ++ a
  else HASH :: r ++ g ++ b.

Definition hasExplicitAlpha (input : str) : bool :=
  let length := List.length (stripHash input) in
  Nat.eqb length 4 || Nat.eqb length 8.

Open Scope Q_scope.

(** Truncation towards zero and the remainder operator of JavaScript (the
    sign of the dividend). *)
Definition Qtrunc (x : Q) : Z :=
  if Qle_bool 0 x then Qfloor x else (- Qfloor (- x))%Z.

Definition jsRem (x m : Q) : Q := x - m * inject_Z (Qtrunc (x / m)).

Definition Qlt_bool (x y : Q) : bool := negb (Qle_bool y x).

Definition rgbToHsl (color : Rgba) : Hsla :=
  let r := inject_Z (r color) / 255 in
  let g := inject_Z (g color) / 255 in
  let b := inject_Z (b color) / 255 in
  let max := Qmax (Qmax r g) b in
  let min := Qmin (Qmin r g) b in
  let delta := max - min in
  let h :=
    if Qeq_bool delta 0 then 0
    else
      let h :=
        if Qeq_bool max r then jsRem ((g - b) / delta) 6
        else if Qeq_bool max g then (b - r) / delta + 2
        else (r - g) / delta + 4 in
      let h := h * 60 in
      if Qlt_bool h 0 then h + 360 else h in
  let l := (max + min) / 2 in
  let s := if Qeq_bool delta 0 then 0 else delta / (1 - Qabs (2 * l - 1)) in
  {| h := h; s := s; l := l; ha := a color |}.

Definition hueToRgb (p q t : Q) : Q :=
  let temp := t in
  let temp := if Qlt_bool temp 0 then temp + 1 else temp in
  let temp := if Qlt_bool 1 temp then temp - 1 else temp in
  if Qlt_bool temp (1 / 6) then p + (q - p) * 6 * temp
  else if Qlt_bool temp (1 / 2) then q
  else if Qlt_bool temp (2 / 3) then p + (q - p) * ((2 / 3) - temp) * 6
  else p.

Definition hslToRgb (color : Hsla) : Rgba :=
  let h := h color / 360 in
  let s := clamp01 (s color) in
  let l := clamp01 (l color) in
  if Qeq_bool s 0 then
    let gray := clampChannel (round (l * 255)) in
    {| r := gray; g := gray; b := gray; a := ha color |}
  else
    let q := if Qlt_bool l (1 / 2) then l * (1 + s) else l + s - l * s in
    let p := 2 * l - q in
    let r := clampChannel (round (hueToRgb p q (h + 1 / 3) * 255)) in
    let g := clampChannel (round (hueToRgb p q h * 255)) in
    let b := clampChannel (round (hueToRgb p q (h - 1 / 3) * 255)) in
    {| r := r; g := g; b := b; a := ha color |}.

(** The object that [createInactiveColor] hands to [hslToRgb]. *)
Definition inactiveHsla (parsed : Rgba) (ratio : Q) : Hsla :=
  let hsl := rgbToHsl parsed in
  let desaturation := (3 # 10) + (3 # 10) * ratio in
  let lightBoost := (2 # 10) + (2 # 10) * ratio in
  let inactiveS := clamp01 (s hsl * (1 - desaturation)) in
  let inactiveL := clamp01 (l hsl + lightBoost) in
  let inactiveAlpha := clamp (a parsed * (1 - (1 # 10) * ratio)) 0 1 in
  {| h := h hsl; s := inactiveS; l := inactiveL; ha := inactiveAlpha |}.

Definition createInactiveColor (color : str) (mixRatio : Q)
  : result (option str) :=
  if streq (toLowerCase (trim color)) NONE then Ok (Some NONE)
  else
    let ratio := clamp mixRatio 0 1 in
    match parseHexColor color with
    | Throw e => Throw e
    | Ok None => Ok None
    | Ok (Some parsed) =>
        let inactiveRgb := hslToRgb (inactiveHsla parsed ratio) in
        Ok (Some (formatHexColor inactiveRgb (hasExplicitAlpha color)))
    end.

Definition createInactiveBackgroundColor (color : str) (mixRatio : Q)
  : result (option str) :=
  let ratio := clamp mixRatio 0 1 in
  match parseHexColor color with
  | Throw e => Throw e
  | Ok None => Ok None
  | Ok (Some parsed) =>
      let l := l (rgbToHsl parsed) in
      let targetLightness := clamp01 (l * (1 - ratio) + (85 # 100) * ratio) in
      let bgRgb := hslToRgb {| h := 0; s := 0; l := targetLightness; ha := 1 |} in
      Ok (Some (formatHexColor bgRgb false))
  end.
Close Scope Q_scope.


(** ** Numbers and their text *)

(** A JavaScript number where the source can meet one that is not finite.
    Finite values are exact rationals: the rounding of doubles is not
    modelled, and neither is negative zero. *)
Inductive number : Type :=
| NaN
| Infinity (negative : bool)
| Num (q : Q).

Open Scope Q_scope.

Definition isNaN (x : number) : bool :=
  match x with NaN => true | _ => false end.

Definition Qsign (q : Q) : comparison := Qcompare q 0.

Definition nneg (x : number) : number :=
  match x with
  | NaN => NaN
  | Infinity n => Infinity (negb n)
  | Num q => Num (- q)
  end.

Definition nadd (x y : number) : number :=
  match x, y with
  | NaN, _ | _, NaN => NaN
  | Infinity n, Infinity m => if Bool.eqb n m then Infinity n else NaN
  | Infinity n, Num _ | Num _, Infinity n => Infinity n
  | Num p, Num q => Num (p + q)
  end.

Definition nsub (x y : number) : number := nadd x (nneg y).

Definition nmul (x y : number) : number :=
  match x, y with
  | NaN, _ | _, NaN => NaN
  | Infinity n, Infinity m => Infinity (xorb n m)
  | Infinity n, Num q | Num q, Infinity n =>
      match Qsign q with
      | Eq => NaN
      | Gt => Infinity n
      | Lt => Infinity (negb n)
      end
  | Num p, Num q => Num (p * q)
  end.

(** Division by a finite number other than zero. *)
Definition ndivq (x : number) (d : Q) : number := nmul x (Num (/ d)).

Definition isInteger (x : number) : bool :=
  match x with
  | Num q => Qeq_bool (inject_Z (Qfloor q)) q
  | _ => false
  end.

Close Scope Q_scope.

Fixpoint decDigits (fuel : nat) (n : N) : str :=
  match fuel with
  | O => []
  | S fuel' =>
      if n <? 10 then [48 + n]
      else decDigits fuel' (n / 10) ++ [48 + n mod 10]
  end.

(** The decimal digits of a natural number. *)
Definition decimal (n : N) : str := decDigits (S (N.size_nat n)) n.

(** [fuel] digits of the fraction [num / den], which is below one. *)
Fixpoint fractionDigits (fuel : nat) (num den : N) : str :=
  match fuel with
  | O => []
  | S fuel' =>
      if num =? 0 then []
      else (48 + (10 * num) / den) :: fractionDigits fuel' ((10 * num) mod den) den
  end.

(** Number::toString in radix ten. [NaN], the infinities and the integers
    are printed as ECMAScript prints them below 1e21; a fraction is printed
    with its decimal expansion, cut after twenty digits (ECMAScript prints
    the shortest expansion that reads back as the same double). *)
Definition numberToString (x : number) : str :=
  match x with
  | NaN => u "NaN"
  | Infinity negative => (if negative then [MINUS] else []) ++ u "Infinity"
  | Num q =>
      let sign := if Qlt_bool q 0 then [MINUS] else [] in
      let n := Z.to_N (Z.abs (Qnum q)) in
      let d := Npos (Qden q) in
      let whole := decimal (n / d) in
      match fractionDigits 20 (n mod d) d with
      | [] => sign ++ whole
      | digits => sign ++ whole ++ u "." ++ digits
      end
  end.

(** [x.toFixed(digits)] below 1e21: the nearest decimal with that many
    fractional digits, a tie going away from zero, the sign of [x] in
    front. *)
Definition toFixed (digits : nat) (x : number) : str :=
  match x with
  | NaN => u "NaN"
  | Infinity negative => (if negative then [MINUS] else []) ++ u "Infinity"
  | Num q =>
      let sign := if Qlt_bool q 0 then [MINUS] else [] in
      let scale := Z.pow 10 (Z.of_nat digits) in
      let n := Z.to_N (round (Qabs q * inject_Z scale)%Q) in
      let text := decimal n in
      let padded := repeat 48 (S digits - List.length text) ++ text in
      let k := (List.length padded - digits)%nat in
      match digits with
      | O => sign ++ padded
      | S _ => sign ++ firstn k padded ++ u "." ++ skipn k padded
      end
  end.

Definition isDigit (c : N) : bool := (48 <=? c) && (c <=? 57).

Fixpoint digitsValue (acc : N) (s : str) : N :=
  match s with
  | [] => acc
  | c :: t => digitsValue (10 * acc + (c - 48)) t
  end.

Fixpoint radixValue (radix : N) (acc : N) (s : str) : option N :=
  match s with
  | [] => Some acc
  | c :: t =>
      match hexValue c with
      | Some d =>
          if (Z.to_N d <? radix) then radixValue radix (radix * acc + Z.to_N d) t
          else None
      | None => None
      end
  end.

(** The exponent part of a decimal literal: nothing, or [e], a sign and
    digits up to the end of the text. *)
Definition exponentPart (s : str) : option Z :=
  match s with
  | [] => Some 0%Z
  | e :: t =>
      if (e =? 101) || (e =? 69) then
        let (negative, digits) :=
          match t with
          | c :: t' => if c =? MINUS then (true, t')
                       else if c =? 43 then (false, t') else (false, t)
          | [] => (false, t)
          end in
        if isEmpty digits || negb (forallb isDigit digits) then None
        else
          let v := Z.of_N (digitsValue 0 digits) in
          Some (if negative then - v else v)%Z
      else None
  end.

Definition pow10 (e : Z) : Q :=
  match e with
  | Z0 => 1%Q
  | Zpos p => inject_Z (Z.pow 10 (Zpos p))
  | Zneg p => (1 # Pos.pow 10 p)%Q
  end.

(** An unsigned decimal literal: digits, a point and digits, an exponent. *)
Definition unsignedDecimal (s : str) : option Q :=
  let whole := takeWhile isDigit s in
  let s1 := dropWhile isDigit s in
  let (fraction, s2) :=
    match s1 with
    | c :: t => if c =? 46 then (takeWhile isDigit t, dropWhile isDigit t)
                else ([], s1)
    | [] => ([], s1)
    end in
  if isEmpty whole && isEmpty fraction then None
  else
    match exponentPart s2 with
    | Some e =>
        let mantissa :=
          (inject_Z (Z.of_N (digitsValue 0 whole))
           + inject_Z (Z.of_N (digitsValue 0 fraction))
             * pow10 (- Z.of_nat (List.length fraction)))%Q in
        Some (mantissa * pow10 e)%Q
    | None => None
    end.

(** [Number(text)], the StringToNumber grammar: white space around, the
    empty text is zero; [Infinity] with a sign; unsigned literals in radix
    16, 8 and 2; signed decimal literals; anything else is [NaN]. Overflow
    to infinity and underflow to zero are not modelled. *)
Definition Number (text : str) : number :=
  let s := trim text in
  match s with
  | [] => Num 0
  | c :: t =>
      let radixLiteral (radix : N) :=
        match t with
        | _ :: (_ :: _) as digits =>
            match radixValue radix 0 (tl t) with
            | Some v => Num (inject_Z (Z.of_N v))
            | None => NaN
            end
        | _ => NaN
        end in
      let prefixed (x : N) : bool :=
        (c =? 48) && match t with p :: _ => (p =? x) || (p =? x - 32) | [] => false end in
      if prefixed 120 then radixLiteral 16
      else if prefixed 111 then radixLiteral 8
      else if prefixed 98 then radixLiteral 2
      else
        let (negative, body) :=
          if c =? MINUS then (true, t)
          else if c =? 43 then (false, t) else (false, s) in
        if streq body (u "Infinity") then Infinity negative
        else
          match unsignedDecimal body with
          | Some q => Num (if negative then - q else q)%Q
          | None => NaN
          end
  end.

(** ** lib/vivaldiIconMaker.ts *)

Record GenerateVariantsOptions : Type := {
  svgContent : str;
  fill : option str;
  stroke : option str;
  preserveFillNone : option bool;
  preserveStrokeNone : option bool;
  generateInactive : option bool;
  inactiveMix : option number;
  inactiveCornerRadius : option number;
  inactiveBackgroundInsetRatio : option Q
}.

Record IconVariant : Type := {
  name : str;
  svg : str;
  variantFill : option str;
  variantStroke : option str;
  backgroundColor : option str
}.

Definition DEFAULT_INACTIVE_MIX : Q := (1 # 2)%Q.
Definition DEFAULT_INACTIVE_CORNER_RADIUS : number := Num 6.
Definition DEFAULT_INACTIVE_INSET_RATIO : Q := (1 # 10)%Q.
Definition INACTIVE_BACKGROUND_MARKER : str :=
  u "data-vivaldi-inactive-bg=" ++ [QUOTE] ++ u "true" ++ [QUOTE].

(** Modelled from the spec: [clampRatio], which [lib/vivaldiIconMaker.ts]
    imports from [colorTransforms.js]; the [colorTransforms.ts] at hand does
    not declare it. The spec: the inset ratio is clamped to [0, 0.9], values
    below 0 become 0, above 0.9 become 0.9. The function of the same name
    private to the command line tool ([src/index.ts]) has this body. *)
Definition clampRatio (value : Q) : Q :=
  if Qle_bool value 0 then 0%Q
  else if Qle_bool (9 # 10) value then (9 # 10)%Q
  else value.

Record ViewBoxValues : Type := {
  minX : number;
  minY : number;
  width : number;
  height : number
}.

(** The expression of [extractViewBox]: the attribute name under the [i]
    flag, a double quote, one code unit or more that are no double quote,
    a double quote. The value group and the length of the match. *)
Definition viewBoxPattern (s : str) : option (str * nat) :=
  match stripPrefixCI (u "viewBox=" ++ [QUOTE]) s with
  | Some (opening, s1) =>
      let (value, s2) := span (fun c => c =? QUOTE) s1 in
      match value, s2 with
      | _ :: _, _ :: _ =>
          Some (value, S (List.length opening + List.length value))
      | _, _ => None
      end
  | None => None
  end.

(** Leftmost match of [viewBoxPattern]: its value group. *)
Fixpoint viewBoxSearch (s : str) : option str :=
  match viewBoxPattern s with
  | Some (value, _) => Some value
  | None =>
      match s with
      | [] => None
      | _ :: t => viewBoxSearch t
      end
  end.

(** [text.split(/\s+/)]. *)
Fixpoint splitWsFrom (inGap : bool) (s : str) : list str :=
  match s with
  | [] => [[]]
  | c :: t =>
      if isSpace c then
        if inGap then splitWsFrom true t else [] :: splitWsFrom true t
      else
        match splitWsFrom false t with
        | p :: ps => (c :: p) :: ps
        | [] => [[c]]
        end
  end.

Definition splitWs (s : str) : list str := splitWsFrom false s.

Definition extractViewBox (svgContent : str) : option ViewBoxValues :=
  match viewBoxSearch svgContent with
  | None => None
  | Some value =>
      let parts := splitWs (trim value) in
      if negb (Nat.eqb (List.length parts) 4) then None
      else
        match List.map Number parts with
        | [minXRaw; minYRaw; widthRaw; heightRaw] =>
            if existsb isNaN [minXRaw; minYRaw; widthRaw; heightRaw] then None
            else Some {| minX := minXRaw; minY := minYRaw;
                         width := widthRaw; height := heightRaw |}
        | _ => None
        end
  end.

(** [text.replace(/0+$/g, emptyString)] and [text.replace(/\.$/, emptyString)]. *)
Definition stripTrailingZeros (text : str) : str :=
  rev (dropWhile (fun c => c =? 48) (rev text)).

Definition stripTrailingPoint (text : str) : str :=
  match rev text with
  | c :: t => if c =? 46 then rev t else text
  | [] => text
  end.

Definition formatNumber (value : number) : str :=
  if isInteger value then numberToString value
  else stripTrailingPoint (stripTrailingZeros (toFixed 4 value)).

Definition attribute (name value : str) : str :=
  name ++ u "=" ++ [QUOTE] ++ value ++ [QUOTE].

Definition buildInsetRectFromViewBox (viewBox : ViewBoxValues) (color : str)
    (cornerRadius : number) (insetRatio : Q) : str :=
  let clampedInset := clampRatio insetRatio in
  let newWidth := nmul (width viewBox) (Num (1 - clampedInset)) in
  let newHeight := nmul (height viewBox) (Num (1 - clampedInset)) in
  let offsetX := nadd (minX viewBox) (ndivq (nsub (width viewBox) newWidth) 2) in
  let offsetY := nadd (minY viewBox) (ndivq (nsub (height viewBox) newHeight) 2) in
  u "<rect " ++ INACTIVE_BACKGROUND_MARKER
  ++ u " " ++ attribute (u "x") (formatNumber offsetX)
  ++ u " " ++ attribute (u "y") (formatNumber offsetY)
  ++ u " " ++ attribute (u "width") (formatNumber newWidth)
  ++ u " " ++ attribute (u "height") (formatNumber newHeight)
  ++ u " " ++ attribute (u "rx") (numberToString cornerRadius)
  ++ u " " ++ attribute (u "ry") (numberToString cornerRadius)
  ++ u " " ++ attribute (u "fill") color
  ++ u "/>".

Definition buildInsetRectWithPercent (color : str) (cornerRadius : number)
    (insetRatio : Q) : str :=
  let insetPercent := toFixed 2 (Num ((insetRatio * 100) / 2)) in
  let sizePercent := toFixed 2 (Num (100 - insetRatio * 100)) in
  u "<rect " ++ INACTIVE_BACKGROUND_MARKER
  ++ u " " ++ attribute (u "x") (insetPercent ++ u "%")
  ++ u " " ++ attribute (u "y") (insetPercent ++ u "%")
  ++ u " " ++ attribute (u "width") (sizePercent ++ u "%")
  ++ u " " ++ attribute (u "height") (sizePercent ++ u "%")
  ++ u " " ++ attribute (u "rx") (numberToString cornerRadius)
  ++ u " " ++ attribute (u "ry") (numberToString cornerRadius)
  ++ u " " ++ attribute (u "fill") color
  ++ u "/>".

(** rectPattern, under the [i] flag: the tag name, then inside the tag (no
    greater-than sign) the marker, and the tag closed by a slash and a
    greater-than sign. The slash is the last code unit in front of the first
    greater-than sign, and the marker stands in front of it. *)
Definition rectPattern (s : str) : option nat :=
  match stripPrefixCI (u "<rect") s with
  | Some (opening, s1) =>
      let (inside, s2) := span (fun c => c =? GT) s1 in
      match s2, rev inside with
      | _ :: _, c :: front =>
          if c =? SLASH then
            match findSubCI INACTIVE_BACKGROUND_MARKER (rev front) with
            | Some _ => Some (S (List.length opening + List.length inside))
            | None => None
            end
          else None
      | _, _ => None
      end
  | None => None
  end.

(** The expression for the opening tag of the root element. *)
Definition svgOpenTagPattern (s : str) : option nat :=
  match stripPrefixCI (u "<svg") s with
  | Some (opening, s1) =>
      let (inside, s2) := span (fun c => c =? GT) s1 in
      match s2 with
      | _ :: _ => Some (S (List.length opening + List.length inside))
      | [] => None
      end
  | None => None
  end.

(** The rectangle that [addOrUpdateBackgroundRect] builds for a document. *)
Definition rectElementFor (svgContent color : str) (cornerRadius : number)
    (insetRatio : Q) : str :=
  let clampedInset := clampRatio insetRatio in
  match extractViewBox svgContent with
  | Some viewBox => buildInsetRectFromViewBox viewBox color cornerRadius clampedInset
  | None => buildInsetRectWithPercent color cornerRadius clampedInset
  end.

Definition addOrUpdateBackgroundRect (svgContent color : str)
    (cornerRadius : number) (insetRatio : Q) : result str :=
  let rectElement := rectElementFor svgContent color cornerRadius insetRatio in
  match searchFirst rectPattern svgContent with
  | Some (before, matched, after) =>
      Ok (before ++ getSubstitution before matched after rectElement ++ after)
  | None =>
      match searchFirst svgOpenTagPattern svgContent with
      | None => Throw NotAnSvgDocument
      | Some (_, svgOpenTag, _) =>
          let replacement := svgOpenTag ++ [10; 32; 32] ++ rectElement in
          Ok (replaceString svgOpenTag replacement svgContent)
      end
  end.

Definition ensureValidSvg (content : str) : result unit :=
  if isEmpty content || negb (includes (u "<svg") content)
  then Throw InvalidSvgContent
  else Ok tt.

Definition isNoneKeyword (color : str) : bool :=
  streq (toLowerCase (trim color)) NONE.

(** [None] inside [Ok] is a colour built from a [NaN] channel, see
    [parseShortHex]. *)
Definition transformInactiveColor (color : option str) (mix : Q)
  : result (option (option str)) :=
  match truthy color with
  | None => Ok (Some color)
  | Some c =>
      if isNoneKeyword c then Ok (Some color)
      else
        match createInactiveColor c mix with
        | Throw e => Throw e
        | Ok None => Ok None
        | Ok (Some text) => Ok (Some (Some text))
        end
  end.

Definition clampUnitRange (value : number) : Q :=
  match value with
  | NaN => DEFAULT_INACTIVE_MIX
  | Infinity negative => if negative then 0%Q else 1%Q
  | Num q => Qmin (Qmax q 0) 1
  end.

Definition normalizeColor (color : option str) : option str :=
  match truthy color with
  | None => None
  | Some c => if isNoneKeyword c then None else Some c
  end.

Definition pickPrimaryColor (fill stroke : option str) : option str :=
  match normalizeColor fill with
  | Some normalizedFill => Some normalizedFill
  | None =>
      match normalizeColor stroke with
      | Some normalizedStroke => Some normalizedStroke
      | None => None
      end
  end.

(** [Math.max(0, x)]. *)
Definition maxZero (x : number) : number :=
  match x with
  | NaN => NaN
  | Infinity negative => if negative then Num 0 else x
  | Num q => Num (Qmax 0 q)
  end.

Definition orDefault {A : Type} (o : option A) (default : A) : A :=
  match o with Some v => v | None => default end.

(** The result is [Throw] for an exception, [Ok None] when a colour with a
    [NaN] channel reached the colour arithmetic (not modelled), [Ok (Some
    variants)] for the array returned. *)
Definition generateIconVariants (options : GenerateVariantsOptions)
  : result (option (list IconVariant)) :=
  let svgContent := svgContent options in
  let fill := fill options in
  let stroke := stroke options in
  let preserveFillNone := orDefault (preserveFillNone options) true in
  let preserveStrokeNone := orDefault (preserveStrokeNone options) true in
  let generateInactive := orDefault (generateInactive options) true in
  let inactiveMix := orDefault (inactiveMix options) (Num DEFAULT_INACTIVE_MIX) in
  let inactiveCornerRadius :=
    orDefault (inactiveCornerRadius options) DEFAULT_INACTIVE_CORNER_RADIUS in
  let inactiveBackgroundInsetRatio :=
    orDefault (inactiveBackgroundInsetRatio options) DEFAULT_INACTIVE_INSET_RATIO in
  match ensureValidSvg svgContent with
  | Throw e => Throw e
  | Ok _ =>
      let primaryColor := pickPrimaryColor fill stroke in
      let normalizedInactiveMix := clampUnitRange inactiveMix in
      let safeCornerRadius := maxZero inactiveCornerRadius in
      let activeSvg :=
        recolorVivaldiSvg svgContent
          {| ro_fill := fill; ro_stroke := stroke;
             ro_preserveFillNone := Some preserveFillNone;
             ro_preserveStrokeNone := Some preserveStrokeNone |} in
      let active :=
        {| name := u "active"; svg := activeSvg; variantFill := fill;
           variantStroke := stroke; backgroundColor := None |} in
      if negb generateInactive then Ok (Some [active])
      else
        match transformInactiveColor fill normalizedInactiveMix with
        | Throw e => Throw e
        | Ok None => Ok None
        | Ok (Some inactiveFill) =>
        match transformInactiveColor stroke normalizedInactiveMix with
        | Throw e => Throw e
        | Ok None => Ok None
        | Ok (Some inactiveStroke) =>
        match
          match primaryColor with
          | Some c =>
              match createInactiveBackgroundColor c normalizedInactiveMix with
              | Throw e => Throw e
              | Ok None => Ok None
              | Ok (Some text) => Ok (Some (Some text))
              end
          | None => Ok (Some None)
          end
        with
        | Throw e => Throw e
        | Ok None => Ok None
        | Ok (Some backgroundColor) =>
            let inactiveSvg :=
              recolorVivaldiSvg svgContent
                {| ro_fill := inactiveFill; ro_stroke := inactiveStroke;
                   ro_preserveFillNone := Some preserveFillNone;
                   ro_preserveStrokeNone := Some preserveStrokeNone |} in
            match
              match truthy backgroundColor with
              | Some c =>
                  addOrUpdateBackgroundRect inactiveSvg c safeCornerRadius
                    inactiveBackgroundInsetRatio
              | None => Ok inactiveSvg
              end
            with
            | Throw e => Throw e
            | Ok inactiveSvg =>
                Ok (Some [active;
                          {| name := u "inactive"; svg := inactiveSvg;
                             variantFill := inactiveFill;
                             variantStroke := inactiveStroke;
                             backgroundColor := backgroundColor |}])
            end
        end end end
  end.

(** ** index.ts *)

(** Exceptions of the command line, one constructor per [throw]; the
    exceptions of the library pass through. *)
Inductive cliError : Type :=
| FlagExpectsValue (flag : str)   (* requireValue *)
| UnknownPreset (preset : str)    (* parsePreset *)
| InactiveMixOutOfRange           (* parseInactiveMix *)
| UnknownArgument (arg : str)     (* parseArgs *)
| NoColorGiven                    (* parseArgs *)
| LibraryError (e : error).       (* validateColorInput *)

(** What a call of the command line comes to: a value, an exception, or
    the help text followed by [process.exit(0)]. *)
Inductive outcome (A : Type) : Type :=
| Returns (value : A)
| Throws (e : cliError)
| HelpExit.
Arguments Returns {A} value.
Arguments Throws {A} e.
Arguments HelpExit {A}.

Definition andThen {A B : Type} (o : outcome A) (k : A -> outcome B) : outcome B :=
  match o with
  | Returns v => k v
  | Throws e => Throws e
  | HelpExit => HelpExit
  end.

Definition ofResult {A : Type} (r : result A) : outcome A :=
  match r with
  | Ok v => Returns v
  | Throw e => Throws (LibraryError e)
  end.

Record RawCliOptions : Type := {
  raw_input : option str;
  raw_iconPreset : option str;
  raw_output : option str;
  raw_fill : option str;
  raw_stroke : option str;
  raw_overwrite : bool;
  raw_preserveFillNone : bool;
  raw_preserveStrokeNone : bool;
  raw_generateInactive : bool;
  raw_inactiveMix : number
}.

(** The assignments to the fields of [rawOptions]. *)
Inductive Assignment : Type :=
| SetInput (v : str)
| SetIconPreset (v : str)
| SetOutput (v : str)
| SetFill (v : str)
| SetStroke (v : str)
| SetOverwrite (v : bool)
| SetPreserveFillNone (v : bool)
| SetPreserveStrokeNone (v : bool)
| SetGenerateInactive (v : bool)
| SetInactiveMix (v : number).

Definition assign (raw : RawCliOptions) (a : Assignment) : RawCliOptions :=
  {| raw_input := match a with SetInput v => Some v | _ => raw_input raw end;
     raw_iconPreset := match a with SetIconPreset v => Some v | _ => raw_iconPreset raw end;
     raw_output := match a with SetOutput v => Some v | _ => raw_output raw end;
     raw_fill := match a with SetFill v => Some v | _ => raw_fill raw end;
     raw_stroke := match a with SetStroke v => Some v | _ => raw_stroke raw end;
     raw_overwrite := match a with SetOverwrite v => v | _ => raw_overwrite raw end;
     raw_preserveFillNone :=
       match a with SetPreserveFillNone v => v | _ => raw_preserveFillNone raw end;
     raw_preserveStrokeNone :=
       match a with SetPreserveStrokeNone v => v | _ => raw_preserveStrokeNone raw end;
     raw_generateInactive :=
       match a with SetGenerateInactive v => v | _ => raw_generateInactive raw end;
     raw_inactiveMix := match a with SetInactiveMix v => v | _ => raw_inactiveMix raw end |}.

Definition requireValue (value : option str) (flag : str) : outcome str :=
  match truthy value with
  | Some v => Returns v
  | None => Throws (FlagExpectsValue flag)
  end.

Definition parsePreset (preset : str) : outcome str :=
  let normalized := toLowerCase preset in
  if streq normalized (u "black") || streq normalized (u "line") then Returns normalized
  else Throws (UnknownPreset preset).

Definition parseInactiveMix (value : str) : outcome number :=
  let numeric := Number value in
  match numeric with
  | Num q =>
      if Qlt_bool q 0 || Qlt_bool 1 q then Throws InactiveMixOutOfRange
      else Returns numeric
  | _ => Throws InactiveMixOutOfRange
  end.

Definition initialOptions : RawCliOptions :=
  {| raw_input := None; raw_iconPreset := None; raw_output := None;
     raw_fill := None; raw_stroke := None; raw_overwrite := false;
     raw_preserveFillNone := true; raw_preserveStrokeNone := true;
     raw_generateInactive := true; raw_inactiveMix := Num (1 # 2) |}.

Definition isFlag (arg : str) (names : list string) : bool :=
  existsb (fun name => streq arg (u name)) names.

(** The loop of [parseArgs] from the argument at [index] on. A flag with a
    value reads [argv[++index]], which is [undefined] behind the last
    argument, and the loop goes on behind the value. *)
Fixpoint parseLoop (argv : list str) (raw : RawCliOptions) : outcome RawCliOptions :=
  match argv with
  | [] => Returns raw
  | arg :: rest =>
      let (value, goOn) :=
        match rest with
        | v :: behind => (Some v, parseLoop behind)
        | [] => (None, Returns)
        end in
      if isFlag arg ["-h"; "--help"]%string then HelpExit
      else if isFlag arg ["-i"; "--input"]%string then
        andThen (requireValue value arg) (fun v => goOn (assign raw (SetInput v)))
      else if isFlag arg ["--icon"]%string then
        andThen (requireValue value arg) (fun v =>
        andThen (parsePreset v) (fun preset => goOn (assign raw (SetIconPreset preset))))
      else if isFlag arg ["-o"; "--output"]%string then
        andThen (requireValue value arg) (fun v => goOn (assign raw (SetOutput v)))
      else if isFlag arg ["-f"; "--fill"]%string then
        andThen (requireValue value arg) (fun v =>
        andThen (ofResult (validateColorInput v)) (fun color =>
          goOn (assign raw (SetFill color))))
      else if isFlag arg ["-s"; "--stroke"]%string then
        andThen (requireValue value arg) (fun v =>
        andThen (ofResult (validateColorInput v)) (fun color =>
          goOn (assign raw (SetStroke color))))
      else if isFlag arg ["--overwrite"]%string then
        parseLoop rest (assign raw (SetOverwrite true))
      else if isFlag arg ["--no-preserve-fill-none"]%string then
        parseLoop rest (assign raw (SetPreserveFillNone false))
      else if isFlag arg ["--no-preserve-stroke-none"]%string then
        parseLoop rest (assign raw (SetPreserveStrokeNone false))
      else if isFlag arg ["--no-inactive"]%string then
        parseLoop rest (assign raw (SetGenerateInactive false))
      else if isFlag arg ["--inactive-mix"]%string then
        andThen (requireValue value arg) (fun v =>
        andThen (parseInactiveMix v) (fun mix => goOn (assign raw (SetInactiveMix mix))))
      else Throws (UnknownArgument arg)
  end.

Definition parseArgs (argv : list str) : outcome RawCliOptions :=
  match argv with
  | [] => HelpExit
  | _ :: _ =>
      andThen (parseLoop argv initialOptions) (fun rawOptions =>
        match truthy (raw_fill rawOptions), truthy (raw_stroke rawOptions) with
        | None, None => Throws NoColorGiven
        | _, _ => Returns rawOptions
        end)
  end.

Definition isAlphanumeric (c : N) : bool :=
  ((97 <=? c) && (c <=? 122)) || ((65 <=? c) && (c <=? 90)) || isDigit c.

Definition isHyphen (c : N) : bool := c =? MINUS.

(** The first expression of [sanitizeForSuffix], a run of code units other
    than ASCII letters and digits (under the [i] flag no code unit from 128
    on folds into ASCII), with its replacement. *)
Definition otherRun (s : str) : option (nat * str) :=
  match takeWhile (fun c => negb (isAlphanumeric c)) s with
  | [] => None
  | run => Some (List.length run, u "-")
  end.

(** The second alternative of the second expression: hyphens up to the end
    of the text. *)
Definition trailingHyphens (s : str) : option (nat * str) :=
  match takeWhile isHyphen s, dropWhile isHyphen s with
  | (_ :: _) as run, [] => Some (List.length run, [])
  | _, _ => None
  end.

(** The second replacement: the first alternative matches the hyphens at
    the head of the text and nowhere else; the search resumes behind them
    with the second alternative. *)
Definition stripHyphens (s : str) : str :=
  scanFrom trailingHyphens (List.length (takeWhile isHyphen s)) s.

Definition sanitizeForSuffix (value : str) : str :=
  stripHyphens (replaceAll otherRun value).

Definition createSuffix (raw : RawCliOptions) : str :=
  let parts :=
    match truthy (raw_fill raw) with
    | Some fill => [u "fill-" ++ sanitizeForSuffix fill]
    | None => []
    end
    ++ match truthy (raw_stroke raw) with
       | Some stroke => [u "stroke-" ++ sanitizeForSuffix stroke]
       | None => []
       end in
  match parts with
  | [] => u "recolored"
  | _ :: _ => join (u "-") parts
  end.

(** * Vocabulary of the statements *)

Definition notSvgOptions : GenerateVariantsOptions :=
  {| svgContent := u "<not-svg/>"; fill := Some (u "#ff0000"); stroke := None;
     preserveFillNone := None; preserveStrokeNone := None;
     generateInactive := None; inactiveMix := None;
     inactiveCornerRadius := None; inactiveBackgroundInsetRatio := None |}.

Definition activeOnlyOptions (mix radius : number) (inset : Q)
  : GenerateVariantsOptions :=
  {| svgContent := u "<svg><path fill=" ++ [QUOTE] ++ u "#000" ++ [QUOTE] ++ u "/></svg>";
     fill := Some (u "#ff0000"); stroke := None;
     preserveFillNone := None; preserveStrokeNone := Some false;
     generateInactive := Some false; inactiveMix := Some mix;
     inactiveCornerRadius := Some radius;
     inactiveBackgroundInsetRatio := Some inset |}.

Definition channelOk (d1 d2 : N) : bool :=
  implb (isHexDigit d1 && isHexDigit d2)
    match parseInt16 [d1; d2] with
    | Some v => streq (padStart2 (toString16 v)) (toLowerCase [d1; d2])
                && (0 <=? v)%Z && (v <=? 255)%Z
    | None => false
    end.

Definition roundTrip (x : str) : option str :=
  match parseHexColor x with
  | Ok (Some color) => Some (formatHexColor color (hasExplicitAlpha x))
  | _ => None
  end.

Definition expandedForm (x : str) : str :=
  match x with
  | hash :: digits =>
      if Nat.leb (List.length digits) 4
      then hash :: flat_map (fun c => [c; c]) digits
      else x
  | [] => []
  end.

Definition channelInRange (c : Rgba) : Prop :=
  (0 <= r c <= 255)%Z /\ (0 <= g c <= 255)%Z /\ (0 <= b c <= 255)%Z.

Definition free (stop : N -> bool) (s : str) : bool :=
  forallb (fun c => negb (stop c)) s.

Definition isQuote (c : N) : bool := c =? QUOTE.

Definition startsCI (pat s : str) : bool :=
  match stripPrefixCI pat s with Some _ => true | None => false end.

Definition valueStop (c : N) : bool := (c =? QUOTE) || isLineTerminator c.

(** The text in front of the opening quote of an attribute match. *)
Definition isOpener (property : Property) (a : str) : Prop :=
  exists name ws1 ws2,
    a = name ++ ws1 ++ EQUALS :: ws2
    /\ stripPrefixCI (propertyName property) name = Some (name, [])
    /\ forallb isSpace ws1 = true /\ forallb isSpace ws2 = true.

(** A colour as [validateColorInput] hands it on: it validates to itself. *)
Definition validColor (color : str) : Prop := validateColorInput color = Ok color.

Definition isColorChar (c : N) : bool :=
  (c =? HASH) || isHexDigit c || (c =? 110) || (c =? 111).

Definition colorCharOk (c : N) : bool :=
  implb (isColorChar c)
    (negb (isSpace c) && negb (valueStop c) && negb (ciEq 115 c)
     && negb (ciEq LT c) && negb (c =? GT) && negb (c =? DOLLAR)
     && negb (c =? SEMI) && negb (c =? COLON) && negb (c =? RBRACE)).



(** A sample document, written with an apostrophe for every double quote. *)
Definition doc (text : string) : str :=
  List.map (fun c => if c =? APOS then QUOTE else c) (u text).


Definition isTrimmed (s : str) : bool :=
  match s with
  | [] => true
  | c :: _ => negb (isSpace c) && negb (isSpace (last s 0))
  end.

Definition isSemi (c : N) : bool := c =? SEMI.
Definition isColon (c : N) : bool := c =? COLON.



Definition styleLiteral : str := u "style=" ++ [QUOTE].

(** The text the opening of a style attribute matched. *)
Definition isStyleOpening (opening : str) : Prop :=
  stripPrefixCI styleLiteral opening = Some (opening, []).





Definition sampleIcon : str :=
  doc "<svg viewBox='0 0 24 24'><path FILL ='Red' stroke='none' style=' fill : red ;; stroke:none'/></svg>".

(** The code units number formatting produces: digits, the point, the
    minus sign and the letters of [NaN] and [Infinity]. *)
Definition isNumberChar (c : N) : bool :=
  isDigit c || (c =? 46) || (c =? MINUS)
  || existsb (N.eqb c) (u "NaInfinity").

Definition isGT (c : N) : bool := c =? GT.
Definition isDollar (c : N) : bool := c =? DOLLAR.

Definition RECT_OPEN : str := u "<rect".

(** A text the rectangle pattern matches as a whole. *)
Definition isRectLike (matched : str) : Prop :=
  exists opening front,
    matched = opening ++ front ++ [SLASH; GT]
    /\ stripPrefixCI RECT_OPEN opening = Some (opening, [])
    /\ free isGT front = true
    /\ findSubCI INACTIVE_BACKGROUND_MARKER front <> None.

(** The code units of the fixed text of the rectangle element. *)
Definition rectAlphabet : str :=
  u " =xywidthheightrxryfill%" ++ [QUOTE] ++ INACTIVE_BACKGROUND_MARKER.

(** A class of code units that holds none of those of numbers and none of
    the fixed text. *)
Definition plainFor (bad : N -> bool) : Prop :=
  (forall c, isNumberChar c = true -> bad c = false)
  /\ free bad rectAlphabet = true.

(** What stands between the marker and the end of the tag. *)
Definition rectMiddle (x y w hgt radius color : str) : str :=
  u " " ++ attribute (u "x") x
  ++ u " " ++ attribute (u "y") y
  ++ u " " ++ attribute (u "width") w
  ++ u " " ++ attribute (u "height") hgt
  ++ u " " ++ attribute (u "rx") radius
  ++ u " " ++ attribute (u "ry") radius
  ++ u " " ++ attribute (u "fill") color.

(** The first match of the expression for the opening tag, the empty text
    when there is none. *)
Definition openingTag (svgContent : str) : str :=
  match searchFirst svgOpenTagPattern svgContent with
  | Some (_, svgOpenTag, _) => svgOpenTag
  | None => []
  end.

Definition VIEWBOX_OPEN : str := u "viewBox=" ++ [QUOTE].


(** The opening of an attribute stands at the head of the text and its
    value runs to the end of the text, without a closing quote and without
    a line terminator. *)
Definition danglingAt (property : Property) (s : str) : bool :=
  match stripPrefixCI (propertyName property) s with
  | Some (_, s1) =>
      let (_, s2) := span notSpace s1 in
      match s2 with
      | e :: s3 =>
          (e =? EQUALS)
          && let (_, s4) := span notSpace s3 in
             match s4 with
             | q :: s5 =>
                 (q =? QUOTE)
                 && isEmpty (snd (span (fun c => (c =? QUOTE) || isLineTerminator c) s5))
             | [] => false
             end
      | [] => false
      end
  | None => false
  end.

(** Somewhere in the text an attribute value is left open. *)
Fixpoint hasUnclosed (property : Property) (s : str) : bool :=
  danglingAt property s
  || match s with
     | [] => false
     | _ :: t => hasUnclosed property t
     end.

Definition initial (property : Property) : N :=
  match property with Fill => 102 | Stroke => 115 end.






Definition byteOk (n : N) : bool :=
  match padStart2 (toString16 (Z.of_N n)) with
  | [d1; d2] => isHexDigit d1 && isHexDigit d2
  | _ => false
  end.

(** Options as [parseArgs] hands them on: colours in the form
    [validateColorInput] returns, a mix within the unit range, a preset of
    the list. *)
Definition usableOptions (raw : RawCliOptions) : Prop :=
  (forall c, raw_fill raw = Some c -> validColor c)
  /\ (forall c, raw_stroke raw = Some c -> validColor c)
  /\ (exists q, raw_inactiveMix raw = Num q /\ (0 <= q)%Q /\ (q <= 1)%Q)
  /\ (forall preset, raw_iconPreset raw = Some preset ->
        preset = u "black" \/ preset = u "line").

(** What an assignment needs for the options to stay usable. *)
Definition usableAssignment (a : Assignment) : Prop :=
  match a with
  | SetFill c | SetStroke c => validColor c
  | SetInactiveMix mix => exists q, mix = Num q /\ (0 <= q)%Q /\ (q <= 1)%Q
  | SetIconPreset preset => preset = u "black" \/ preset = u "line"
  | _ => True
  end.


(** * Properties *)

Unset Implicit Arguments.

(** ** The variant generator *)

Lemma ensureValidSvg_without_marker (content : str) :
  includes (u "<svg") content = false -> ensureValidSvg content = Throw InvalidSvgContent.
Proof.
  intros Hno. unfold ensureValidSvg. rewrite Hno.
  now rewrite orb_true_r.
Qed.

(** What [generateIconVariants] does once the document passed
    [ensureValidSvg] and no inactive variant is asked for. *)
Lemma generate_active_only (options : GenerateVariantsOptions) :
  ensureValidSvg (svgContent options) = Ok tt ->
  generateInactive options = Some false ->
  generateIconVariants options =
    Ok (Some [ {| name := u "active";
                  svg := recolorVivaldiSvg (svgContent options)
                           {| ro_fill := fill options; ro_stroke := stroke options;
                              ro_preserveFillNone :=
                                Some (orDefault (preserveFillNone options) true);
                              ro_preserveStrokeNone :=
                                Some (orDefault (preserveStrokeNone options) true) |};
                  variantFill := fill options;
                  variantStroke := stroke options;
                  backgroundColor := None |} ]).
Proof.
  intros Hvalid Hinactive. unfold generateIconVariants.
  rewrite Hvalid, Hinactive. reflexivity.
Qed.

Lemma generate_invalid (options : GenerateVariantsOptions) (e : error) :
  ensureValidSvg (svgContent options) = Throw e ->
  generateIconVariants options = Throw e.
Proof.
  intros Hinvalid. unfold generateIconVariants. now rewrite Hinvalid.
Qed.

(** C6. A document without the root marker [<svg] makes the generator throw
    the error of [ensureValidSvg] instead of returning variants; and when
    the generator returns an array, it is the whole list: the active
    variant, followed by the inactive one unless it was switched off. *)
Theorem invalid_svg_throws_and_no_partial_list (options : GenerateVariantsOptions) :
  (includes (u "<svg") (svgContent options) = false ->
   generateIconVariants options = Throw InvalidSvgContent)
  /\ (forall variants,
        generateIconVariants options = Ok (Some variants) ->
        List.map name variants =
          if orDefault (generateInactive options) true
          then [u "active"; u "inactive"] else [u "active"]).
Proof.
  split.
  - intros Hno. apply generate_invalid.
    now apply ensureValidSvg_without_marker.
  - intros variants. unfold generateIconVariants.
    destruct (ensureValidSvg (svgContent options)); [|discriminate].
    destruct (orDefault (generateInactive options) true); cbn [negb].
    + destruct (transformInactiveColor (fill options) _) as [[inactiveFill|]|];
        try discriminate.
      destruct (transformInactiveColor (stroke options) _) as [[inactiveStroke|]|];
        try discriminate.
      destruct (pickPrimaryColor (fill options) (stroke options)) as [c|].
      * destruct (createInactiveBackgroundColor c _) as [[text|]|]; try discriminate.
        destruct (truthy (Some text)).
        -- destruct (addOrUpdateBackgroundRect _ _ _ _); try discriminate.
           intros [= <-]. reflexivity.
        -- intros [= <-]. reflexivity.
      * cbn [truthy]. intros [= <-]. reflexivity.
    + intros [= <-]. reflexivity.
Qed.

Lemma invalid_svg_throws_witness :
  generateIconVariants notSvgOptions = Throw InvalidSvgContent.
Proof.
  apply (proj1 (invalid_svg_throws_and_no_partial_list notSvgOptions)).
  vm_compute. reflexivity.
Defined.

(** C9. With the inactive variant switched off, the three inactive options
    have no influence: two option records that agree on the document, the
    colours and the preserve flags give the same result, and on a document
    that passes [ensureValidSvg] this result is one variant named
    [active]. *)
Theorem inactive_options_do_not_interfere (o1 o2 : GenerateVariantsOptions) :
  generateInactive o1 = Some false ->
  generateInactive o2 = Some false ->
  svgContent o1 = svgContent o2 ->
  fill o1 = fill o2 ->
  stroke o1 = stroke o2 ->
  preserveFillNone o1 = preserveFillNone o2 ->
  preserveStrokeNone o1 = preserveStrokeNone o2 ->
  generateIconVariants o1 = generateIconVariants o2
  /\ (ensureValidSvg (svgContent o1) = Ok tt ->
      exists variant,
        generateIconVariants o1 = Ok (Some [variant])
        /\ name variant = u "active"
        /\ variantFill variant = fill o1
        /\ variantStroke variant = stroke o1).
Proof.
  intros H1 H2 Hsvg Hfill Hstroke Hpf Hps. split.
  - destruct (ensureValidSvg (svgContent o1)) as [[]|e] eqn:Hvalid.
    + rewrite (generate_active_only o1 Hvalid H1).
      rewrite Hsvg in Hvalid. rewrite (generate_active_only o2 Hvalid H2).
      now rewrite Hsvg, Hfill, Hstroke, Hpf, Hps.
    + rewrite (generate_invalid o1 e Hvalid).
      rewrite Hsvg in Hvalid. now rewrite (generate_invalid o2 e Hvalid).
  - intros Hvalid. eexists. split; [apply (generate_active_only o1 Hvalid H1)|].
    repeat split.
Qed.

Lemma inactive_options_do_not_interfere_witness :
  generateIconVariants (activeOnlyOptions NaN (Num 2) (5 # 1))
  = generateIconVariants (activeOnlyOptions (Num (1 # 3)) (Infinity true) (-1 # 2)).
Proof.
  apply (inactive_options_do_not_interfere
           (activeOnlyOptions NaN (Num 2) (5 # 1))
           (activeOnlyOptions (Num (1 # 3)) (Infinity true) (-1 # 2)));
    reflexivity.
Defined.

(** ** The recolor entry point *)

(** C10. Without a fill and without a stroke (absent or the empty string)
    [recolorVivaldiSvg] returns the document as it is. *)
Theorem recolor_without_colors_is_identity (svgText : str) (options : RecolorOptions) :
  truthy (ro_fill options) = None ->
  truthy (ro_stroke options) = None ->
  recolorVivaldiSvg svgText options = svgText.
Proof.
  intros Hfill Hstroke. unfold recolorVivaldiSvg.
  rewrite Hfill, Hstroke. reflexivity.
Qed.

Lemma recolor_without_colors_is_identity_witness :
  recolorVivaldiSvg (u "<svg style=" ++ [QUOTE] ++ u " fill : red ;; " ++ [QUOTE] ++ u "/>")
    {| ro_fill := Some []; ro_stroke := None;
       ro_preserveFillNone := Some false; ro_preserveStrokeNone := None |}
  = u "<svg style=" ++ [QUOTE] ++ u " fill : red ;; " ++ [QUOTE] ++ u "/>".
Proof.
  apply recolor_without_colors_is_identity; reflexivity.
Defined.

(** ** The background rectangle: the inset ratio *)






(** ** Colour values *)

Lemma streq_eq (x y : str) : streq x y = true -> x = y.
Proof.
  revert y. induction x as [|c x IH]; intros [|d y]; simpl; try discriminate; auto.
  intros H. apply andb_true_iff in H as [Hc Hx].
  apply N.eqb_eq in Hc. subst. f_equal. auto.
Qed.

Lemma below_cases (P : N -> bool) (bound : nat) :
  forallb P (List.map N.of_nat (seq 0 bound)) = true ->
  forall c, (N.to_nat c < bound)%nat -> P c = true.
Proof.
  intros Hall c Hc. rewrite forallb_forall in Hall. apply Hall.
  rewrite <- (N2Nat.id c). apply in_map. apply in_seq. lia.
Qed.

Lemma isHexDigit_bound c : isHexDigit c = true -> (N.to_nat c < 103)%nat.
Proof.
  unfold isHexDigit. rewrite !orb_true_iff, !andb_true_iff, !N.leb_le. lia.
Qed.

Lemma channelOk_table :
  forallb (fun d1 => forallb (fun d2 => channelOk d1 d2) (List.map N.of_nat (seq 0 103)))
    (List.map N.of_nat (seq 0 103)) = true.
Proof. vm_compute. reflexivity. Qed.

Lemma parse_channel d1 d2 :
  isHexDigit d1 = true -> isHexDigit d2 = true ->
  exists v, parseInt16 [d1; d2] = Some v
            /\ padStart2 (toString16 v) = toLowerCase [d1; d2]
            /\ (0 <= v <= 255)%Z.
Proof.
  intros H1 H2.
  pose proof (below_cases _ 103 channelOk_table d1 (isHexDigit_bound _ H1)) as Hrow.
  cbv beta in Hrow.
  pose proof (below_cases _ 103 Hrow d2 (isHexDigit_bound _ H2)) as Hok.
  unfold channelOk in Hok. rewrite H1, H2 in Hok. cbn [andb implb] in Hok.
  destruct (parseInt16 [d1; d2]) as [v|]; [|discriminate].
  exists v. apply andb_true_iff in Hok as [Hok Hhi].
  apply andb_true_iff in Hok as [Htext Hlo].
  repeat split; [now apply streq_eq|lia|lia].
Qed.

Lemma round_alpha (v : Z) : round (inject_Z v / 255 * 255)%Q = v.
Proof.
  unfold round.
  assert (inject_Z v / 255 * 255 == inject_Z v)%Q as -> by field.
  unfold Qfloor, Qplus, inject_Z. cbn [Qnum Qden].
  apply eq_sym, Z.div_unique with 1%Z; lia.
Qed.

Lemma dropWhile_head (p : N -> bool) (t : str) :
  match t with c :: _ => p c = false | [] => True end -> dropWhile p t = t.
Proof. destruct t as [|c t]; simpl; [reflexivity|]. now intros ->. Qed.

Lemma isHexDigit_notSpace c : isHexDigit c = true -> isSpace c = false.
Proof.
  intros H. 
  pose proof (below_cases (fun c => implb (isHexDigit c) (negb (isSpace c))) 103 eq_refl c (isHexDigit_bound _ H)) as Hc.
  cbv beta in Hc. rewrite H in Hc. simpl in Hc. now apply negb_true_iff.
Qed.

Lemma trim_hex (digits : str) :
  forallb isHexDigit digits = true -> trim (HASH :: digits) = HASH :: digits.
Proof.
  intros Hall. unfold trim, trimStart, trimEnd. cbn [dropWhile].
  change (isSpace HASH) with false. cbv iota.
  rewrite dropWhile_head; [apply rev_involutive|].
  destruct (rev (HASH :: digits)) as [|c t] eqn:Hrev; [exact I|].
  assert (In c (HASH :: digits)) as [<-|Hin].
  { apply in_rev. rewrite Hrev. now left. }
  - reflexivity.
  - rewrite forallb_forall in Hall. now apply isHexDigit_notSpace, Hall.
Qed.

Lemma parse_valid_hex (x : str) :
  HEX_COLOR_PATTERN x = true ->
  exists color,
    parseHexColor x = Ok (Some color)
    /\ channelInRange color
    /\ formatHexColor color (hasExplicitAlpha x) = toLowerCase (expandedForm x).
Proof.
  intros Hhex. destruct x as [|hash digits]; [discriminate|].
  cbn [HEX_COLOR_PATTERN] in Hhex.
  apply andb_true_iff in Hhex as [Hhex Hlen].
  apply andb_true_iff in Hhex as [Hhash Hall].
  apply N.eqb_eq in Hhash. subst hash.
  unfold parseHexColor, hasExplicitAlpha, stripHash, channelInRange.
  rewrite (trim_hex _ Hall). change (HASH =? HASH) with true. cbv iota.
  destruct digits as [|d1 [|d2 [|d3 [|d4 [|d5 [|d6 [|d7 [|d8 [|d9 rest]]]]]]]]];
    try discriminate Hlen; clear Hlen;
    cbn [forallb] in Hall;
    repeat match type of Hall with
      | (_ && _) = true => let H := fresh "Hd" in apply andb_true_iff in Hall as [H Hall]
      end;
    cbn [List.length Nat.eqb orb negb expandedForm Nat.leb flat_map app].
  - unfold parseShortHex. cbn [doubled nth_error List.length Nat.eqb].
    destruct (parse_channel d1 d1 Hd Hd) as (v1 & -> & Ht1 & Hr1).
    destruct (parse_channel d2 d2 Hd0 Hd0) as (v2 & -> & Ht2 & Hr2).
    destruct (parse_channel d3 d3 Hd1 Hd1) as (v3 & -> & Ht3 & Hr3).
    eexists. split; [reflexivity|]. split; [cbn [r g b]; tauto|].
    cbn [r g b a formatHexColor]. rewrite Ht1, Ht2, Ht3.
    cbn [toLowerCase flat_map]. now rewrite <- !app_assoc, ?app_nil_r.
  - unfold parseShortHex. cbn [doubled nth_error List.length Nat.eqb].
    destruct (parse_channel d1 d1 Hd Hd) as (v1 & -> & Ht1 & Hr1).
    destruct (parse_channel d2 d2 Hd0 Hd0) as (v2 & -> & Ht2 & Hr2).
    destruct (parse_channel d3 d3 Hd1 Hd1) as (v3 & -> & Ht3 & Hr3).
    destruct (parse_channel d4 d4 Hd2 Hd2) as (v4 & -> & Ht4 & _).
    eexists. split; [reflexivity|]. split; [cbn [r g b]; tauto|].
    cbn [r g b a formatHexColor]. rewrite round_alpha, Ht1, Ht2, Ht3, Ht4.
    cbn [toLowerCase flat_map]. now rewrite <- !app_assoc, ?app_nil_r.
  - unfold parseLongHex. cbn [slice skipn firstn Nat.sub List.length Nat.eqb].
    destruct (parse_channel d1 d2 Hd Hd0) as (v1 & -> & Ht1 & Hr1).
    destruct (parse_channel d3 d4 Hd1 Hd2) as (v2 & -> & Ht2 & Hr2).
    destruct (parse_channel d5 d6 Hd3 Hd4) as (v3 & -> & Ht3 & Hr3).
    eexists. split; [reflexivity|]. split; [cbn [r g b]; tauto|].
    cbn [r g b a formatHexColor]. rewrite Ht1, Ht2, Ht3.
    cbn [toLowerCase flat_map]. now rewrite <- !app_assoc, ?app_nil_r.
  - unfold parseLongHex. cbn [slice skipn firstn Nat.sub List.length Nat.eqb].
    destruct (parse_channel d1 d2 Hd Hd0) as (v1 & -> & Ht1 & Hr1).
    destruct (parse_channel d3 d4 Hd1 Hd2) as (v2 & -> & Ht2 & Hr2).
    destruct (parse_channel d5 d6 Hd3 Hd4) as (v3 & -> & Ht3 & Hr3).
    destruct (parse_channel d7 d8 Hd5 Hd6) as (v4 & -> & Ht4 & _).
    eexists. split; [reflexivity|]. split; [cbn [r g b]; tauto|].
    cbn [r g b a formatHexColor]. rewrite round_alpha, Ht1, Ht2, Ht3, Ht4.
    cbn [toLowerCase flat_map]. now rewrite <- !app_assoc, ?app_nil_r.
Qed.

(** C3, as the code has it. Parsing a valid hex colour and formatting it
    with the alpha channel kept exactly when the text had one gives the
    lower case of the expanded text: of the text itself for six and eight
    digits, of the text with every digit doubled for three and four. *)
Theorem round_trip_gives_expanded_lower_case (x : str) :
  HEX_COLOR_PATTERN x = true -> roundTrip x = Some (toLowerCase (expandedForm x)).
Proof.
  intros Hhex. destruct (parse_valid_hex x Hhex) as (color & Hparse & _ & Hformat).
  unfold roundTrip. now rewrite Hparse, Hformat.
Qed.

Lemma round_trip_gives_expanded_lower_case_witness :
  roundTrip (u "#AbCdEf80") = Some (u "#abcdef80").
Proof.
  apply (round_trip_gives_expanded_lower_case (u "#AbCdEf80")). reflexivity.
Defined.

(** C3 as stated fails on the short forms: three digits come back as six. *)
Lemma short_hex_round_trip_differs :
  HEX_COLOR_PATTERN (u "#abc") = true
  /\ roundTrip (u "#abc") = Some (u "#aabbcc")
  /\ toLowerCase (u "#aabbcc") <> toLowerCase (u "#abc").
Proof.
  split; [reflexivity|]. split; [reflexivity|]. discriminate.
Qed.

Open Scope Q_scope.

Lemma unit_channel (v : Z) :
  (0 <= v <= 255)%Z -> 0 <= inject_Z v / 255 /\ inject_Z v / 255 <= 1.
Proof.
  intros [Hlo Hhi]. unfold Qdiv, Qmult, Qle, Qinv, inject_Z. cbn. lia.
Qed.

Lemma saturation_nonneg (color : Rgba) :
  channelInRange color -> 0 <= s (rgbToHsl color).
Proof.
  intros (Hr & Hg & Hb). unfold rgbToHsl. cbn [s].
  destruct (unit_channel _ Hr) as [Hr0 Hr1].
  destruct (unit_channel _ Hg) as [Hg0 Hg1].
  destruct (unit_channel _ Hb) as [Hb0 Hb1].
  set (rq := inject_Z (r color) / 255) in *.
  set (gq := inject_Z (g color) / 255) in *.
  set (bq := inject_Z (b color) / 255) in *.
  set (max := Qmax (Qmax rq gq) bq). set (min := Qmin (Qmin rq gq) bq).
  destruct (Qeq_bool (max - min) 0); [apply Qle_refl|].
  assert (0 <= min) as Hmin0 by (unfold min; repeat apply Q.min_glb; assumption).
  assert (max <= 1) as Hmax1 by (unfold max; repeat apply Q.max_lub; assumption).
  assert (min <= max) as Hle.
  { unfold min, max. apply Qle_trans with bq; [apply Q.le_min_r|apply Q.le_max_r]. }
  clearbody max min.
  assert (Qabs (2 * ((max + min) / 2) - 1) <= 1) as Habs.
  { setoid_replace (2 * ((max + min) / 2) - 1) with (max + min - 1) by field.
    apply Qabs_Qle_condition. split; lra. }
  set (t := Qabs (2 * ((max + min) / 2) - 1)) in *. clearbody t.
  apply Qmult_le_0_compat; [lra|].
  apply Qinv_le_0_compat. lra.
Qed.

Lemma clamp_monotone (x y lo hi : Q) : x <= y -> clamp x lo hi <= clamp y lo hi.
Proof.
  intros Hxy. unfold clamp.
  apply Q.min_le_compat_r. now apply Q.max_le_compat_r.
Qed.

Lemma inactive_monotone (parsed : Rgba) (r1 r2 : Q) :
  0 <= s (rgbToHsl parsed) -> r1 <= r2 ->
  l (inactiveHsla parsed r1) <= l (inactiveHsla parsed r2)
  /\ s (inactiveHsla parsed r2) <= s (inactiveHsla parsed r1).
Proof.
  intros Hs Hr. unfold inactiveHsla. cbn [s l]. split.
  - apply clamp_monotone. lra.
  - apply clamp_monotone. set (sat := s (rgbToHsl parsed)) in *. nra.
Qed.

Lemma hex_is_not_none (x : str) :
  HEX_COLOR_PATTERN x = true -> streq (toLowerCase (trim x)) NONE = false.
Proof.
  intros Hhex. destruct x as [|hash digits]; [discriminate|].
  cbn [HEX_COLOR_PATTERN] in Hhex.
  apply andb_true_iff in Hhex as [Hhex _].
  apply andb_true_iff in Hhex as [Hhash Hall].
  apply N.eqb_eq in Hhash. subst hash.
  now rewrite (trim_hex _ Hall).
Qed.

(** C5. For a valid hex colour and two mix ratios, the smaller first, the
    HSL value from which [createInactiveColor] builds its result has at the
    larger ratio a lightness that is not smaller and a saturation that is
    not larger. *)
Theorem inactive_color_is_monotone (color : str) (r1 r2 : Q) :
  HEX_COLOR_PATTERN color = true ->
  r1 <= r2 ->
  exists parsed,
    parseHexColor color = Ok (Some parsed)
    /\ (forall ratio,
          createInactiveColor color ratio
          = Ok (Some (formatHexColor (hslToRgb (inactiveHsla parsed (clamp ratio 0 1)))
                        (hasExplicitAlpha color))))
    /\ l (inactiveHsla parsed (clamp r1 0 1)) <= l (inactiveHsla parsed (clamp r2 0 1))
    /\ s (inactiveHsla parsed (clamp r2 0 1)) <= s (inactiveHsla parsed (clamp r1 0 1)).
Proof.
  intros Hhex Hr.
  destruct (parse_valid_hex color Hhex) as (parsed & Hparse & Hrange & _).
  exists parsed. split; [assumption|]. split.
  - intros ratio. unfold createInactiveColor.
    now rewrite (hex_is_not_none _ Hhex), Hparse.
  - apply inactive_monotone; [now apply saturation_nonneg|].
    now apply clamp_monotone.
Qed.

Lemma inactive_color_is_monotone_witness :
  exists parsed,
    parseHexColor (u "#336699") = Ok (Some parsed)
    /\ (forall ratio,
          createInactiveColor (u "#336699") ratio
          = Ok (Some (formatHexColor (hslToRgb (inactiveHsla parsed (clamp ratio 0 1)))
                        (hasExplicitAlpha (u "#336699")))))
    /\ l (inactiveHsla parsed (clamp (1 # 4) 0 1))
       <= l (inactiveHsla parsed (clamp (3 # 4) 0 1))
    /\ s (inactiveHsla parsed (clamp (3 # 4) 0 1))
       <= s (inactiveHsla parsed (clamp (1 # 4) 0 1)).
Proof.
  apply (inactive_color_is_monotone (u "#336699") (1 # 4) (3 # 4)).
  - reflexivity.
  - unfold Qle. simpl. lia.
Defined.

Close Scope Q_scope.

(** ** Scanning *)

Section ScanFacts.
Variable matchAt : str -> option (nat * str).

Lemma scanFrom_skipn (k : nat) (s : str) :
  scanFrom matchAt k s = replaceAll matchAt (skipn k s).
Proof.
  revert k. induction s as [|c t IH]; intros [|k]; try reflexivity.
  cbn [scanFrom skipn]. apply IH.
Qed.

Lemma replaceAll_nil : replaceAll matchAt [] = [].
Proof. reflexivity. Qed.

Lemma replaceAll_miss (c : N) (t : str) :
  matchAt (c :: t) = None ->
  replaceAll matchAt (c :: t) = c :: replaceAll matchAt t.
Proof. intros Hnone. unfold replaceAll. cbn [scanFrom]. now rewrite Hnone. Qed.

Lemma replaceAll_hit (s : str) (len : nat) (repl : str) :
  matchAt s = Some (len, repl) -> (1 <= len)%nat -> s <> [] ->
  replaceAll matchAt s = repl ++ replaceAll matchAt (skipn len s).
Proof.
  intros Hsome Hlen Hs. destruct s as [|c t]; [congruence|].
  unfold replaceAll at 1. cbn [scanFrom]. rewrite Hsome, scanFrom_skipn.
  destruct len as [|len]; [lia|]. reflexivity.
Qed.

(** A stretch of text in which no match starts is copied. *)
Lemma replaceAll_inert (pre rest : str) :
  (forall a b, pre = a ++ b -> b <> [] -> matchAt (b ++ rest) = None) ->
  replaceAll matchAt (pre ++ rest) = pre ++ replaceAll matchAt rest.
Proof.
  induction pre as [|c pre IH]; intros Hinert; [reflexivity|].
  cbn [app]. rewrite replaceAll_miss.
  - f_equal. apply IH. intros a b -> Hb. apply (Hinert (c :: a) b); auto.
  - apply (Hinert [] (c :: pre)); [reflexivity|discriminate].
Qed.

Lemma replaceAll_no_match (s : str) :
  (forall a b, s = a ++ b -> matchAt b = None) -> replaceAll matchAt s = s.
Proof.
  intros Hnone. rewrite <- (app_nil_r s) at 1.
  rewrite replaceAll_inert; [now rewrite app_nil_r|].
  intros a b -> _. rewrite app_nil_r. now apply (Hnone a).
Qed.

End ScanFacts.

(** ** Text *)

Lemma free_app (stop : N -> bool) (a b : str) :
  free stop (a ++ b) = free stop a && free stop b.
Proof. apply forallb_app. Qed.

Lemma span_spec (stop : N -> bool) (s a b : str) :
  span stop s = (a, b) ->
  s = a ++ b /\ free stop a = true
  /\ match b with c :: _ => stop c = true | [] => True end.
Proof.
  revert a b. induction s as [|c t IH]; intros a b; cbn [span].
  - intros [= <- <-]. repeat split.
  - destruct (stop c) eqn:Hc.
    + intros [= <- <-]. repeat split. assumption.
    + destruct (span stop t) as [a' b'] eqn:Ht. intros [= <- <-].
      destruct (IH a' b' eq_refl) as (-> & Hfree & Hb).
      repeat split; [|assumption]. cbn. now rewrite Hc.
Qed.

Lemma span_stop (stop : N -> bool) (a : str) (c : N) (rest : str) :
  free stop a = true -> stop c = true ->
  span stop (a ++ c :: rest) = (a, c :: rest).
Proof.
  intros Hfree Hc. induction a as [|x a IH]; cbn [app span].
  - now rewrite Hc.
  - cbn in Hfree. apply andb_true_iff in Hfree as [Hx Hfree].
    apply negb_true_iff in Hx. rewrite Hx. now rewrite (IH Hfree).
Qed.

Lemma span_free (stop : N -> bool) (a : str) :
  free stop a = true -> span stop a = (a, []).
Proof.
  intros Hfree. induction a as [|x a IH]; [reflexivity|].
  cbn in Hfree. apply andb_true_iff in Hfree as [Hx Hfree].
  apply negb_true_iff in Hx. cbn [span]. now rewrite Hx, (IH Hfree).
Qed.

Lemma free_notSpace (ws : str) : free notSpace ws = forallb isSpace ws.
Proof.
  unfold free, notSpace. induction ws as [|c ws IH]; [reflexivity|].
  cbn. now rewrite negb_involutive, IH.
Qed.

Lemma stripPrefixCI_spec (pat s m rest : str) :
  stripPrefixCI pat s = Some (m, rest) ->
  s = m ++ rest /\ List.length m = List.length pat
  /\ stripPrefixCI pat m = Some (m, []).
Proof.
  revert s m rest. induction pat as [|p pat IH]; intros s m rest; cbn [stripPrefixCI].
  - intros [= <- <-]. repeat split.
  - destruct s as [|c s]; [discriminate|].
    destruct (ciEq p c) eqn:Hc; [|discriminate].
    destruct (stripPrefixCI pat s) as [[m' r']|] eqn:Hs; [|discriminate].
    intros [= <- <-]. destruct (IH _ _ _ Hs) as (-> & Hlen & Hm).
    repeat split; [cbn; now rewrite Hlen|].
    cbn [stripPrefixCI]. now rewrite Hc, Hm.
Qed.

Lemma stripPrefixCI_app (pat m rest : str) :
  stripPrefixCI pat m = Some (m, []) ->
  stripPrefixCI pat (m ++ rest) = Some (m, rest).
Proof.
  revert m. induction pat as [|p pat IH]; intros m; cbn [stripPrefixCI].
  - destruct m; [reflexivity|discriminate].
  - destruct m as [|c m]; [discriminate|]. cbn [app].
    destruct (ciEq p c); [|discriminate].
    destruct (stripPrefixCI pat m) as [[m' r']|] eqn:Hm; [|discriminate].
    intros [= -> ->]. now rewrite (IH _ Hm).
Qed.

(** A code unit that no character of the pattern folds to does not occur
    in the text the pattern matched. *)
Lemma stripPrefixCI_avoids (pat m : str) (bad : N -> bool) :
  stripPrefixCI pat m = Some (m, []) ->
  (forall p c, In p pat -> ciEq p c = true -> bad c = false) ->
  free bad m = true.
Proof.
  revert m. induction pat as [|p pat IH]; intros m; cbn [stripPrefixCI].
  - destruct m; [reflexivity|discriminate].
  - destruct m as [|c m]; [discriminate|].
    destruct (ciEq p c) eqn:Hc; [|discriminate].
    destruct (stripPrefixCI pat m) as [[m' r']|] eqn:Hm; [|discriminate].
    intros [= -> ->] Hbad. cbn. rewrite (Hbad p c); [|now left|assumption].
    apply IH; [assumption|]. intros p' c' Hin. apply Hbad. now right.
Qed.

Lemma startsCI_long (pat a rest : str) :
  (List.length pat <= List.length a)%nat ->
  startsCI pat (a ++ rest) = startsCI pat a.
Proof.
  unfold startsCI. revert a. induction pat as [|p pat IH]; intros a Hlen.
  - reflexivity.
  - destruct a as [|c a]; [cbn in Hlen; lia|]. cbn [app stripPrefixCI].
    destruct (ciEq p c); [|reflexivity].
    cbn in Hlen. specialize (IH a ltac:(lia)).
    destruct (stripPrefixCI pat (a ++ rest)) as [[? ?]|],
             (stripPrefixCI pat a) as [[? ?]|]; congruence.
Qed.

(** When the pattern starts in [a] and ends behind it, the code unit behind
    [a] is matched by a character of the pattern other than the first. *)
Lemma startsCI_straddle (pat a : str) (x : N) (rest : str) :
  a <> [] -> (List.length a < List.length pat)%nat ->
  startsCI pat (a ++ x :: rest) = true ->
  existsb (fun p => ciEq p x) (tl pat) = true.
Proof.
  unfold startsCI. revert a. induction pat as [|p pat IH]; intros a Ha Hlen.
  - cbn in Hlen. lia.
  - destruct a as [|c a]; [congruence|]. cbn [app stripPrefixCI tl].
    destruct (ciEq p c); [|discriminate].
    destruct a as [|c' a].
    + cbn [app]. destruct pat as [|p' pat]; [cbn in Hlen; lia|].
      cbn [stripPrefixCI existsb]. destruct (ciEq p' x); [reflexivity|discriminate].
    + intros Hs. destruct pat as [|p' pat]; [cbn in Hlen; lia|].
      cbn [existsb]. apply orb_true_iff. right.
      apply (IH (c' :: a)); [discriminate|cbn in *; lia|].
      destruct (stripPrefixCI (p' :: pat) ((c' :: a) ++ x :: rest)); [reflexivity|discriminate].
Qed.

Lemma findSubCI_none (pat a b : str) :
  findSubCI pat (a ++ b) = None -> startsCI pat b = false.
Proof.
  unfold startsCI. induction a as [|c a IH]; cbn [app].
  - destruct b as [|x b]; cbn [findSubCI];
      destruct (stripPrefixCI pat _) as [[? ?]|]; try discriminate; reflexivity.
  - cbn [findSubCI]. destruct (stripPrefixCI pat (c :: a ++ b)) as [[? ?]|]; [discriminate|].
    destruct (findSubCI pat (a ++ b)) as [[[? ?] ?]|]; [discriminate|]. auto.
Qed.


(** A word absent from [pre] does not start in [pre], whatever follows,
    provided the code unit that follows is none of the word's later
    characters. *)
Lemma absent_word_does_not_start (word pre a b : str) (x : N) (rest : str) :
  findSubCI word pre = None ->
  pre = a ++ b -> b <> [] ->
  existsb (fun p => ciEq p x) (tl word) = false ->
  startsCI word (b ++ x :: rest) = false.
Proof.
  intros Habsent -> Hb Hx.
  destruct (Nat.le_gt_cases (List.length word) (List.length b)) as [Hlong|Hshort].
  - rewrite startsCI_long by assumption. now apply (findSubCI_none word a b).
  - destruct (startsCI word (b ++ x :: rest)) eqn:Hs; [|reflexivity].
    rewrite (startsCI_straddle word b x rest Hb Hshort Hs) in Hx. discriminate.
Qed.

(** ** The attribute pattern *)

Lemma attributePattern_sound (property : Property) (s prefix value : str) :
  attributePattern property s = Some (prefix, value) ->
  exists a rest,
    prefix = a ++ [QUOTE] /\ isOpener property a
    /\ s = a ++ QUOTE :: value ++ QUOTE :: rest
    /\ free valueStop value = true.
Proof.
  unfold attributePattern.
  destruct (stripPrefixCI (propertyName property) s) as [[name s1]|] eqn:Hname;
    [|discriminate].
  destruct (stripPrefixCI_spec _ _ _ _ Hname) as (-> & _ & Hname').
  destruct (span notSpace s1) as [ws1 s2] eqn:Hws1.
  destruct (span_spec _ _ _ _ Hws1) as (-> & Hfree1 & _).
  destruct s2 as [|e s3]; [discriminate|].
  destruct (e =? EQUALS) eqn:He; [|discriminate]. apply N.eqb_eq in He. subst e.
  destruct (span notSpace s3) as [ws2 s4] eqn:Hws2.
  destruct (span_spec _ _ _ _ Hws2) as (-> & Hfree2 & _).
  destruct s4 as [|q s5]; [discriminate|].
  destruct (q =? QUOTE) eqn:Hq; [|discriminate]. apply N.eqb_eq in Hq. subst q.
  destruct (span _ s5) as [v s6] eqn:Hv.
  destruct (span_spec _ _ _ _ Hv) as (-> & Hfreev & _).
  destruct s6 as [|q' s7]; [discriminate|].
  destruct (q' =? QUOTE) eqn:Hq'; [|discriminate]. apply N.eqb_eq in Hq'. subst q'.
  intros [= <- <-].
  exists (name ++ ws1 ++ EQUALS :: ws2), s7. repeat split.
  - now rewrite <- !app_assoc.
  - exists name, ws1, ws2. rewrite free_notSpace in Hfree1, Hfree2. now repeat split.
  - now rewrite <- !app_assoc.
  - exact Hfreev.
Qed.

Lemma attributePattern_complete (property : Property) (a value rest : str) :
  isOpener property a -> free valueStop value = true ->
  attributePattern property (a ++ QUOTE :: value ++ QUOTE :: rest)
  = Some (a ++ [QUOTE], value).
Proof.
  intros (name & ws1 & ws2 & -> & Hname & Hws1 & Hws2) Hvalue.
  unfold attributePattern. rewrite <- !app_assoc.
  rewrite (stripPrefixCI_app _ _ _ Hname). cbn [app].
  rewrite span_stop; [|now rewrite free_notSpace|reflexivity].
  change (EQUALS =? EQUALS) with true. cbv iota.
  rewrite span_stop; [|now rewrite free_notSpace|reflexivity].
  change (QUOTE =? QUOTE) with true. cbv iota.
  rewrite (span_stop (fun c => (c =? QUOTE) || isLineTerminator c) value QUOTE rest
             Hvalue eq_refl).
  change (QUOTE =? QUOTE) with true. cbv iota.
  reflexivity.
Qed.


Lemma ciEq_letter_cases (p c : N) :
  ciEq p c = true -> ((97 <=? p) && (p <=? 122) = true) ->
  c = p \/ c = p - 32.
Proof.
  unfold ciEq, canon. intros Heq Hp. rewrite Hp in Heq.
  apply andb_true_iff in Hp as [Hlo Hhi]. apply N.leb_le in Hlo, Hhi.
  destruct ((97 <=? c) && (c <=? 122)) eqn:Hc; apply N.eqb_eq in Heq.
  - apply andb_true_iff in Hc as [Hclo Hchi]. apply N.leb_le in Hclo, Hchi. lia.
  - right. lia.
Qed.





(** ** Colour tokens *)

Lemma validColor_cases (color : str) :
  validColor color -> color = NONE \/ HEX_COLOR_PATTERN color = true.
Proof.
  unfold validColor, validateColorInput. cbv zeta.
  destruct (streq (toLowerCase (trim color)) NONE).
  - intros [= <-]. now left.
  - destruct (HEX_COLOR_PATTERN (trim color)) eqn:Hhex; [|discriminate].
    intros [= Htrim]. rewrite Htrim in Hhex. now right.
Qed.

Lemma validColor_chars (color : str) :
  validColor color -> forallb isColorChar color = true.
Proof.
  intros Hvalid. destruct (validColor_cases _ Hvalid) as [-> | Hhex]; [reflexivity|].
  destruct color as [|hash digits]; [discriminate|].
  cbn [HEX_COLOR_PATTERN] in Hhex.
  apply andb_true_iff in Hhex as [Hhex _].
  apply andb_true_iff in Hhex as [Hhash Hall].
  cbn [forallb]. unfold isColorChar at 1. rewrite Hhash. cbn [orb andb].
  rewrite forallb_forall in *. intros c Hc. unfold isColorChar.
  now rewrite (Hall c Hc), orb_true_r.
Qed.

Lemma isColorChar_bound (c : N) : isColorChar c = true -> (N.to_nat c < 112)%nat.
Proof.
  unfold isColorChar, isHexDigit.
  rewrite !orb_true_iff, !andb_true_iff, !N.leb_le, !N.eqb_eq.
  unfold HASH. lia.
Qed.

Lemma colorCharOk_all (c : N) : isColorChar c = true ->
  isSpace c = false /\ valueStop c = false /\ ciEq 115 c = false
  /\ ciEq LT c = false /\ (c =? GT) = false /\ (c =? DOLLAR) = false
  /\ (c =? SEMI) = false /\ (c =? COLON) = false /\ (c =? RBRACE) = false.
Proof.
  intros Hc.
  pose proof (below_cases colorCharOk 112 eq_refl c (isColorChar_bound c Hc)) as Hok.
  unfold colorCharOk in Hok. rewrite Hc in Hok. cbn [implb] in Hok.
  rewrite !andb_true_iff, !negb_true_iff in Hok. tauto.
Qed.

Lemma color_free (color : str) (bad : N -> bool) :
  validColor color ->
  (forall c, isColorChar c = true -> bad c = false) ->
  free bad color = true.
Proof.
  intros Hvalid Hbad. pose proof (validColor_chars _ Hvalid) as Hchars.
  unfold free. rewrite forallb_forall in *. intros c Hc.
  now rewrite (Hbad c (Hchars c Hc)).
Qed.

(** ** Reaching an occurrence of fill none *)










(** ** Idempotence of the attribute pass *)







Section AttributePass.
Variable property : Property.
Variable color : str.
Variable preserveNone : bool.
Hypothesis Hcolor : validColor color.

Let matchAt := attributeMatchAt property color preserveNone.

Lemma color_is_value : free valueStop color = true.
Proof.
  apply (color_free color valueStop Hcolor). intros c Hc.
  apply (colorCharOk_all c Hc).
Qed.

(** What a match of the attribute pass looks like. *)
Lemma attributeMatchAt_sound (s : str) (len : nat) (repl : str) :
  matchAt s = Some (len, repl) ->
  exists a value value' rest,
    isOpener property a /\ free valueStop value = true
    /\ free valueStop value' = true
    /\ (value' = value \/ value' = color)
    /\ s = a ++ QUOTE :: value ++ QUOTE :: rest
    /\ repl = a ++ QUOTE :: value' ++ [QUOTE]
    /\ len = List.length (a ++ QUOTE :: value ++ [QUOTE])
    /\ skipn len s = rest
    /\ forall rest', matchAt (repl ++ rest') = Some (List.length repl, repl).
Proof.
  unfold matchAt, attributeMatchAt.
  destruct (attributePattern property s) as [[prefix value]|] eqn:Hpattern;
    [|discriminate].
  destruct (attributePattern_sound _ _ _ _ Hpattern)
    as (a & rest & -> & Hopener & -> & Hvalue).
  intros [= <- <-].
  set (value' := if keepsNone preserveNone (toLowerCase (trim value))
                      (toLowerCase (trim color)) then value else color).
  assert (attributeCallback color preserveNone (a ++ [QUOTE]) value
          = a ++ QUOTE :: value' ++ [QUOTE]) as Hrepl.
  { unfold attributeCallback, value'.
    destruct (keepsNone _ _ _); now rewrite <- app_assoc. }
  assert (free valueStop value' = true) as Hvalue'.
  { unfold value'. destruct (keepsNone _ _ _); [assumption|apply color_is_value]. }
  exists a, value, value', rest. repeat split; try assumption.
  - unfold value'. destruct (keepsNone _ _ _); auto.
  - rewrite !length_app. cbn [List.length]. rewrite length_app. cbn [List.length]. lia.
  - replace (S (List.length (a ++ [QUOTE]) + List.length value))
      with (List.length (a ++ QUOTE :: value ++ [QUOTE])).
    + replace (a ++ QUOTE :: value ++ QUOTE :: rest)
        with ((a ++ QUOTE :: value ++ [QUOTE]) ++ rest).
      * now rewrite skipn_app, skipn_all, Nat.sub_diag.
      * rewrite <- app_assoc. cbn [app]. now rewrite <- app_assoc.
    + rewrite !length_app. cbn [List.length]. rewrite length_app. cbn [List.length]. lia.
  - intros rest'. rewrite Hrepl.
    replace ((a ++ QUOTE :: value' ++ [QUOTE]) ++ rest')
      with (a ++ QUOTE :: value' ++ QUOTE :: rest').
    2:{ rewrite <- app_assoc. cbn [app]. now rewrite <- app_assoc. }
    rewrite (attributePattern_complete property a value' rest' Hopener Hvalue').
    f_equal. f_equal.
    + rewrite !length_app. cbn [List.length]. rewrite length_app. cbn [List.length]. lia.
    + unfold attributeCallback, value'.
      destruct (keepsNone preserveNone (toLowerCase (trim value))
                  (toLowerCase (trim color))) eqn:Hkeep.
      * rewrite Hkeep. now rewrite <- app_assoc.
      * assert (keepsNone preserveNone (toLowerCase (trim color))
                  (toLowerCase (trim color)) = false) as ->.
        { unfold keepsNone. destruct preserveNone; [|reflexivity].
          cbn [andb]. now destruct (streq (toLowerCase (trim color)) NONE). }
        now rewrite <- app_assoc.
Qed.








End AttributePass.

(** ** Trimming, splitting and joining *)

Lemma dropWhile_suffix (p : N -> bool) (s : str) :
  exists front, s = front ++ dropWhile p s.
Proof.
  induction s as [|c s [front IH]]; [now exists []|].
  cbn [dropWhile]. destruct (p c).
  - exists (c :: front). cbn. now rewrite <- IH.
  - now exists [].
Qed.

Lemma dropWhile_stops (p : N -> bool) (s : str) :
  match dropWhile p s with c :: _ => p c = false | [] => True end.
Proof.
  induction s as [|c s IH]; [exact I|]. cbn [dropWhile].
  destruct (p c) eqn:Hc; [exact IH|exact Hc].
Qed.




Lemma last_rev_cons (c : N) (s : str) : last (rev (c :: s)) 0 = c.
Proof. cbn [rev]. apply last_last. Qed.

Lemma hd_rev_last (s : str) (c : N) (t : str) :
  rev s = c :: t -> last s 0 = c.
Proof.
  intros Hrev. rewrite <- (rev_involutive s), Hrev. apply last_rev_cons.
Qed.

Lemma trim_is_trimmed (s : str) : isTrimmed (trim s) = true.
Proof.
  unfold trim, trimEnd, trimStart.
  set (t := dropWhile isSpace s).
  pose proof (dropWhile_stops isSpace s) as Hhead. fold t in Hhead.
  pose proof (dropWhile_stops isSpace (rev t)) as Hlast.
  destruct (dropWhile_suffix isSpace (rev t)) as [front Hfront].
  set (v := dropWhile isSpace (rev t)) in *.
  destruct v as [|c v']; [reflexivity|].
  assert (t = rev (c :: v') ++ rev front) as Ht.
  { rewrite <- rev_app_distr, <- Hfront. now rewrite rev_involutive. }
  unfold isTrimmed.
  destruct (rev (c :: v')) as [|x w] eqn:Hrev.
  { apply (f_equal (@List.length N)) in Hrev. rewrite length_rev in Hrev. discriminate. }
  assert (last (x :: w) 0 = c) as -> by (rewrite <- Hrev; apply last_rev_cons).
  rewrite Hlast. rewrite Ht in Hhead. cbn in Hhead. now rewrite Hhead.
Qed.

Lemma trim_of_trimmed (s : str) : isTrimmed s = true -> trim s = s.
Proof.
  destruct s as [|c s]; [reflexivity|].
  unfold isTrimmed. intros H. apply andb_true_iff in H as [Hhead Hlast].
  apply negb_true_iff in Hhead, Hlast.
  unfold trim, trimStart, trimEnd. cbn [dropWhile]. rewrite Hhead.
  rewrite dropWhile_head; [apply rev_involutive|].
  destruct (rev (c :: s)) as [|x w] eqn:Hrev; [exact I|].
  now rewrite <- (hd_rev_last _ _ _ Hrev).
Qed.

Lemma trim_idempotent (s : str) : trim (trim s) = trim s.
Proof. apply trim_of_trimmed, trim_is_trimmed. Qed.


Lemma last_behind (a : str) (y : N) (b : str) :
  last (a ++ y :: b) 0 = last (y :: b) 0.
Proof.
  induction a as [|x a IH]; [reflexivity|].
  cbn [app]. rewrite <- IH. cbn [last]. now destruct (a ++ y :: b) eqn:H; 
    [destruct a; discriminate|].
Qed.









Lemma last_in (s : str) : s <> [] -> In (last s 0) s.
Proof.
  induction s as [|c s IH]; [congruence|]. intros _.
  destruct s as [|d s]; [now left|]. right. apply IH. discriminate.
Qed.

(** ** Declarations of an inline style *)





Section Declarations.
Variable property : Property.
Variable color : str.
Variable preserveNone : bool.
Hypothesis Hcolor : validColor color.













End Declarations.

(** ** The inline style pattern *)

Lemma styleAttributePattern_sound (s opening body : str) :
  styleAttributePattern s = Some (opening, body) ->
  exists rest,
    s = opening ++ body ++ QUOTE :: rest
    /\ isStyleOpening opening /\ free isQuote body = true.
Proof.
  unfold styleAttributePattern. fold styleLiteral.
  destruct (stripPrefixCI styleLiteral s) as [[o s1]|] eqn:Hstrip; [|discriminate].
  destruct (stripPrefixCI_spec _ _ _ _ Hstrip) as (-> & _ & Hopening).
  destruct (span (fun c => c =? QUOTE) s1) as [bd s2] eqn:Hspan.
  destruct (span_spec _ _ _ _ Hspan) as (-> & Hfree & Hstop).
  destruct s2 as [|q rest]; [discriminate|]. intros [= <- <-].
  apply N.eqb_eq in Hstop. subst q. exists rest. now repeat split.
Qed.





Section StylePass.
Variable property : Property.
Variable color : str.
Variable preserveNone : bool.
Hypothesis Hcolor : validColor color.

Let matchAt := styleAttributeMatchAt property color preserveNone.

















End StylePass.

(** ** Fill and stroke in inline styles *)

Lemma streq_refl (x : str) : streq x x = true.
Proof. induction x as [|c x IH]; [reflexivity|]. cbn. now rewrite N.eqb_refl. Qed.



Section TwoRequests.
Variables p1 p2 : Property.
Variables color1 color2 : str.
Variables pn1 pn2 : bool.
Hypothesis Hdiff : p1 <> p2.
Hypothesis Hcolor1 : validColor color1.
Hypothesis Hcolor2 : validColor color2.


End TwoRequests.

Section TwoStylePasses.
Variables p1 p2 : Property.
Variables color1 color2 : str.
Variables pn1 pn2 : bool.
Hypothesis Hdiff : p1 <> p2.
Hypothesis Hcolor1 : validColor color1.
Hypothesis Hcolor2 : validColor color2.






End TwoStylePasses.




(** ** The text of numbers *)

Lemma forallb_app_intro (p : N -> bool) (a b : str) :
  forallb p a = true -> forallb p b = true -> forallb p (a ++ b) = true.
Proof. intros Ha Hb. now rewrite forallb_app, Ha, Hb. Qed.

Lemma decDigits_chars (fuel : nat) (n : N) : forallb isNumberChar (decDigits fuel n) = true.
Proof.
  revert n. induction fuel as [|fuel IH]; intros n; [reflexivity|].
  cbn [decDigits]. destruct (n <? 10) eqn:Hn.
  - apply N.ltb_lt in Hn. cbn [forallb]. rewrite andb_true_r.
    unfold isNumberChar, isDigit.
    replace ((48 <=? 48 + n) && (48 + n <=? 57)) with true; [reflexivity|].
    symmetry. apply andb_true_iff. split; apply N.leb_le; lia.
  - apply forallb_app_intro; [apply IH|]. cbn [forallb]. rewrite andb_true_r.
    unfold isNumberChar, isDigit.
    pose proof (N.mod_lt n 10 ltac:(lia)) as Hmod.
    replace ((48 <=? 48 + n mod 10) && (48 + n mod 10 <=? 57)) with true; [reflexivity|].
    set (m := n mod 10) in *. clearbody m.
    symmetry. apply andb_true_iff. split; apply N.leb_le; lia.
Qed.

Lemma fractionDigits_chars (fuel : nat) (num den : N) :
  num < den -> forallb isNumberChar (fractionDigits fuel num den) = true.
Proof.
  revert num. induction fuel as [|fuel IH]; intros num Hlt; [reflexivity|].
  cbn [fractionDigits]. destruct (num =? 0); [reflexivity|].
  cbn [forallb]. rewrite IH by (apply N.mod_lt; lia). rewrite andb_true_r.
  assert (10 * num / den < 10) as Hdigit.
  { apply N.Div0.div_lt_upper_bound. lia. }
  unfold isNumberChar, isDigit.
  replace ((48 <=? 48 + 10 * num / den) && (48 + 10 * num / den <=? 57)) with true;
    [reflexivity|].
  set (m := 10 * num / den) in *. clearbody m.
  symmetry. apply andb_true_iff. split; apply N.leb_le; lia.
Qed.

Lemma sign_chars (negative : bool) :
  forallb isNumberChar (if negative then [MINUS] else []) = true.
Proof. now destruct negative. Qed.

Lemma numberToString_chars (x : number) : forallb isNumberChar (numberToString x) = true.
Proof.
  destruct x as [|negative|q]; [reflexivity|now destruct negative|].
  unfold numberToString.
  set (n := Z.to_N (Z.abs (Qnum q))). set (d := N.pos (Qden q)).
  pose proof (fractionDigits_chars 20 (n mod d) d (N.mod_lt n d ltac:(discriminate)))
    as Hfraction.
  destruct (fractionDigits 20 (n mod d) d) as [|c rest].
  - apply forallb_app_intro; [apply sign_chars|apply decDigits_chars].
  - apply forallb_app_intro; [apply sign_chars|].
    apply forallb_app_intro; [apply decDigits_chars|].
    now apply forallb_app_intro.
Qed.

Lemma forallb_firstn (p : N -> bool) (k : nat) (s : str) :
  forallb p s = true -> forallb p (firstn k s) = true.
Proof.
  intros H. rewrite <- (firstn_skipn k s), forallb_app in H.
  now apply andb_true_iff in H as [? _].
Qed.

Lemma forallb_skipn (p : N -> bool) (k : nat) (s : str) :
  forallb p s = true -> forallb p (skipn k s) = true.
Proof.
  intros H. rewrite <- (firstn_skipn k s), forallb_app in H.
  now apply andb_true_iff in H as [_ ?].
Qed.

Lemma forallb_rev (p : N -> bool) (s : str) : forallb p (rev s) = forallb p s.
Proof.
  induction s as [|c s IH]; [reflexivity|].
  cbn [rev]. rewrite forallb_app, IH. cbn. now rewrite andb_true_r, andb_comm.
Qed.

Lemma forallb_dropWhile (p q : N -> bool) (s : str) :
  forallb p s = true -> forallb p (dropWhile q s) = true.
Proof.
  intros H. destruct (dropWhile_suffix q s) as [front Hs].
  rewrite Hs, forallb_app in H. now apply andb_true_iff in H as [_ ?].
Qed.

Lemma toFixed_chars (digits : nat) (x : number) :
  forallb isNumberChar (toFixed digits x) = true.
Proof.
  destruct x as [|negative|q]; [reflexivity|now destruct negative|].
  unfold toFixed.
  set (text := decimal _).
  set (padded := repeat 48 (S digits - List.length text) ++ text).
  assert (forallb isNumberChar padded = true) as Hpadded.
  { apply forallb_app_intro; [|apply decDigits_chars].
    induction (S digits - List.length text)%nat; [reflexivity|]. cbn. assumption. }
  destruct digits as [|digits].
  - apply forallb_app_intro; [apply sign_chars|assumption].
  - apply forallb_app_intro; [apply sign_chars|].
    apply forallb_app_intro; [now apply forallb_firstn|].
    apply forallb_app_intro; [reflexivity|now apply forallb_skipn].
Qed.

Lemma formatNumber_chars (value : number) :
  forallb isNumberChar (formatNumber value) = true.
Proof.
  unfold formatNumber. destruct (isInteger value); [apply numberToString_chars|].
  unfold stripTrailingPoint, stripTrailingZeros.
  set (t := rev (dropWhile _ (rev (toFixed 4 value)))).
  assert (forallb isNumberChar t = true) as Ht.
  { unfold t. rewrite forallb_rev. apply forallb_dropWhile.
    rewrite forallb_rev. apply toFixed_chars. }
  destruct (rev t) as [|c rest] eqn:Hrev; [assumption|].
  destruct (c =? 46); [|assumption].
  rewrite <- forallb_rev, Hrev in Ht. cbn in Ht.
  apply andb_true_iff in Ht as [_ Ht]. now rewrite forallb_rev.
Qed.

Lemma number_chars_free (bad : N -> bool) (text : str) :
  (forall c, isNumberChar c = true -> bad c = false) ->
  forallb isNumberChar text = true -> free bad text = true.
Proof.
  intros Hbad Htext. unfold free. rewrite forallb_forall in *.
  intros c Hc. now rewrite (Hbad c (Htext c Hc)).
Qed.

Lemma isNumberChar_bound (c : N) : isNumberChar c = true -> (N.to_nat c < 122)%nat.
Proof.
  unfold isNumberChar, isDigit. cbn [existsb u List.map list_ascii_of_string].
  rewrite !orb_true_iff, !andb_true_iff, !N.leb_le, !N.eqb_eq.
  unfold MINUS. cbn. lia.
Qed.

Lemma number_char_is_plain (c : N) :
  isNumberChar c = true -> isGT c = false /\ isDollar c = false /\ isQuote c = false.
Proof.
  intros Hc.
  pose proof (below_cases
                (fun c => implb (isNumberChar c)
                            (negb (isGT c) && negb (isDollar c) && negb (isQuote c)))
                122 eq_refl c (isNumberChar_bound c Hc)) as Hok.
  cbv beta in Hok. rewrite Hc in Hok. cbn [implb] in Hok.
  rewrite !andb_true_iff, !negb_true_iff in Hok. tauto.
Qed.

(** ** Searching and substituting *)

Lemma getSubstitution_plain (before matched after template : str) :
  free isDollar template = true ->
  getSubstitution before matched after template = template.
Proof.
  induction template as [|c t IH]; [reflexivity|].
  cbn [free forallb]. intros H. apply andb_true_iff in H as [Hc Ht].
  apply negb_true_iff in Hc. unfold isDollar in Hc.
  cbn [getSubstitution]. rewrite Hc. f_equal. now apply IH.
Qed.

Lemma stripPrefix_spec (pat s rest : str) :
  stripPrefix pat s = Some rest -> s = pat ++ rest.
Proof.
  revert s. induction pat as [|p pat IH]; intros s; cbn [stripPrefix].
  - now intros [= ->].
  - destruct s as [|c s]; [discriminate|].
    destruct (p =? c) eqn:Hp; [|discriminate]. apply N.eqb_eq in Hp. subst c.
    intros H. cbn. f_equal. now apply IH.
Qed.

Lemma stripPrefix_app (pat rest : str) : stripPrefix pat (pat ++ rest) = Some rest.
Proof.
  induction pat as [|p pat IH]; [reflexivity|].
  cbn. now rewrite N.eqb_refl.
Qed.

Lemma findSub_spec (pat s before after : str) :
  findSub pat s = Some (before, after) -> s = before ++ pat ++ after.
Proof.
  revert before. induction s as [|c s IH]; intros before; cbn [findSub].
  - destruct (stripPrefix pat []) as [r|] eqn:Hstrip; [|discriminate].
    intros [= <- <-]. cbn [app]. now apply stripPrefix_spec.
  - destruct (stripPrefix pat (c :: s)) as [r|] eqn:Hstrip.
    + intros [= <- <-]. cbn [app]. now apply stripPrefix_spec.
    + destruct (findSub pat s) as [[b a]|]; [|discriminate].
      intros [= <- <-]. cbn. f_equal. now apply IH.
Qed.

Lemma findSub_found (pat front rest : str) :
  findSub pat (front ++ pat ++ rest) <> None.
Proof.
  induction front as [|c front IH]; cbn [app].
  - destruct (pat ++ rest) as [|c s] eqn:Hs; cbn [findSub]; rewrite <- Hs;
      now rewrite stripPrefix_app.
  - cbn [findSub]. destruct (stripPrefix pat _); [discriminate|].
    now destruct (findSub pat (front ++ pat ++ rest)) as [[? ?]|].
Qed.

Lemma findSubCI_found (pat front m rest : str) :
  stripPrefixCI pat m = Some (m, []) ->
  findSubCI pat (front ++ m ++ rest) <> None.
Proof.
  intros Hm. induction front as [|c front IH]; cbn [app].
  - pose proof (stripPrefixCI_app pat m rest Hm) as Hstrip.
    destruct (m ++ rest) as [|c s]; cbn [findSubCI]; now rewrite Hstrip.
  - cbn [findSubCI].
    destruct (stripPrefixCI pat (c :: front ++ m ++ rest)) as [[? ?]|]; [easy|].
    now destruct (findSubCI pat (front ++ m ++ rest)) as [[[? ?] ?]|].
Qed.

Lemma findSubCI_spec (pat s before m after : str) :
  findSubCI pat s = Some (before, m, after) ->
  s = before ++ m ++ after /\ stripPrefixCI pat m = Some (m, []).
Proof.
  revert before. induction s as [|c s IH]; intros before; cbn [findSubCI].
  - destruct (stripPrefixCI pat []) as [[m' r]|] eqn:Hstrip; [|discriminate].
    intros [= <- <- <-]. destruct (stripPrefixCI_spec _ _ _ _ Hstrip) as (Hs & _ & Hm).
    now split.
  - destruct (stripPrefixCI pat (c :: s)) as [[m' r]|] eqn:Hstrip.
    + intros [= <- <- <-]. destruct (stripPrefixCI_spec _ _ _ _ Hstrip) as (Hs & _ & Hm).
      now split.
    + destruct (findSubCI pat s) as [[[b m'] a]|]; [|discriminate].
      intros [= <- <- <-]. destruct (IH b eq_refl) as [-> Hm]. now split.
Qed.

Section SearchFacts.
Variable matchLen : str -> option nat.

Lemma searchFirst_none (s : str) :
  searchFirst matchLen s = None -> forall a b, s = a ++ b -> matchLen b = None.
Proof.
  induction s as [|c s IH]; cbn [searchFirst].
  - destruct (matchLen []) eqn:Hm; [discriminate|].
    intros _ a b Hs. symmetry in Hs. apply app_eq_nil in Hs as [_ ->]. exact Hm.
  - destruct (matchLen (c :: s)) eqn:Hm; [discriminate|].
    destruct (searchFirst matchLen s) as [[[? ?] ?]|] eqn:Hs; [discriminate|].
    intros _ a b Heq. destruct a as [|x a]; cbn in Heq.
    + now subst b.
    + injection Heq as -> ->. now apply (IH eq_refl a b).
Qed.

Lemma searchFirst_some (s before m after : str) :
  searchFirst matchLen s = Some (before, m, after) ->
  exists len,
    matchLen (skipn (List.length before) s) = Some len
    /\ m = firstn len (skipn (List.length before) s)
    /\ after = skipn len (skipn (List.length before) s)
    /\ s = before ++ skipn (List.length before) s
    /\ forall a b, before = a ++ b -> b <> [] ->
         matchLen (b ++ skipn (List.length before) s) = None.
Proof.
  revert before. induction s as [|c s IH]; intros before; cbn [searchFirst].
  - destruct (matchLen []) as [len|] eqn:Hm; [|discriminate].
    intros [= <- <- <-]. exists len. repeat split; try assumption.
    intros [|? ?] b Hb; [cbn in Hb; subst b; congruence|discriminate].
  - destruct (matchLen (c :: s)) as [len|] eqn:Hm.
    + intros [= <- <- <-]. exists len. repeat split; try assumption.
      intros [|? ?] b Hb; [cbn in Hb; subst b; congruence|discriminate].
    + destruct (searchFirst matchLen s) as [[[b0 m0] a0]|] eqn:Hs; [|discriminate].
      intros [= <- <- <-].
      destruct (IH b0 eq_refl) as (len & Hlen & Hm0 & Ha0 & Hsplit & Hnone).
      exists len. cbn [List.length skipn]. repeat split; try assumption.
      * cbn. now rewrite <- Hsplit.
      * intros a b Hab Hb. destruct a as [|x a]; cbn in Hab.
        -- subst b. cbn [app]. now rewrite <- Hsplit.
        -- injection Hab as -> ->. now apply (Hnone a b).
Qed.

Lemma searchFirst_found (before rest : str) (len : nat) :
  (forall a b, before = a ++ b -> b <> [] -> matchLen (b ++ rest) = None) ->
  matchLen rest = Some len ->
  searchFirst matchLen (before ++ rest)
  = Some (before, firstn len rest, skipn len rest).
Proof.
  intros Hnone Hrest. induction before as [|c before IH]; cbn [app].
  - destruct rest as [|x rest]; cbn [searchFirst]; now rewrite Hrest.
  - cbn [searchFirst].
    pose proof (Hnone [] (c :: before) eq_refl ltac:(discriminate)) as Hhead.
    cbn [app] in Hhead. rewrite Hhead.
    rewrite IH; [reflexivity|].
    intros a b -> Hb. now apply (Hnone (c :: a) b).
Qed.
End SearchFacts.

(** ** The marked rectangle *)

Lemma rev_cons_shape (s : str) (c : N) (t : str) : rev s = c :: t -> s = rev t ++ [c].
Proof. intros H. rewrite <- (rev_involutive s), H. reflexivity. Qed.

Lemma rectPattern_sound (s : str) (len : nat) :
  rectPattern s = Some len ->
  exists matched rest, s = matched ++ rest /\ len = List.length matched /\ isRectLike matched.
Proof.
  unfold rectPattern. fold RECT_OPEN.
  destruct (stripPrefixCI RECT_OPEN s) as [[opening s1]|] eqn:Hopen; [|discriminate].
  destruct (stripPrefixCI_spec _ _ _ _ Hopen) as (-> & _ & Hopening).
  destruct (span (fun c => c =? GT) s1) as [inside s2] eqn:Hspan.
  destruct (span_spec _ _ _ _ Hspan) as (-> & Hfree & Hstop).
  destruct s2 as [|g rest]; [discriminate|]. apply N.eqb_eq in Hstop. subst g.
  destruct (rev inside) as [|c front'] eqn:Hrev; [discriminate|].
  destruct (c =? SLASH) eqn:Hc; [|discriminate]. apply N.eqb_eq in Hc. subst c.
  destruct (findSubCI INACTIVE_BACKGROUND_MARKER (rev front')) eqn:Hmarker; [|discriminate].
  intros [= <-]. apply rev_cons_shape in Hrev. subst inside.
  exists (opening ++ rev front' ++ [SLASH; GT]), rest. repeat split.
  - rewrite <- !app_assoc. reflexivity.
  - rewrite !length_app. cbn. lia.
  - exists opening, (rev front'). repeat split; try assumption.
    + change (free isGT (rev front' ++ [SLASH]) = true) in Hfree.
      rewrite free_app in Hfree. now apply andb_true_iff in Hfree as [? _].
    + congruence.
Qed.

Lemma rectPattern_complete (matched rest : str) :
  isRectLike matched -> rectPattern (matched ++ rest) = Some (List.length matched).
Proof.
  intros (opening & front & -> & Hopening & Hfront & Hmarker).
  unfold rectPattern. fold RECT_OPEN. rewrite <- !app_assoc.
  rewrite (stripPrefixCI_app _ _ _ Hopening).
  change ([SLASH; GT] ++ rest) with ([SLASH] ++ GT :: rest). rewrite app_assoc.
  rewrite (span_stop (fun c => c =? GT) (front ++ [SLASH]) GT rest).
  - rewrite rev_app_distr. cbn [rev app]. change (SLASH =? SLASH) with true. cbv iota.
    rewrite rev_involutive.
    destruct (findSubCI INACTIVE_BACKGROUND_MARKER front); [|congruence].
    f_equal. rewrite !length_app. cbn. lia.
  - change (free isGT (front ++ [SLASH]) = true). now rewrite free_app, Hfront.
  - reflexivity.
Qed.

Lemma stripPrefixCI_long (pat a rest : str) :
  (List.length pat <= List.length a)%nat ->
  stripPrefixCI pat (a ++ rest)
  = match stripPrefixCI pat a with
    | Some (m, a') => Some (m, a' ++ rest)
    | None => None
    end.
Proof.
  revert a. induction pat as [|p pat IH]; intros a Hlen; [reflexivity|].
  destruct a as [|c a]; [cbn in Hlen; lia|]. cbn [app stripPrefixCI].
  destruct (ciEq p c); [|reflexivity].
  cbn in Hlen. rewrite (IH a) by lia.
  now destruct (stripPrefixCI pat a) as [[? ?]|].
Qed.

Lemma stripPrefixCI_blocked (pat a : str) (c : N) (rest : str) :
  (List.length a < List.length pat)%nat ->
  forallb (fun p => negb (ciEq p c)) pat = true ->
  stripPrefixCI pat (a ++ c :: rest) = None.
Proof.
  revert a. induction pat as [|p pat IH]; intros a Hlen Hpat; [cbn in Hlen; lia|].
  cbn [forallb] in Hpat. apply andb_true_iff in Hpat as [Hp Hpat].
  apply negb_true_iff in Hp.
  destruct a as [|x a]; cbn [app stripPrefixCI].
  - now rewrite Hp.
  - destruct (ciEq p x); [|reflexivity]. cbn in Hlen. rewrite (IH a) by (lia || assumption).
    reflexivity.
Qed.

Lemma stripPrefixCI_blocked_behind (pat a : str) (c : N) (rest : str) :
  a <> [] -> (List.length a < List.length pat)%nat ->
  forallb (fun p => negb (ciEq p c)) (tl pat) = true ->
  stripPrefixCI pat (a ++ c :: rest) = None.
Proof.
  intros Ha Hlen Hpat. destruct pat as [|p pat]; [cbn in Hlen; lia|].
  destruct a as [|x a]; [congruence|]. cbn [app stripPrefixCI tl] in *.
  destruct (ciEq p x); [|reflexivity].
  rewrite (stripPrefixCI_blocked pat a c rest); [reflexivity|cbn in Hlen; lia|assumption].
Qed.

(** Whether the rectangle pattern matches is settled at the first
    greater-than sign. *)
Lemma rectPattern_up_to_gt (x y y' : str) :
  free isGT x = true -> rectPattern (x ++ GT :: y) = rectPattern (x ++ GT :: y').
Proof.
  intros Hx. unfold rectPattern. fold RECT_OPEN.
  destruct (Nat.le_gt_cases (List.length RECT_OPEN) (List.length x)) as [Hlong|Hshort].
  - rewrite !(stripPrefixCI_long RECT_OPEN x) by assumption.
    destruct (stripPrefixCI RECT_OPEN x) as [[opening x']|] eqn:Hopen; [|reflexivity].
    destruct (stripPrefixCI_spec _ _ _ _ Hopen) as (-> & _ & _).
    rewrite free_app in Hx. apply andb_true_iff in Hx as [_ Hx'].
    now rewrite !(span_stop (fun c => c =? GT) x' GT _ Hx' eq_refl).
  - now rewrite !(stripPrefixCI_blocked RECT_OPEN x GT _ Hshort eq_refl).
Qed.

Lemma findSubCI_behind (pat a b : str) :
  findSubCI pat b <> None -> findSubCI pat (a ++ b) <> None.
Proof.
  intros Hb. induction a as [|c a IH]; [assumption|]. cbn [app findSubCI].
  destruct (stripPrefixCI pat (c :: a ++ b)) as [[? ?]|]; [easy|].
  now destruct (findSubCI pat (a ++ b)) as [[[? ?] ?]|].
Qed.

Lemma ciEq_symbol (p c : N) : ciEq p c = true -> p < 65 -> c = p.
Proof.
  unfold ciEq, canon. intros Heq Hp.
  replace ((97 <=? p) && (p <=? 122)) with false in Heq.
  2:{ symmetry. apply andb_false_iff. left. apply N.leb_gt. lia. }
  destruct ((97 <=? c) && (c <=? 122)) eqn:Hrange; apply N.eqb_eq in Heq.
  - apply andb_true_iff in Hrange as [Hlo Hhi]. apply N.leb_le in Hlo, Hhi. lia.
  - now subst.
Qed.

Lemma rect_opening_facts (opening : str) :
  stripPrefixCI RECT_OPEN opening = Some (opening, []) ->
  free isGT opening = true
  /\ exists tail, opening = LT :: tail.
Proof.
  intros Hopening. split.
  - apply (stripPrefixCI_avoids RECT_OPEN opening isGT Hopening).
    intros p c Hin Hci. unfold isGT. apply N.eqb_neq. intros ->.
    cbn in Hin. repeat (destruct Hin as [<-|Hin]; [discriminate Hci|]). destruct Hin.
  - destruct opening as [|c tail]; [discriminate|]. exists tail. f_equal.
    change RECT_OPEN with (LT :: tl RECT_OPEN) in Hopening. cbn [stripPrefixCI] in Hopening.
    destruct (ciEq LT c) eqn:Hc; [|discriminate].
    apply (ciEq_symbol LT c Hc). unfold LT. lia.
Qed.

(** In front of a rectangle, a position where the pattern does not match
    does not match either when the rectangle is exchanged for another. *)
Lemma rectPattern_other_rectangle (b m1 rest1 m2 rest2 : str) :
  b <> [] -> isRectLike m1 -> isRectLike m2 ->
  rectPattern (b ++ m1 ++ rest1) = None ->
  rectPattern (b ++ m2 ++ rest2) = None.
Proof.
  intros Hb Hm1 Hm2 Hnone.
  destruct (span isGT b) as [x r] eqn:Hspan.
  destruct (span_spec _ _ _ _ Hspan) as (-> & Hx & Hstop).
  destruct r as [|g y].
  - rewrite app_nil_r in *.
    destruct Hm1 as (o1 & f1 & -> & Ho1 & Hf1 & Hmarker1).
    destruct Hm2 as (o2 & f2 & -> & Ho2 & Hf2 & Hmarker2).
    destruct (rect_opening_facts o1 Ho1) as (Hgt1 & tail1 & ->).
    destruct (rect_opening_facts o2 Ho2) as (Hgt2 & tail2 & ->).
    destruct (Nat.le_gt_cases (List.length RECT_OPEN) (List.length x)) as [Hlong|Hshort].
    + destruct (stripPrefixCI RECT_OPEN x) as [[opening x']|] eqn:Hopen.
      * exfalso. destruct (stripPrefixCI_spec _ _ _ _ Hopen) as (-> & _ & Hopening).
        rewrite free_app in Hx. apply andb_true_iff in Hx as [_ Hx'].
        assert (isRectLike (opening ++ (x' ++ (LT :: tail1) ++ f1) ++ [SLASH; GT])) as Hlike.
        { exists opening, (x' ++ (LT :: tail1) ++ f1). repeat split; try assumption.
          - now rewrite !free_app, Hx', Hgt1, Hf1.
          - rewrite app_assoc. now apply findSubCI_behind. }
        pose proof (rectPattern_complete _ rest1 Hlike) as Hhit.
        rewrite <- !app_assoc in Hhit. rewrite <- !app_assoc in Hnone. congruence.
      * unfold rectPattern. fold RECT_OPEN.
        now rewrite (stripPrefixCI_long RECT_OPEN x _ Hlong), Hopen.
    + unfold rectPattern. fold RECT_OPEN. cbn [app].
      now rewrite (stripPrefixCI_blocked_behind RECT_OPEN x LT _ Hb Hshort eq_refl).
  - apply N.eqb_eq in Hstop. subst g. rewrite <- !app_assoc in *. cbn [app] in *.
    now rewrite (rectPattern_up_to_gt x _ (y ++ m1 ++ rest1) Hx).
Qed.

(** ** The rectangle element *)

Lemma free_of_chars (bad : N -> bool) (alphabet text : str) :
  free bad alphabet = true -> (forall c, In c text -> In c alphabet) ->
  free bad text = true.
Proof.
  unfold free. rewrite !forallb_forall. intros Hfree Hin c Hc. apply Hfree. auto.
Qed.

Lemma attribute_free (bad : N -> bool) (name value : str) :
  plainFor bad ->
  (forall c, In c name -> In c rectAlphabet) ->
  free bad value = true -> free bad (attribute name value) = true.
Proof.
  intros (_ & Hfixed) Hname Hvalue. unfold attribute.
  rewrite !free_app, Hvalue.
  rewrite (free_of_chars bad _ name Hfixed Hname).
  rewrite (free_of_chars bad _ (u "=") Hfixed) by (intros c [<-|[]]; cbn; tauto).
  rewrite (free_of_chars bad _ [QUOTE] Hfixed) by (intros c [<-|[]]; cbn; tauto).
  reflexivity.
Qed.

Lemma number_text_free (bad : N -> bool) (text : str) :
  plainFor bad -> forallb isNumberChar text = true -> free bad text = true.
Proof. intros [Hnumber _] Htext. now apply number_chars_free. Qed.

Lemma space_free (bad : N -> bool) : plainFor bad -> free bad (u " ") = true.
Proof.
  intros (_ & Hfixed).
  apply (free_of_chars bad _ _ Hfixed). intros c [<-|[]]. cbn. tauto.
Qed.

Lemma rectMiddle_free (bad : N -> bool) (x y w hgt radius color : str) :
  plainFor bad ->
  free bad x = true -> free bad y = true -> free bad w = true ->
  free bad hgt = true -> free bad radius = true -> free bad color = true ->
  free bad (rectMiddle x y w hgt radius color) = true.
Proof.
  intros Hplain Hx Hy Hw Hh Hr Hc. unfold rectMiddle.
  rewrite !free_app, !(space_free bad Hplain).
  rewrite !attribute_free; try assumption; try reflexivity;
    intros c Hin; cbn in *; tauto.
Qed.

Lemma rectElementFor_middle (svgText color : str) (cornerRadius : number)
    (insetRatio : Q) :
  exists x y w hgt,
    rectElementFor svgText color cornerRadius insetRatio
    = u "<rect " ++ INACTIVE_BACKGROUND_MARKER
      ++ rectMiddle x y w hgt (numberToString cornerRadius) color ++ [SLASH; GT]
    /\ forall bad, plainFor bad ->
         free bad x = true /\ free bad y = true /\ free bad w = true
         /\ free bad hgt = true.
Proof.
  unfold rectElementFor. destruct (extractViewBox svgText) as [viewBox|].
  - unfold buildInsetRectFromViewBox. cbv zeta.
    eexists _, _, _, _. split.
    + unfold rectMiddle. rewrite <- !app_assoc. reflexivity.
    + intros bad Hplain.
      repeat split; apply (number_text_free bad _ Hplain), formatNumber_chars.
  - unfold buildInsetRectWithPercent. cbv zeta.
    eexists _, _, _, _. split.
    + unfold rectMiddle. rewrite <- !app_assoc. reflexivity.
    + intros bad Hplain.
      assert (free bad (u "%") = true) as Hpercent.
      { destruct Hplain as (_ & Hfixed).
        apply (free_of_chars bad _ _ Hfixed). intros c [<-|[]]. cbn. tauto. }
      repeat split; rewrite free_app, Hpercent, andb_true_r;
        apply (number_text_free bad _ Hplain), toFixed_chars.
Qed.

Lemma plainFor_gt : plainFor isGT.
Proof.
  split; [|reflexivity]. intros c Hc. apply (number_char_is_plain c Hc).
Qed.

Lemma plainFor_dollar : plainFor isDollar.
Proof.
  split; [|reflexivity]. intros c Hc. apply (number_char_is_plain c Hc).
Qed.

Lemma rectElementFor_shape (svgText color : str) (cornerRadius : number)
    (insetRatio : Q) :
  free isGT color = true -> free isDollar color = true ->
  isRectLike (rectElementFor svgText color cornerRadius insetRatio)
  /\ free isDollar (rectElementFor svgText color cornerRadius insetRatio) = true.
Proof.
  intros Hgt Hdollar.
  destruct (rectElementFor_middle svgText color cornerRadius insetRatio)
    as (x & y & w & hgt & -> & Hfree).
  assert (forall bad, plainFor bad -> free bad color = true ->
            free bad (rectMiddle x y w hgt (numberToString cornerRadius) color) = true)
    as Hmiddle.
  { intros bad Hplain Hcolor. destruct (Hfree bad Hplain) as (Hx & Hy & Hw & Hh).
    apply rectMiddle_free; try assumption.
    apply (number_text_free bad _ Hplain), numberToString_chars. }
  split.
  - exists RECT_OPEN, (32 :: INACTIVE_BACKGROUND_MARKER
                         ++ rectMiddle x y w hgt (numberToString cornerRadius) color).
    split; [reflexivity|]. split; [reflexivity|]. split.
    + change (32 :: INACTIVE_BACKGROUND_MARKER ++ ?m)
        with ((32 :: INACTIVE_BACKGROUND_MARKER) ++ m).
      rewrite free_app, (Hmiddle isGT plainFor_gt Hgt). reflexivity.
    + apply (findSubCI_found INACTIVE_BACKGROUND_MARKER [32] INACTIVE_BACKGROUND_MARKER).
      reflexivity.
  - rewrite !free_app, (Hmiddle isDollar plainFor_dollar Hdollar). reflexivity.
Qed.

(** ** Inserting and replacing the rectangle *)

Lemma svgOpenTagPattern_sound (s : str) (len : nat) :
  svgOpenTagPattern s = Some len ->
  exists tag rest, s = (tag ++ [GT]) ++ rest /\ len = List.length (tag ++ [GT]).
Proof.
  unfold svgOpenTagPattern.
  destruct (stripPrefixCI (u "<svg") s) as [[opening s1]|] eqn:Hopen; [|discriminate].
  destruct (stripPrefixCI_spec _ _ _ _ Hopen) as (-> & _ & _).
  destruct (span (fun c => c =? GT) s1) as [inside s2] eqn:Hspan.
  destruct (span_spec _ _ _ _ Hspan) as (-> & _ & Hstop).
  destruct s2 as [|g rest]; [discriminate|]. intros [= <-].
  apply N.eqb_eq in Hstop. subst g.
  exists (opening ++ inside), rest. split.
  - rewrite <- !app_assoc. reflexivity.
  - rewrite !length_app. cbn. lia.
Qed.

Lemma firstn_skipn_exact (a b : str) :
  firstn (List.length a) (a ++ b) = a /\ skipn (List.length a) (a ++ b) = b.
Proof.
  split.
  - rewrite firstn_app, Nat.sub_diag, firstn_all. cbn. apply app_nil_r.
  - rewrite skipn_app, Nat.sub_diag, skipn_all. reflexivity.
Qed.

Lemma ends_with_gt (a l p : str) :
  p ++ [GT] = a ++ l -> l <> [] -> exists x y, l = x ++ GT :: y /\ free isGT x = true.
Proof.
  intros Heq Hl.
  destruct (span isGT l) as [x r] eqn:Hspan.
  destruct (span_spec _ _ _ _ Hspan) as (-> & Hx & Hstop).
  destruct r as [|g y].
  - exfalso. rewrite app_nil_r in *.
    destruct (exists_last Hl) as (x' & c & ->).
    rewrite app_assoc in Heq. apply app_inj_tail in Heq as [_ <-].
    rewrite free_app in Hx. apply andb_true_iff in Hx as [_ Hx]. discriminate.
  - unfold isGT in Hstop. apply N.eqb_eq in Hstop. subst g. now exists x, y.
Qed.

(** After the insertion the rectangle is the first match: no match starts in
    front of it, since none did before the insertion and the inserted text
    begins behind the greater-than sign of the opening tag. *)
Lemma no_match_in_front_of_insertion (p after rect a b : str) :
  (forall a' b', (p ++ [GT]) ++ after = a' ++ b' -> rectPattern b' = None) ->
  (p ++ [GT]) ++ [10; 32; 32] = a ++ b -> b <> [] ->
  rectPattern (b ++ rect ++ after) = None.
Proof.
  intros Hnone Heq Hb.
  apply app_eq_app in Heq as [l [[Hp ->]|[-> Hl]]].
  - destruct l as [|c l'] eqn:Hl0; [reflexivity|]. rewrite <- Hl0 in *.
    assert (l <> []) as Hl by (rewrite Hl0; discriminate).
    destruct (ends_with_gt a l p Hp Hl) as (x & y & -> & Hx).
    rewrite <- !app_assoc. cbn [app].
    rewrite (rectPattern_up_to_gt x _ (y ++ after) Hx).
    apply (Hnone a). rewrite Hp, <- !app_assoc. reflexivity.
  - destruct l as [|c1 [|c2 [|c3 [|c4 l]]]]; cbn in Hl; try discriminate;
      inversion Hl; subst; try reflexivity.
    now contradiction Hb.
Qed.

Lemma rectElementFor_same_viewBox (svg out color : str) (cornerRadius : number)
    (insetRatio : Q) :
  extractViewBox out = extractViewBox svg ->
  rectElementFor out color cornerRadius insetRatio
  = rectElementFor svg color cornerRadius insetRatio.
Proof. intros Hvb. unfold rectElementFor. now rewrite Hvb. Qed.

(** The output of the first application is the rectangle between two texts,
    and the second application puts its own rectangle between the same two
    texts: it finds the rectangle of the first and inserts nothing. *)
Lemma second_application_rewrites_rectangle
    (svgContent color : str) (cornerRadius : number) (insetRatio : Q) (out : str) :
  free isGT color = true -> free isDollar color = true ->
  free isDollar (openingTag svgContent) = true ->
  addOrUpdateBackgroundRect svgContent color cornerRadius insetRatio = Ok out ->
  exists front back,
    out = front ++ rectElementFor svgContent color cornerRadius insetRatio ++ back
    /\ addOrUpdateBackgroundRect out color cornerRadius insetRatio
       = Ok (front ++ rectElementFor out color cornerRadius insetRatio ++ back).
Proof.
  intros Hgt Hcolor Hdollar Hfirst.
  destruct (rectElementFor_shape svgContent color cornerRadius insetRatio Hgt Hcolor)
    as [Hshape Hplain].
  destruct (rectElementFor_shape out color cornerRadius insetRatio Hgt Hcolor)
    as [_ Hplain'].
  unfold openingTag in Hdollar.
  unfold addOrUpdateBackgroundRect in *. cbv zeta in *.
  set (rect := rectElementFor svgContent color cornerRadius insetRatio) in *.
  set (rect' := rectElementFor out color cornerRadius insetRatio) in *.
  clearbody rect rect'.
  destruct (searchFirst rectPattern svgContent) as [[[before matched] after]|] eqn:Hsearch.
  - (* a marked rectangle is replaced *)
    destruct (searchFirst_some rectPattern _ _ _ _ Hsearch)
      as (len & Hmatch & _ & Hafter & Hsplit & Hnone).
    destruct (rectPattern_sound _ _ Hmatch) as (m & rest & Hrest & -> & Hm).
    rewrite Hrest in *.
    destruct (firstn_skipn_exact m rest) as [_ Hskip]. rewrite Hskip in Hafter. subst after.
    rewrite (getSubstitution_plain _ _ _ _ Hplain) in Hfirst.
    injection Hfirst as <-. exists before, rest. split; [reflexivity|].
    rewrite (searchFirst_found rectPattern before (rect ++ rest) (List.length rect)).
    + destruct (firstn_skipn_exact rect rest) as [-> ->].
      now rewrite (getSubstitution_plain _ _ _ _ Hplain').
    + intros a b Hab Hb. apply (rectPattern_other_rectangle b m rest rect rest Hb Hm Hshape).
      now apply (Hnone a).
    + now apply rectPattern_complete.
  - (* the rectangle is inserted behind the opening tag *)
    destruct (searchFirst svgOpenTagPattern svgContent) as [[[before0 tag] after0]|] eqn:Htag;
      [|discriminate].
    destruct (searchFirst_some svgOpenTagPattern _ _ _ _ Htag)
      as (len & Hmatch & Htagged & _ & Hsplit & _).
    destruct (svgOpenTagPattern_sound _ _ Hmatch) as (p & rest & Hrest & ->).
    rewrite Hrest in *. destruct (firstn_skipn_exact (p ++ [GT]) rest) as [Hfirstn _].
    rewrite Hfirstn in Htagged. subst tag. clear Hfirstn.
    unfold replaceString in Hfirst.
    destruct (findSub (p ++ [GT]) svgContent) as [[front back]|] eqn:Hfind.
    2:{ exfalso. rewrite Hsplit in Hfind. now apply (findSub_found _ _ _ Hfind). }
    apply findSub_spec in Hfind.
    assert (free isDollar ((p ++ [GT]) ++ [10; 32; 32] ++ rect) = true) as Htemplate.
    { rewrite free_app, Hdollar, free_app, Hplain. reflexivity. }
    rewrite (getSubstitution_plain _ _ _ _ Htemplate) in Hfirst.
    injection Hfirst as <-.
    change (10 :: 32 :: 32 :: rect) with ([10; 32; 32] ++ rect).
    exists (front ++ (p ++ [GT]) ++ [10; 32; 32]), back.
    assert (front ++ ((p ++ [GT]) ++ [10; 32; 32] ++ rect) ++ back
            = (front ++ (p ++ [GT]) ++ [10; 32; 32]) ++ rect ++ back) as ->
      by (rewrite <- !app_assoc; reflexivity).
    split; [reflexivity|].
    rewrite (searchFirst_found rectPattern _ (rect ++ back) (List.length rect)).
    + destruct (firstn_skipn_exact rect back) as [-> ->].
      now rewrite (getSubstitution_plain _ _ _ _ Hplain').
    + intros a b Hab Hb.
      pose proof (searchFirst_none rectPattern _ Hsearch) as Hnone.
      rewrite app_assoc in Hab.
      apply (no_match_in_front_of_insertion (front ++ p) back rect a b); try assumption.
      * intros a' b' Heq. apply (Hnone a'). rewrite Hfind, <- Heq, <- !app_assoc. reflexivity.
      * rewrite <- Hab, <- !app_assoc. reflexivity.
    + now apply rectPattern_complete.
Qed.

(** The second application gives the output of the first exactly when it
    builds the same rectangle. *)
Lemma second_application_fixed_iff_same_rectangle
    (svgContent color : str) (cornerRadius : number) (insetRatio : Q) (out : str) :
  free isGT color = true -> free isDollar color = true ->
  free isDollar (openingTag svgContent) = true ->
  addOrUpdateBackgroundRect svgContent color cornerRadius insetRatio = Ok out ->
  addOrUpdateBackgroundRect out color cornerRadius insetRatio = Ok out
  <-> rectElementFor out color cornerRadius insetRatio
      = rectElementFor svgContent color cornerRadius insetRatio.
Proof.
  intros Hgt Hcolor Hdollar Hfirst.
  destruct (second_application_rewrites_rectangle svgContent color cornerRadius
              insetRatio out Hgt Hcolor Hdollar Hfirst) as (front & back & Hout & ->).
  split.
  - intros [= Hsame]. rewrite Hout in Hsame at 2.
    apply app_inv_head in Hsame. now apply app_inv_tail in Hsame.
  - intros ->. now rewrite <- Hout.
Qed.

(** C8, as the code has it.  Whenever addOrUpdateBackgroundRect succeeds on
    a text, applying it to its own output with the same colour, corner
    radius and inset ratio gives that output again (the marked rectangle is
    found and replaced in place, no second one is inserted), provided that
    the colour holds neither a greater-than sign nor a dollar sign, that the
    opening tag of the root element holds no dollar sign, and that the
    viewBox read from the output is the one read from the input. *)
Theorem background_rect_is_replaced_in_place
    (svgContent color : str) (cornerRadius : number) (insetRatio : Q) (out : str) :
  free isGT color = true -> free isDollar color = true ->
  free isDollar (openingTag svgContent) = true ->
  addOrUpdateBackgroundRect svgContent color cornerRadius insetRatio = Ok out ->
  extractViewBox out = extractViewBox svgContent ->
  addOrUpdateBackgroundRect out color cornerRadius insetRatio = Ok out.
Proof.
  intros Hgt Hcolor Hdollar Hfirst Hvb.
  destruct (second_application_rewrites_rectangle svgContent color cornerRadius
              insetRatio out Hgt Hcolor Hdollar Hfirst) as (front & back & Hout & ->).
  rewrite (rectElementFor_same_viewBox svgContent out color cornerRadius insetRatio Hvb).
  now rewrite <- Hout.
Qed.

Lemma background_rect_is_replaced_in_place_witness :
  addOrUpdateBackgroundRect
    (doc "<svg viewBox='0 0 24 24'>
  <rect data-vivaldi-inactive-bg='true' x='1.2' y='1.2' width='21.6' height='21.6' rx='6' ry='6' fill='#acacac'/><path FILL ='Red' stroke='none' style=' fill : red ;; stroke:none'/></svg>")
    (u "#acacac") (Num 6) (1 # 10)
  = Ok (doc "<svg viewBox='0 0 24 24'>
  <rect data-vivaldi-inactive-bg='true' x='1.2' y='1.2' width='21.6' height='21.6' rx='6' ry='6' fill='#acacac'/><path FILL ='Red' stroke='none' style=' fill : red ;; stroke:none'/></svg>").
Proof.
  apply (background_rect_is_replaced_in_place sampleIcon (u "#acacac") (Num 6) (1 # 10));
    reflexivity.
Defined.

(** C8 as stated fails when the viewBox that the first application reads
    stands inside the marked rectangle: the replacement removes it, and the
    second application sizes the rectangle in per cent. *)
Lemma background_rect_twice_differs :
  validColor (u "#acacac")
  /\ addOrUpdateBackgroundRect
       (doc "<svg><rect data-vivaldi-inactive-bg='true' viewBox='0 0 10 10'/></svg>")
       (u "#acacac") (Num 6) (1 # 10)
     = Ok (doc "<svg><rect data-vivaldi-inactive-bg='true' x='0.5' y='0.5' width='9' height='9' rx='6' ry='6' fill='#acacac'/></svg>")
  /\ addOrUpdateBackgroundRect
       (doc "<svg><rect data-vivaldi-inactive-bg='true' x='0.5' y='0.5' width='9' height='9' rx='6' ry='6' fill='#acacac'/></svg>")
       (u "#acacac") (Num 6) (1 # 10)
     = Ok (doc "<svg><rect data-vivaldi-inactive-bg='true' x='5.00%' y='5.00%' width='90.00%' height='90.00%' rx='6' ry='6' fill='#acacac'/></svg>")
  /\ doc "<svg><rect data-vivaldi-inactive-bg='true' x='5.00%' y='5.00%' width='90.00%' height='90.00%' rx='6' ry='6' fill='#acacac'/></svg>"
     <> doc "<svg><rect data-vivaldi-inactive-bg='true' x='0.5' y='0.5' width='9' height='9' rx='6' ry='6' fill='#acacac'/></svg>".
Proof.
  split; [reflexivity|]. split; [reflexivity|]. split; [reflexivity|].
  intros H. vm_compute in H. discriminate H.
Qed.

(** ** The viewBox in front of the rectangle *)

Lemma stripPrefixCI_last (pat : str) (p : N) (m : str) :
  stripPrefixCI (pat ++ [p]) m = Some (m, []) -> p < 65 ->
  exists m', m = m' ++ [p] /\ List.length m' = List.length pat.
Proof.
  intros Hm Hp. revert m Hm. induction pat as [|x pat IH]; intros m; cbn [app stripPrefixCI].
  - destruct m as [|c m]; [discriminate|].
    destruct (ciEq p c) eqn:Hc; [|discriminate].
    destruct m; [|discriminate]. intros _. exists []. split; [|reflexivity].
    now rewrite (ciEq_symbol p c Hc Hp).
  - destruct m as [|c m]; [discriminate|].
    destruct (ciEq x c); [|discriminate].
    destruct (stripPrefixCI (pat ++ [p]) m) as [[m0 r0]|] eqn:Hm; [|discriminate].
    intros [= -> ->]. destruct (IH m Hm) as (m' & -> & Hlen).
    exists (c :: m'). split; [reflexivity|]. cbn. now rewrite Hlen.
Qed.

Lemma free_skipn_less (bad : N -> bool) (k : nat) (s : str) :
  free bad (skipn (S k) s) = false -> free bad (skipn k s) = false.
Proof.
  revert s. induction k as [|k IH]; intros s.
  - destruct s as [|c s]; [discriminate|]. cbn. intros ->. apply andb_false_r.
  - destruct s as [|c s]; [discriminate|]. apply IH.
Qed.

Lemma viewBoxPattern_shape (s value : str) (len : nat) :
  viewBoxPattern s = Some (value, len) ->
  exists front rest,
    s = (front ++ [QUOTE]) ++ value ++ QUOTE :: rest
    /\ List.length front = 8%nat /\ free isQuote value = true /\ value <> []
    /\ stripPrefixCI VIEWBOX_OPEN (front ++ [QUOTE]) = Some (front ++ [QUOTE], []).
Proof.
  unfold viewBoxPattern. fold VIEWBOX_OPEN.
  destruct (stripPrefixCI VIEWBOX_OPEN s) as [[opening s1]|] eqn:Hopen; [|discriminate].
  destruct (stripPrefixCI_spec _ _ _ _ Hopen) as (-> & _ & Hopening).
  destruct (stripPrefixCI_last (u "viewBox=") QUOTE opening Hopening eq_refl)
    as (front & -> & Hlen).
  destruct (span (fun c => c =? QUOTE) s1) as [v s2] eqn:Hspan.
  destruct (span_spec _ _ _ _ Hspan) as (-> & Hfree & Hstop).
  destruct v as [|c v]; [discriminate|]. destruct s2 as [|q rest]; [discriminate|].
  intros [= <- <-]. apply N.eqb_eq in Hstop. subst q.
  exists front, rest. repeat split; try assumption. discriminate.
Qed.

(** A match of the viewBox pattern has its first double quote at the ninth
    code unit or later. *)
Lemma viewBoxSearch_quote (s value : str) :
  viewBoxSearch s = Some value -> free isQuote (skipn 8 s) = false.
Proof.
  induction s as [|c s IH]; cbn [viewBoxSearch].
  - destruct (viewBoxPattern []) as [[v n]|] eqn:Hp; [|discriminate]. discriminate Hp.
  - destruct (viewBoxPattern (c :: s)) as [[v n]|] eqn:Hp.
    + intros _. destruct (viewBoxPattern_shape _ _ _ Hp) as (front & rest & -> & Hlen & _).
      rewrite <- !app_assoc. rewrite skipn_app, <- Hlen, skipn_all, Nat.sub_diag.
      reflexivity.
    + intros Hs. apply (free_skipn_less isQuote 7 s). now apply IH.
Qed.

Lemma viewBoxPattern_prefix (a b : str) (r : str * nat) :
  viewBoxPattern a = Some r -> viewBoxPattern (a ++ b) = Some r.
Proof.
  destruct r as [value len]. intros Hp.
  destruct (viewBoxPattern_shape _ _ _ Hp) as (front & rest & Ha & Hlen & Hfree & Hvalue & Hopen).
  revert Hp. rewrite Ha. unfold viewBoxPattern. fold VIEWBOX_OPEN.
  rewrite <- !app_assoc. rewrite !(app_assoc front [QUOTE]).
  rewrite !(stripPrefixCI_app _ _ _ Hopen).
  change ((QUOTE :: rest) ++ b) with (QUOTE :: (rest ++ b)).
  rewrite !(span_stop (fun c => c =? QUOTE) value QUOTE _ Hfree eq_refl).
  destruct value; [congruence|exact (fun H => H)].
Qed.

Lemma viewBoxPattern_stays_none (s b : str) :
  viewBoxPattern s = None -> free isQuote (skipn 9 s) = false ->
  viewBoxPattern (s ++ b) = None.
Proof.
  intros Hnone Hquote.
  assert (List.length VIEWBOX_OPEN <= List.length s)%nat as Hlong.
  { destruct (Nat.le_gt_cases 9 (List.length s)) as [H|H]; [exact H|].
    rewrite skipn_all2 in Hquote by lia. discriminate. }
  revert Hnone. unfold viewBoxPattern. fold VIEWBOX_OPEN.
  rewrite (stripPrefixCI_long VIEWBOX_OPEN s b Hlong).
  destruct (stripPrefixCI VIEWBOX_OPEN s) as [[opening s1]|] eqn:Hopen; [|reflexivity].
  destruct (stripPrefixCI_spec _ _ _ _ Hopen) as (-> & Hlen & _).
  rewrite skipn_app, skipn_all2, Hlen in Hquote by (rewrite Hlen; apply Nat.le_refl).
  change (List.length VIEWBOX_OPEN) with 9%nat in Hquote.
  cbn [Nat.sub skipn app] in Hquote.
  destruct (span (fun c => c =? QUOTE) s1) as [v s2] eqn:Hspan.
  destruct (span_spec _ _ _ _ Hspan) as (-> & Hfree & Hstop).
  destruct s2 as [|q rest].
  { rewrite app_nil_r in Hquote. change (free isQuote v = true) in Hfree.
    rewrite Hfree in Hquote. discriminate. }
  apply N.eqb_eq in Hstop. subst q.
  rewrite <- app_assoc. cbn [app].
  rewrite (span_stop (fun c => c =? QUOTE) v QUOTE _ Hfree eq_refl).
  destruct v; [reflexivity|discriminate].
Qed.

(** The first viewBox attribute of a text is the first one of every text
    that begins with it. *)
Lemma viewBoxSearch_prefix (a b value : str) :
  viewBoxSearch a = Some value -> viewBoxSearch (a ++ b) = Some value.
Proof.
  induction a as [|c a IH]; cbn [viewBoxSearch app].
  - destruct (viewBoxPattern []) as [[v n]|] eqn:Hp; [|discriminate]. discriminate Hp.
  - destruct (viewBoxPattern (c :: a)) as [[v n]|] eqn:Hp.
    + intros [= <-]. change (c :: a ++ b) with ((c :: a) ++ b).
      now rewrite (viewBoxPattern_prefix _ b _ Hp).
    + intros Hs. change (c :: a ++ b) with ((c :: a) ++ b).
      rewrite (viewBoxPattern_stays_none (c :: a) b Hp).
      * now apply IH.
      * apply (viewBoxSearch_quote a value Hs).
Qed.

Lemma extractViewBox_prefix (a b : str) :
  viewBoxSearch a <> None -> extractViewBox (a ++ b) = extractViewBox a.
Proof.
  intros Hfound. destruct (viewBoxSearch a) as [value|] eqn:Hs; [|congruence].
  unfold extractViewBox. now rewrite (viewBoxSearch_prefix a b value Hs), Hs.
Qed.

Lemma findSub_first (pat s before after before' after' : str) :
  findSub pat s = Some (before, after) -> s = before' ++ pat ++ after' ->
  (List.length before <= List.length before')%nat.
Proof.
  revert before before'. induction s as [|c s IH]; intros before before'; cbn [findSub].
  - destruct (stripPrefix pat []); [|discriminate]. intros [= <- <-] _. apply Nat.le_0_l.
  - destruct (stripPrefix pat (c :: s)) as [r|] eqn:Hstrip.
    + intros [= <- <-] _. apply Nat.le_0_l.
    + destruct (findSub pat s) as [[b a]|] eqn:Hfind; [|discriminate].
      intros [= <- <-] Hs. destruct before' as [|x before'].
      * cbn [app] in Hs. rewrite Hs, stripPrefix_app in Hstrip. discriminate.
      * injection Hs as _ Hs. cbn. apply le_n_S. now apply (IH b before' eq_refl).
Qed.

Lemma svgOpenTagPattern_tag (s : str) (len : nat) (rest' : str) :
  svgOpenTagPattern s = Some len ->
  svgOpenTagPattern (firstn len s ++ rest') = Some len.
Proof.
  unfold svgOpenTagPattern.
  destruct (stripPrefixCI (u "<svg") s) as [[opening s1]|] eqn:Hopen; [|discriminate].
  destruct (stripPrefixCI_spec _ _ _ _ Hopen) as (-> & _ & Hopening).
  destruct (span (fun c => c =? GT) s1) as [inside s2] eqn:Hspan.
  destruct (span_spec _ _ _ _ Hspan) as (-> & Hfree & Hstop).
  destruct s2 as [|g rest]; [discriminate|]. intros [= <-].
  apply N.eqb_eq in Hstop. subst g.
  assert (firstn (S (List.length opening + List.length inside))
            (opening ++ inside ++ GT :: rest) = opening ++ inside ++ [GT]) as ->.
  { replace (S (List.length opening + List.length inside))
      with (List.length (opening ++ inside ++ [GT]))
      by (rewrite !length_app; cbn; lia).
    replace (opening ++ inside ++ GT :: rest) with ((opening ++ inside ++ [GT]) ++ rest)
      by (rewrite <- !app_assoc; reflexivity).
    apply firstn_skipn_exact. }
  rewrite <- !app_assoc. rewrite (stripPrefixCI_app _ _ _ Hopening). cbn [app].
  now rewrite (span_stop (fun c => c =? GT) inside GT rest' Hfree eq_refl).
Qed.

(** The literal search for the opening tag finds it where the expression
    matched it. *)
Lemma opening_tag_found_in_place (svgContent front tag back front' back' : str) :
  searchFirst svgOpenTagPattern svgContent = Some (front, tag, back) ->
  findSub tag svgContent = Some (front', back') ->
  front' = front /\ back' = back.
Proof.
  intros Htag Hfind.
  destruct (searchFirst_some svgOpenTagPattern _ _ _ _ Htag)
    as (len & Hmatch & Htagged & Hback & Hsplit & Hnone).
  pose proof (firstn_skipn len (skipn (List.length front) svgContent)) as Hparts.
  rewrite <- Htagged, <- Hback in Hparts.
  assert (svgContent = front ++ tag ++ back) as Hs by (now rewrite Hparts).
  pose proof (findSub_first _ _ _ _ _ _ Hfind Hs) as Hle.
  apply findSub_spec in Hfind.
  assert (front ++ tag ++ back = front' ++ tag ++ back') as Heq by congruence.
  apply app_eq_app in Heq as [l [[Hfront Hl]|[-> Hl]]].
  - destruct l as [|c l].
    + rewrite app_nil_r in Hfront. cbn [app] in Hl. apply app_inv_head in Hl. now split.
    + exfalso. specialize (Hnone front' (c :: l) Hfront ltac:(discriminate)).
      rewrite <- Hparts, <- Hl in Hnone.
      rewrite Htagged, (svgOpenTagPattern_tag _ len back' Hmatch) in Hnone.
      discriminate.
  - rewrite length_app in Hle. destruct l; [|cbn in Hle; lia].
    rewrite app_nil_r. cbn [app] in Hl. apply app_inv_head in Hl. now split.
Qed.

(** When no marked rectangle stands in front of the end of the opening tag,
    the first application leaves the text up to there as it is. *)
Lemma first_application_keeps_head
    (svgContent color : str) (cornerRadius : number) (insetRatio : Q)
    (front tag back out : str) :
  free isGT color = true -> free isDollar color = true ->
  searchFirst svgOpenTagPattern svgContent = Some (front, tag, back) ->
  free isDollar tag = true ->
  searchFirst rectPattern (front ++ tag) = None ->
  addOrUpdateBackgroundRect svgContent color cornerRadius insetRatio = Ok out ->
  svgContent = (front ++ tag) ++ back /\ exists tail, out = (front ++ tag) ++ tail.
Proof.
  intros Hgt Hcolor Htag Hdollar Hhead Hfirst.
  destruct (rectElementFor_shape svgContent color cornerRadius insetRatio Hgt Hcolor)
    as [_ Hplain].
  destruct (searchFirst_some svgOpenTagPattern _ _ _ _ Htag)
    as (len & Hmatch & Htagged & Hback & Hsplit & _).
  pose proof (firstn_skipn len (skipn (List.length front) svgContent)) as Hparts.
  rewrite <- Htagged, <- Hback in Hparts.
  assert (svgContent = (front ++ tag) ++ back) as Hs
    by (now rewrite <- app_assoc, Hparts).
  split; [exact Hs|].
  destruct (svgOpenTagPattern_sound _ _ Hmatch) as (p & rest & Hrest & Hlen).
  assert (tag = p ++ [GT]) as Hp.
  { rewrite Htagged, Hrest, Hlen. apply firstn_skipn_exact. }
  unfold addOrUpdateBackgroundRect in Hfirst. cbv zeta in Hfirst.
  set (rect := rectElementFor svgContent color cornerRadius insetRatio) in *.
  clearbody rect.
  destruct (searchFirst rectPattern svgContent) as [[[before matched] after]|] eqn:Hsearch.
  - destruct (searchFirst_some rectPattern _ _ _ _ Hsearch)
      as (n & Hm & _ & _ & Hsplit' & _).
    injection Hfirst as <-.
    assert ((front ++ tag) ++ back = before ++ skipn (List.length before) svgContent)
      as Heq by congruence.
    apply app_eq_app in Heq as [l [[Hl Hrect]|[-> _]]].
    + destruct l as [|c l].
      * rewrite app_nil_r in Hl. rewrite Hl. eauto.
      * exfalso.
        pose proof (searchFirst_none rectPattern _ Hhead before (c :: l) Hl) as Hnone.
        assert ((front ++ p) ++ [GT] = before ++ c :: l) as Hend
          by (rewrite <- Hl, Hp, app_assoc; reflexivity).
        destruct (ends_with_gt before (c :: l) (front ++ p) Hend ltac:(discriminate))
          as (x & y & Hxy & Hx).
        rewrite Hrect, Hxy, <- app_assoc in Hm. cbn [app] in Hm.
        rewrite (rectPattern_up_to_gt x _ y Hx), <- Hxy, Hnone in Hm. discriminate.
    + eexists. rewrite <- !app_assoc. reflexivity.
  - rewrite Htag in Hfirst. unfold replaceString in Hfirst.
    destruct (findSub tag svgContent) as [[front' back']|] eqn:Hfind.
    + destruct (opening_tag_found_in_place _ _ _ _ _ _ Htag Hfind) as [-> ->].
      assert (free isDollar (tag ++ [10; 32; 32] ++ rect) = true) as Htemplate
        by (rewrite free_app, Hdollar, free_app, Hplain; reflexivity).
      rewrite (getSubstitution_plain _ _ _ _ Htemplate) in Hfirst.
      injection Hfirst as <-. eexists. rewrite <- !app_assoc. reflexivity.
    + exfalso. rewrite Hs, <- app_assoc in Hfind. now apply (findSub_found _ _ _ Hfind).
Qed.

(** The usual document: the viewBox attribute stands on the root element,
    no marked rectangle in front of it.  The second application then gives
    the output of the first, whatever follows the opening tag. *)
Lemma background_rect_twice_with_viewBox_on_root
    (svgContent color : str) (cornerRadius : number) (insetRatio : Q)
    (front tag back out : str) :
  free isGT color = true -> free isDollar color = true ->
  searchFirst svgOpenTagPattern svgContent = Some (front, tag, back) ->
  free isDollar tag = true ->
  viewBoxSearch (front ++ tag) <> None ->
  searchFirst rectPattern (front ++ tag) = None ->
  addOrUpdateBackgroundRect svgContent color cornerRadius insetRatio = Ok out ->
  addOrUpdateBackgroundRect out color cornerRadius insetRatio = Ok out.
Proof.
  intros Hgt Hcolor Htag Hdollar Hview Hhead Hfirst.
  destruct (first_application_keeps_head _ _ _ _ _ _ _ _ Hgt Hcolor Htag Hdollar Hhead Hfirst)
    as (Hs & tail & Hout).
  assert (free isDollar (openingTag svgContent) = true) as Hopening
    by (unfold openingTag; now rewrite Htag).
  apply (second_application_fixed_iff_same_rectangle _ _ _ _ _ Hgt Hcolor Hopening Hfirst).
  apply rectElementFor_same_viewBox.
  rewrite Hout, Hs. now rewrite !(extractViewBox_prefix _ _ Hview).
Qed.

Example background_rect_twice_on_sample_icon :
  forall out,
    addOrUpdateBackgroundRect sampleIcon (u "#acacac") (Num 6) (1 # 10) = Ok out ->
    addOrUpdateBackgroundRect out (u "#acacac") (Num 6) (1 # 10) = Ok out.
Proof.
  intros out.
  apply (background_rect_twice_with_viewBox_on_root sampleIcon (u "#acacac") (Num 6)
           (1 # 10) [] (openingTag sampleIcon)
           (skipn (List.length (openingTag sampleIcon)) sampleIcon));
    try reflexivity.
  discriminate.
Qed.

(** ** Words and quotes *)

Section QuoteFreeWord.
Variable word : str.
Hypothesis Hword : forallb (fun p => negb (ciEq p QUOTE)) word = true.
Hypothesis Hsome : word <> [].


Lemma findSubCI_cons (c : N) (s : str) :
  findSubCI word (c :: s) = None
  <-> startsCI word (c :: s) = false /\ findSubCI word s = None.
Proof.
  unfold startsCI. cbn [findSubCI].
  destruct (stripPrefixCI word (c :: s)) as [[m r]|].
  - split; [discriminate|]. intros [H _]. discriminate.
  - destruct (findSubCI word s) as [[[? ?] ?]|]; split; try discriminate; auto.
    intros [_ H]. discriminate.
Qed.

Lemma findSubCI_nil : findSubCI word [] = None.
Proof. destruct word; [congruence|reflexivity]. Qed.


End QuoteFreeWord.



(** ** Texts without the word style *)







(** ** Attribute values left open *)

Lemma span_app (stop : N -> bool) (a r : str) :
  span stop (a ++ r)
  = match span stop a with
    | (a1, []) => let (r1, r2) := span stop r in (a1 ++ r1, r2)
    | (a1, c :: a2) => (a1, (c :: a2) ++ r)
    end.
Proof.
  induction a as [|x a IH]; cbn [app span].
  - now destruct (span stop r).
  - destruct (stop x); [reflexivity|]. rewrite IH.
    destruct (span stop a) as [a1 [|c a2]]; [|reflexivity].
    now destruct (span stop r).
Qed.

Lemma span_app_stop (stop : N -> bool) (a : str) (x : N) (r : str) :
  stop x = true ->
  span stop (a ++ x :: r)
  = (fst (span stop a), snd (span stop a) ++ x :: r).
Proof.
  intros Hx. rewrite span_app. cbn [span]. rewrite Hx.
  destruct (span stop a) as [a1 [|c a2]]; cbn [fst snd app]; [|reflexivity].
  now rewrite app_nil_r.
Qed.

Lemma hasUnclosed_suffix (property : Property) (a b : str) :
  hasUnclosed property (a ++ b) = false -> hasUnclosed property b = false.
Proof.
  induction a as [|c a IH]; [trivial|]. cbn [app hasUnclosed].
  intros H. apply orb_false_iff in H as [_ H]. now apply IH.
Qed.

Lemma hasUnclosed_head (property : Property) (s : str) :
  hasUnclosed property s = false -> danglingAt property s = false.
Proof.
  destruct s; cbn [hasUnclosed]; intros H; now apply orb_false_iff in H as [H _].
Qed.

Lemma propertyName_length (property : Property) :
  (4 <= List.length (propertyName property))%nat.
Proof. destruct property; cbn; lia. Qed.


Lemma attributePattern_keeps_match (property : Property) (b rest : str)
    (r : str * str) :
  attributePattern property b = Some r -> attributePattern property (b ++ rest) = Some r.
Proof.
  destruct r as [prefix value]. intros Hb.
  destruct (attributePattern_sound _ _ _ _ Hb) as (a & rest0 & -> & Hopener & -> & Hvalue).
  rewrite <- app_assoc. cbn [app]. rewrite <- app_assoc. cbn [app].
  apply (attributePattern_complete property a value (rest0 ++ rest) Hopener Hvalue).
Qed.


Lemma absent_word_is_closed (pre : str) :
  findSubCI (u "fill") pre = None -> hasUnclosed Fill pre = false.
Proof.
  induction pre as [|c pre IH]; [reflexivity|].
  intros H. apply (findSubCI_cons (u "fill")) in H as [Hstart H].
  cbn [hasUnclosed]. rewrite (IH H), orb_false_r. unfold danglingAt.
  unfold startsCI in Hstart. cbn [propertyName].
  now destruct (stripPrefixCI (u "fill") (c :: pre)) as [[? ?]|].
Qed.

(** ** None preservation: the statement *)




(** ** Idempotence: the statement *)




(** The style block pass puts its result in place of the first occurrence
    of the block content inside the match, which can lie in the opening
    tag: the block is then recoloured by the second application only. *)
Lemma style_block_replaced_in_opening_tag :
  replaceStyleBlocks (doc "<style title='fill:red'>fill:red</style>") Fill (u "#fff") true
  = doc "<style title='fill:#fff'>fill:red</style>"
  /\ replaceStyleBlocks
       (replaceStyleBlocks (doc "<style title='fill:red'>fill:red</style>")
          Fill (u "#fff") true) Fill (u "#fff") true
     = doc "<style title='fill:#fff'>fill:#fff</style>".
Proof. split; reflexivity. Qed.

(** ** Attributes of two properties *)



Lemma initial_cases (property : Property) (c : N) :
  ciEq (initial property) c = true ->
  c = initial property \/ c = initial property - 32.
Proof.
  intros Hc. apply (ciEq_letter_cases _ _ Hc). now destruct property.
Qed.


Lemma opener_starts_with_initial (property : Property) (a : str) :
  isOpener property a ->
  exists x a', a = x :: a' /\ ciEq (initial property) x = true.
Proof.
  intros (name & ws1 & ws2 & -> & Hname & _).
  destruct name as [|x name]; [destruct property; discriminate Hname|].
  exists x, (name ++ ws1 ++ EQUALS :: ws2). split; [reflexivity|].
  destruct property; cbn [propertyName u List.map list_ascii_of_string stripPrefixCI]
    in Hname;
    [change (N_of_ascii "f") with 102 in Hname|change (N_of_ascii "s") with 115 in Hname];
    cbn [initial]; now destruct (ciEq _ x).
Qed.







Section OtherAttributePass.
Variables p1 p2 : Property.
Variable color2 : str.
Variable pn2 : bool.
Hypothesis Hdiff : p1 <> p2.
Hypothesis Hcolor2 : validColor color2.


End OtherAttributePass.





(** ** Commutation: the statement *)




(** * Further properties of the library *)

(** ** Colour input *)

Lemma isNoneKeyword_trim (color : str) : isNoneKeyword (trim color) = isNoneKeyword color.
Proof. unfold isNoneKeyword. now rewrite trim_idempotent. Qed.

(** X1. What [validateColorInput] returns is in normal form: it is the
    keyword none in lower case or the trimmed input, a hex colour, and it
    validates to itself. *)
Theorem validated_color_is_normal (color c : str) :
  validateColorInput color = Ok c ->
  c = (if isNoneKeyword color then NONE else trim color)
  /\ (c = NONE \/ HEX_COLOR_PATTERN c = true)
  /\ validateColorInput c = Ok c.
Proof.
  unfold validateColorInput. cbv zeta. fold (isNoneKeyword color).
  destruct (isNoneKeyword color) eqn:Hnone.
  - intros [= <-]. repeat split. now left.
  - destruct (HEX_COLOR_PATTERN (trim color)) eqn:Hhex; [|discriminate].
    intros [= <-]. split; [reflexivity|]. split; [now right|].
    fold (isNoneKeyword (trim color)).
    now rewrite isNoneKeyword_trim, Hnone, trim_idempotent, Hhex.
Qed.

Lemma validated_color_is_normal_witness :
  u "#AbC" = trim (u "  #AbC ")
  /\ (u "#AbC" = NONE \/ HEX_COLOR_PATTERN (u "#AbC") = true)
  /\ validateColorInput (u "#AbC") = Ok (u "#AbC").
Proof.
  apply (validated_color_is_normal (u "  #AbC ") (u "#AbC")). reflexivity.
Defined.

(** ** The target none *)

Section ScanExt.
Variables m1 m2 : str -> option (nat * str).
Hypothesis Hsame : forall s, m1 s = m2 s.


End ScanExt.




(** ** Colours that the transformations return *)

Lemma byte_text (v : Z) :
  (0 <= v <= 255)%Z ->
  exists d1 d2, padStart2 (toString16 v) = [d1; d2]
                /\ isHexDigit d1 = true /\ isHexDigit d2 = true.
Proof.
  intros Hv.
  assert (forallb byteOk (List.map N.of_nat (seq 0 256)) = true) as Htable
    by (vm_compute; reflexivity).
  assert (N.to_nat (Z.to_N v) < 256)%nat as Hbound by lia.
  pose proof (below_cases byteOk 256 Htable (Z.to_N v) Hbound) as Hok.
  unfold byteOk in Hok. rewrite Z2N.id in Hok by lia.
  destruct (padStart2 (toString16 v)) as [|d1 [|d2 [|d3 rest]]]; try discriminate.
  apply andb_true_iff in Hok as [H1 H2]. now exists d1, d2.
Qed.

Lemma clampChannel_range (v : Z) : (0 <= clampChannel v <= 255)%Z.
Proof. unfold clampChannel. lia. Qed.

Lemma hslToRgb_range (color : Hsla) :
  channelInRange (hslToRgb color) /\ a (hslToRgb color) = ha color.
Proof.
  unfold hslToRgb, channelInRange. cbv zeta.
  destruct (Qeq_bool (clamp01 (s color)) 0); cbn [r g b a];
    repeat split; apply clampChannel_range.
Qed.

Open Scope Q_scope.

Lemma clamp_range (x lo hi : Q) : lo <= hi -> lo <= clamp x lo hi /\ clamp x lo hi <= hi.
Proof.
  intros Hle. unfold clamp. split.
  - apply Q.min_glb; [apply Q.le_max_r|assumption].
  - apply Q.le_min_r.
Qed.

Lemma round_unit (x : Q) : 0 <= x -> x <= 1 -> (0 <= round (x * 255) <= 255)%Z.
Proof.
  intros H0 H1. unfold round. split.
  - change 0%Z with (Qfloor 0). apply Qfloor_resp_le. lra.
  - assert (Qfloor (x * 255 + (1 # 2)) <= Qfloor (255 + (1 # 2)))%Z as Hle
      by (apply Qfloor_resp_le; lra).
    exact Hle.
Qed.

Close Scope Q_scope.

Lemma hex_pattern_is_valid (x : str) : HEX_COLOR_PATTERN x = true -> validColor x.
Proof.
  intros Hhex. unfold validColor, validateColorInput. cbv zeta.
  rewrite (hex_is_not_none x Hhex).
  destruct x as [|hash digits]; [discriminate|].
  pose proof Hhex as Hparts. cbn [HEX_COLOR_PATTERN] in Hparts.
  apply andb_true_iff in Hparts as [Hparts _].
  apply andb_true_iff in Hparts as [Hhash Hall].
  apply N.eqb_eq in Hhash. subst hash.
  now rewrite (trim_hex _ Hall), Hhex.
Qed.

(** What [formatHexColor] writes for channels between 0 and 255 and an alpha
    between 0 and 1 is a hex colour of six digits, or of eight with the
    alpha. *)
Lemma formatHexColor_valid (color : Rgba) (includeAlpha : bool) :
  channelInRange color -> (0 <= a color)%Q -> (a color <= 1)%Q ->
  HEX_COLOR_PATTERN (formatHexColor color includeAlpha) = true
  /\ List.length (formatHexColor color includeAlpha) = (if includeAlpha then 9 else 7)%nat.
Proof.
  intros (Hr & Hg & Hb) Ha0 Ha1. unfold formatHexColor. cbv zeta.
  destruct (byte_text _ Hr) as (r1 & r2 & -> & Hr1 & Hr2).
  destruct (byte_text _ Hg) as (g1 & g2 & -> & Hg1 & Hg2).
  destruct (byte_text _ Hb) as (b1 & b2 & -> & Hb1 & Hb2).
  destruct includeAlpha.
  - destruct (byte_text _ (round_unit _ Ha0 Ha1)) as (a1 & a2 & -> & Ha1' & Ha2').
    cbn [app HEX_COLOR_PATTERN forallb List.length].
    rewrite Hr1, Hr2, Hg1, Hg2, Hb1, Hb2, Ha1', Ha2'. split; reflexivity.
  - cbn [app HEX_COLOR_PATTERN forallb List.length].
    rewrite Hr1, Hr2, Hg1, Hg2, Hb1, Hb2. split; reflexivity.
Qed.

Lemma createInactiveColor_on_hex (color : str) (ratio : Q) :
  HEX_COLOR_PATTERN color = true ->
  exists out,
    createInactiveColor color ratio = Ok (Some out)
    /\ HEX_COLOR_PATTERN out = true
    /\ List.length out = (if hasExplicitAlpha color then 9 else 7)%nat.
Proof.
  intros Hhex. destruct (parse_valid_hex color Hhex) as (parsed & Hparse & _ & _).
  unfold createInactiveColor. rewrite (hex_is_not_none _ Hhex), Hparse.
  eexists. split; [reflexivity|].
  destruct (hslToRgb_range (inactiveHsla parsed (clamp ratio 0 1))) as [Hrange Halpha].
  assert (0 <= ha (inactiveHsla parsed (clamp ratio 0 1))
          /\ ha (inactiveHsla parsed (clamp ratio 0 1)) <= 1)%Q as [H0 H1].
  { unfold inactiveHsla. cbn [ha]. apply clamp_range. unfold Qle. simpl. lia. }
  rewrite <- Halpha in H0, H1.
  exact (formatHexColor_valid _ (hasExplicitAlpha color) Hrange H0 H1).
Qed.

(** X3. For a hex colour and any mix ratio, [createInactiveColor] returns a
    hex colour again, one that [validateColorInput] accepts as it is: six
    digits, or eight when the input had an alpha group. *)
Theorem inactive_color_is_a_valid_color (color : str) (ratio : Q) :
  HEX_COLOR_PATTERN color = true ->
  exists out,
    createInactiveColor color ratio = Ok (Some out)
    /\ HEX_COLOR_PATTERN out = true
    /\ validColor out
    /\ List.length out = (if hasExplicitAlpha color then 9 else 7)%nat.
Proof.
  intros Hhex.
  destruct (createInactiveColor_on_hex color ratio Hhex) as (out & Hout & Hpattern & Hlen).
  exists out. repeat split; try assumption. now apply hex_pattern_is_valid.
Qed.

Lemma inactive_color_is_a_valid_color_witness :
  exists out,
    createInactiveColor (u "#3366997f") (1 # 3) = Ok (Some out)
    /\ HEX_COLOR_PATTERN out = true
    /\ validColor out
    /\ List.length out = 9%nat.
Proof.
  apply (inactive_color_is_a_valid_color (u "#3366997f") (1 # 3)). reflexivity.
Defined.

Open Scope Q_scope.

Lemma clamp01_inside (x : Q) : 0 <= x -> x <= 1 -> clamp01 x == x.
Proof.
  intros H0 H1. unfold clamp01, clamp.
  rewrite (Q.max_l x 0 H0). now apply Q.min_l.
Qed.

Lemma clamp_above (x : Q) : 1 <= x -> clamp x 0 1 == 1.
Proof.
  intros H1. unfold clamp. rewrite (Q.max_l x 0) by lra. now apply Q.min_r.
Qed.

Lemma round_of_eq (x y : Q) : x == y -> round x = round y.
Proof. intros Heq. unfold round. now rewrite Heq. Qed.

Lemma lightness_range (color : Rgba) :
  channelInRange color -> 0 <= l (rgbToHsl color) /\ l (rgbToHsl color) <= 1.
Proof.
  intros (Hr & Hg & Hb). unfold rgbToHsl. cbn [l].
  destruct (unit_channel _ Hr) as [Hr0 Hr1].
  destruct (unit_channel _ Hg) as [Hg0 Hg1].
  destruct (unit_channel _ Hb) as [Hb0 Hb1].
  set (rq := inject_Z (r color) / 255) in *.
  set (gq := inject_Z (g color) / 255) in *.
  set (bq := inject_Z (b color) / 255) in *.
  assert (0 <= Qmin (Qmin rq gq) bq) as Hmin0 by (repeat apply Q.min_glb; assumption).
  assert (Qmin (Qmin rq gq) bq <= 1) as Hmin1
    by (apply Qle_trans with bq; [apply Q.le_min_r|assumption]).
  assert (Qmax (Qmax rq gq) bq <= 1) as Hmax1 by (repeat apply Q.max_lub; assumption).
  assert (0 <= Qmax (Qmax rq gq) bq) as Hmax0
    by (apply Qle_trans with bq; [assumption|apply Q.le_max_r]).
  set (max := Qmax (Qmax rq gq) bq) in *. set (min := Qmin (Qmin rq gq) bq) in *.
  clearbody max min. split.
  - apply Qle_shift_div_l; lra.
  - apply Qle_shift_div_r; lra.
Qed.


(** X4. For a hex colour and any mix ratio, the background colour is an
    opaque grey of six digits, the three channels equal, that
    [validateColorInput] accepts; from the mix ratio 1 on it is d9d9d9
    whatever the colour. *)
Theorem inactive_background_is_an_opaque_grey (color : str) (ratio : Q) :
  HEX_COLOR_PATTERN color = true ->
  exists gray,
    (0 <= gray <= 255)%Z
    /\ createInactiveBackgroundColor color ratio
       = Ok (Some (formatHexColor {| r := gray; g := gray; b := gray; a := 1 |} false))
    /\ validColor (formatHexColor {| r := gray; g := gray; b := gray; a := 1 |} false)
    /\ (1 <= ratio -> createInactiveBackgroundColor color ratio = Ok (Some (u "#d9d9d9"))).
Proof.
  intros Hhex. destruct (parse_valid_hex color Hhex) as (parsed & Hparse & Hrange & _).
  unfold createInactiveBackgroundColor. cbv zeta. rewrite Hparse.
  set (target := clamp01 (l (rgbToHsl parsed) * (1 - clamp ratio 0 1)
                          + (85 # 100) * clamp ratio 0 1)).
  assert (hslToRgb {| h := 0; s := 0; l := target; ha := 1 |}
          = {| r := clampChannel (round (clamp01 target * 255));
               g := clampChannel (round (clamp01 target * 255));
               b := clampChannel (round (clamp01 target * 255)); a := 1 |}) as ->
    by reflexivity.
  exists (clampChannel (round (clamp01 target * 255))).
  split; [apply clampChannel_range|]. split; [reflexivity|]. split.
  - apply hex_pattern_is_valid.
    apply (formatHexColor_valid _ false).
    + repeat split; apply clampChannel_range.
    + unfold Qle; simpl; lia.
    + unfold Qle; simpl; lia.
  - intros Hratio.
    pose proof (clamp_above ratio Hratio) as Hq.
    set (q := clamp ratio 0 1) in *.
    assert (l (rgbToHsl parsed) * (1 - q) + (85 # 100) * q == 85 # 100) as Hinner
      by (rewrite Hq; ring).
    assert (target == 85 # 100) as Htarget.
    { unfold target. rewrite clamp01_inside; [exact Hinner|lra|lra]. }
    assert (clamp01 target == 85 # 100) as Hclamped.
    { rewrite clamp01_inside; [exact Htarget|lra|lra]. }
    rewrite (round_of_eq (clamp01 target * 255) ((85 # 100) * 255))
      by now rewrite Hclamped.
    reflexivity.
Qed.

Lemma inactive_background_is_an_opaque_grey_witness :
  exists gray,
    (0 <= gray <= 255)%Z
    /\ createInactiveBackgroundColor (u "#336699") (3 # 2)
       = Ok (Some (formatHexColor {| r := gray; g := gray; b := gray; a := 1 |} false))
    /\ validColor (formatHexColor {| r := gray; g := gray; b := gray; a := 1 |} false)
    /\ (1 <= 3 # 2 ->
        createInactiveBackgroundColor (u "#336699") (3 # 2) = Ok (Some (u "#d9d9d9"))).
Proof.
  apply (inactive_background_is_an_opaque_grey (u "#336699") (3 # 2)). reflexivity.
Defined.
Close Scope Q_scope.

Lemma parsed_alpha_range (x : str) (color : Rgba) :
  HEX_COLOR_PATTERN x = true -> parseHexColor x = Ok (Some color) ->
  (0 <= a color)%Q /\ (a color <= 1)%Q.
Proof.
  intros Hhex. destruct x as [|hash digits]; [discriminate|].
  cbn [HEX_COLOR_PATTERN] in Hhex.
  apply andb_true_iff in Hhex as [Hhex Hlen].
  apply andb_true_iff in Hhex as [Hhash Hall].
  apply N.eqb_eq in Hhash. subst hash.
  unfold parseHexColor, stripHash.
  rewrite (trim_hex _ Hall). change (HASH =? HASH) with true. cbv iota.
  assert ((0 <= 1)%Q /\ (1 <= 1)%Q) as Hone by (split; unfold Qle; simpl; lia).
  destruct digits as [|d1 [|d2 [|d3 [|d4 [|d5 [|d6 [|d7 [|d8 [|d9 rest]]]]]]]]];
    try discriminate Hlen; clear Hlen;
    cbn [forallb] in Hall;
    repeat match type of Hall with
      | (_ && _) = true => let H := fresh "Hd" in apply andb_true_iff in Hall as [H Hall]
      end;
    cbn [List.length Nat.eqb orb negb]; intros [= Hparse]; revert Hparse.
  - unfold parseShortHex. cbn [doubled nth_error List.length Nat.eqb].
    destruct (parse_channel d1 d1 Hd Hd) as (v1 & -> & _).
    destruct (parse_channel d2 d2 Hd0 Hd0) as (v2 & -> & _).
    destruct (parse_channel d3 d3 Hd1 Hd1) as (v3 & -> & _).
    now intros [= <-].
  - unfold parseShortHex. cbn [doubled nth_error List.length Nat.eqb].
    destruct (parse_channel d1 d1 Hd Hd) as (v1 & -> & _).
    destruct (parse_channel d2 d2 Hd0 Hd0) as (v2 & -> & _).
    destruct (parse_channel d3 d3 Hd1 Hd1) as (v3 & -> & _).
    destruct (parse_channel d4 d4 Hd2 Hd2) as (v4 & -> & _ & Hv).
    intros [= <-]. apply (unit_channel v4 Hv).
  - unfold parseLongHex. cbn [slice skipn firstn Nat.sub List.length Nat.eqb].
    destruct (parse_channel d1 d2 Hd Hd0) as (v1 & -> & _).
    destruct (parse_channel d3 d4 Hd1 Hd2) as (v2 & -> & _).
    destruct (parse_channel d5 d6 Hd3 Hd4) as (v3 & -> & _).
    now intros [= <-].
  - unfold parseLongHex. cbn [slice skipn firstn Nat.sub List.length Nat.eqb].
    destruct (parse_channel d1 d2 Hd Hd0) as (v1 & -> & _).
    destruct (parse_channel d3 d4 Hd1 Hd2) as (v2 & -> & _).
    destruct (parse_channel d5 d6 Hd3 Hd4) as (v3 & -> & _).
    destruct (parse_channel d7 d8 Hd5 Hd6) as (v4 & -> & _ & Hv).
    intros [= <-]. apply (unit_channel v4 Hv).
Qed.

Open Scope Q_scope.


Lemma clamp01_below (x : Q) : 0 <= x -> clamp01 x <= x.
Proof.
  intros H0. unfold clamp01, clamp.
  apply Qle_trans with (Qmax x 0); [apply Q.le_min_l|].
  apply Q.max_lub; lra.
Qed.

Lemma clamp01_raised (x y : Q) : x <= 1 -> x <= y -> x <= clamp01 y.
Proof.
  intros H1 Hxy. unfold clamp01, clamp. apply Q.min_glb; [|assumption].
  apply Qle_trans with y; [assumption|apply Q.le_max_l].
Qed.

(** X5. The HSL value from which [createInactiveColor] builds the inactive
    colour of a hex colour keeps the hue of the base colour, is not darker,
    not more saturated and not more opaque than it, at every mix ratio. *)
Theorem inactive_color_is_paler_than_its_base (color : str) (ratio : Q) :
  HEX_COLOR_PATTERN color = true ->
  exists parsed,
    parseHexColor color = Ok (Some parsed)
    /\ createInactiveColor color ratio
       = Ok (Some (formatHexColor (hslToRgb (inactiveHsla parsed (clamp ratio 0 1)))
                     (hasExplicitAlpha color)))
    /\ h (inactiveHsla parsed (clamp ratio 0 1)) = h (rgbToHsl parsed)
    /\ l (rgbToHsl parsed) <= l (inactiveHsla parsed (clamp ratio 0 1))
    /\ s (inactiveHsla parsed (clamp ratio 0 1)) <= s (rgbToHsl parsed)
    /\ ha (inactiveHsla parsed (clamp ratio 0 1)) <= a parsed.
Proof.
  intros Hhex. destruct (parse_valid_hex color Hhex) as (parsed & Hparse & Hrange & _).
  exists parsed. split; [assumption|]. split.
  { unfold createInactiveColor. now rewrite (hex_is_not_none _ Hhex), Hparse. }
  destruct (clamp_range ratio 0 1 ltac:(unfold Qle; simpl; lia)) as [Hq0 Hq1].
  destruct (lightness_range parsed Hrange) as [Hl0 Hl1].
  pose proof (saturation_nonneg parsed Hrange) as Hs0.
  destruct (parsed_alpha_range color parsed Hhex Hparse) as [Ha0 Ha1].
  set (q := clamp ratio 0 1) in *. clearbody q.
  unfold inactiveHsla. cbn [h s l ha]. split; [reflexivity|]. split; [|split].
  - apply clamp01_raised; [assumption|lra].
  - set (sat := s (rgbToHsl parsed)) in *. clearbody sat.
    apply Qle_trans with (sat * (1 - ((3 # 10) + (3 # 10) * q))).
    + apply clamp01_below. nra.
    + nra.
  - change (clamp ?x 0 1) with (clamp01 x).
    set (alpha := a parsed) in *. clearbody alpha.
    apply Qle_trans with (alpha * (1 - (1 # 10) * q)).
    + apply clamp01_below. nra.
    + nra.
Qed.

Lemma inactive_color_is_paler_than_its_base_witness :
  exists parsed,
    parseHexColor (u "#c03") = Ok (Some parsed)
    /\ createInactiveColor (u "#c03") (7 # 10)
       = Ok (Some (formatHexColor (hslToRgb (inactiveHsla parsed (clamp (7 # 10) 0 1)))
                     (hasExplicitAlpha (u "#c03"))))
    /\ h (inactiveHsla parsed (clamp (7 # 10) 0 1)) = h (rgbToHsl parsed)
    /\ l (rgbToHsl parsed) <= l (inactiveHsla parsed (clamp (7 # 10) 0 1))
    /\ s (inactiveHsla parsed (clamp (7 # 10) 0 1)) <= s (rgbToHsl parsed)
    /\ ha (inactiveHsla parsed (clamp (7 # 10) 0 1)) <= a parsed.
Proof.
  apply (inactive_color_is_paler_than_its_base (u "#c03") (7 # 10)). reflexivity.
Defined.
Close Scope Q_scope.

Open Scope Q_scope.

Lemma Qfloor_unit (z : Q) : 0 <= z -> z < 1 -> Qfloor z = 0%Z.
Proof.
  intros H0 H1. pose proof (Qfloor_le z) as Hle. pose proof (Qlt_floor z) as Hlt.
  assert (inject_Z (Qfloor z) < inject_Z 1) as Hup by (change (inject_Z 1) with 1; lra).
  assert (inject_Z (-1) < inject_Z (Qfloor z)) as Hdown.
  { rewrite inject_Z_plus in Hlt. change (inject_Z 1) with 1 in Hlt.
    change (inject_Z (-1)) with (-1 # 1). lra. }
  rewrite <- Zlt_Qlt in Hup, Hdown. lia.
Qed.

Lemma Qtrunc_small (y : Q) : -1 < y -> y < 1 -> Qtrunc y = 0%Z.
Proof.
  intros Hlo Hhi. unfold Qtrunc. destruct (Qle_bool 0 y) eqn:Hsign.
  - apply Qle_bool_iff in Hsign. now apply Qfloor_unit.
  - assert (y < 0) as Hneg.
    { apply Qnot_le_lt. intros Hle. apply Qle_bool_iff in Hle. congruence. }
    rewrite (Qfloor_unit (- y)); [reflexivity|lra|lra].
Qed.

Lemma jsRem_small (x : Q) : -1 <= x -> x <= 1 -> jsRem x 6 == x.
Proof.
  intros Hlo Hhi. unfold jsRem. rewrite (Qtrunc_small (x / 6)).
  - change (inject_Z 0) with 0. ring.
  - apply Qlt_shift_div_l; lra.
  - apply Qlt_shift_div_r; lra.
Qed.

Lemma Qlt_bool_spec (x y : Q) : Qlt_bool x y = true <-> x < y.
Proof.
  unfold Qlt_bool. rewrite negb_true_iff. split.
  - intros Hb. apply Qnot_le_lt. intros Hle. apply Qle_bool_iff in Hle. congruence.
  - intros Hlt. destruct (Qle_bool y x) eqn:Hb; [|reflexivity].
    apply Qle_bool_iff in Hb. lra.
Qed.



Close Scope Q_scope.

(** ** The variant generator: mix, primary colour, colourless requests *)

Open Scope Q_scope.


Close Scope Q_scope.

Lemma normalizeColor_some (color : option str) (c : str) :
  normalizeColor color = Some c -> color = Some c /\ c <> [] /\ isNoneKeyword c = false.
Proof.
  unfold normalizeColor, truthy. destruct color as [[|x t]|]; try discriminate.
  destruct (isNoneKeyword (x :: t)) eqn:Hnone; [discriminate|].
  intros [= <-]. repeat split; [discriminate|assumption].
Qed.

Lemma normalizeColor_none (color : option str) :
  normalizeColor color = None ->
  color = None \/ color = Some [] \/ exists c, color = Some c /\ isNoneKeyword c = true.
Proof.
  unfold normalizeColor, truthy. destruct color as [[|x t]|]; auto.
  destruct (isNoneKeyword (x :: t)) eqn:Hnone; [|discriminate].
  intros _. right. right. now exists (x :: t).
Qed.

(** X8. The primary colour is never the keyword none and never empty: it is
    the fill when the fill is a colour, and otherwise the stroke when the
    stroke is one. *)
Theorem primary_color_is_a_color_fill_first (fill stroke : option str) (c : str) :
  pickPrimaryColor fill stroke = Some c ->
  c <> [] /\ isNoneKeyword c = false
  /\ (fill = Some c \/ (normalizeColor fill = None /\ stroke = Some c)).
Proof.
  unfold pickPrimaryColor.
  destruct (normalizeColor fill) as [f|] eqn:Hfill.
  - intros [= ->]. destruct (normalizeColor_some _ _ Hfill) as (-> & Hc & Hnone).
    repeat split; try assumption. now left.
  - destruct (normalizeColor stroke) as [s|] eqn:Hstroke; [|discriminate].
    intros [= ->]. destruct (normalizeColor_some _ _ Hstroke) as (-> & Hc & Hnone).
    repeat split; try assumption. now right.
Qed.

Lemma primary_color_is_a_color_fill_first_witness :
  u "#00ffcc" <> [] /\ isNoneKeyword (u "#00ffcc") = false
  /\ (Some (u " NONE ") = Some (u "#00ffcc")
      \/ (normalizeColor (Some (u " NONE ")) = None
          /\ Some (u "#00ffcc") = Some (u "#00ffcc"))).
Proof.
  apply (primary_color_is_a_color_fill_first (Some (u " NONE ")) (Some (u "#00ffcc"))).
  reflexivity.
Defined.

Lemma transformInactiveColor_without_color (color : option str) (mix : Q) :
  normalizeColor color = None -> transformInactiveColor color mix = Ok (Some color).
Proof.
  unfold normalizeColor, transformInactiveColor.
  destruct (truthy color) as [c|]; [|reflexivity].
  destruct (isNoneKeyword c); [reflexivity|discriminate].
Qed.

(** X9. When neither the fill nor the stroke is a colour (each absent, empty
    or the keyword none), the generator returns two variants with the same
    SVG and the same fill and stroke: the inactive variant has no background
    colour and no rectangle is inserted. *)
Theorem colourless_request_gives_equal_variants (options : GenerateVariantsOptions) :
  ensureValidSvg (svgContent options) = Ok tt ->
  orDefault (generateInactive options) true = true ->
  normalizeColor (fill options) = None ->
  normalizeColor (stroke options) = None ->
  exists recolored,
    recolored
    = recolorVivaldiSvg (svgContent options)
        {| ro_fill := fill options; ro_stroke := stroke options;
           ro_preserveFillNone := Some (orDefault (preserveFillNone options) true);
           ro_preserveStrokeNone := Some (orDefault (preserveStrokeNone options) true) |}
    /\ generateIconVariants options
       = Ok (Some [ {| name := u "active"; svg := recolored;
                       variantFill := fill options; variantStroke := stroke options;
                       backgroundColor := None |};
                    {| name := u "inactive"; svg := recolored;
                       variantFill := fill options; variantStroke := stroke options;
                       backgroundColor := None |} ]).
Proof.
  intros Hvalid Hinactive Hfill Hstroke. eexists. split; [reflexivity|].
  unfold generateIconVariants. cbv zeta. rewrite Hvalid, Hinactive. cbn [negb].
  rewrite (transformInactiveColor_without_color _ _ Hfill).
  rewrite (transformInactiveColor_without_color _ _ Hstroke).
  unfold pickPrimaryColor. rewrite Hfill, Hstroke. reflexivity.
Qed.

Lemma colourless_request_gives_equal_variants_witness :
  exists recolored,
    recolored
    = recolorVivaldiSvg sampleIcon
        {| ro_fill := Some (u "none"); ro_stroke := None;
           ro_preserveFillNone := Some true; ro_preserveStrokeNone := Some true |}
    /\ generateIconVariants
         {| svgContent := sampleIcon; fill := Some (u "none"); stroke := None;
            preserveFillNone := None; preserveStrokeNone := None;
            generateInactive := None; inactiveMix := None;
            inactiveCornerRadius := None; inactiveBackgroundInsetRatio := None |}
       = Ok (Some [ {| name := u "active"; svg := recolored;
                       variantFill := Some (u "none"); variantStroke := None;
                       backgroundColor := None |};
                    {| name := u "inactive"; svg := recolored;
                       variantFill := Some (u "none"); variantStroke := None;
                       backgroundColor := None |} ]).
Proof.
  apply (colourless_request_gives_equal_variants
           {| svgContent := sampleIcon; fill := Some (u "none"); stroke := None;
              preserveFillNone := None; preserveStrokeNone := None;
              generateInactive := None; inactiveMix := None;
              inactiveCornerRadius := None; inactiveBackgroundInsetRatio := None |});
    reflexivity.
Defined.

(** ** The background rectangle: where it goes *)

Lemma rectElementFor_without_dollar (svgText color : str) (cornerRadius : number)
    (insetRatio : Q) :
  free isDollar color = true ->
  free isDollar (rectElementFor svgText color cornerRadius insetRatio) = true.
Proof.
  intros Hcolor.
  destruct (rectElementFor_middle svgText color cornerRadius insetRatio)
    as (x & y & w & hgt & -> & Hfree).
  destruct (Hfree isDollar plainFor_dollar) as (Hx & Hy & Hw & Hh).
  rewrite !free_app, (rectMiddle_free isDollar x y w hgt _ color plainFor_dollar);
    try assumption; [reflexivity|].
  apply (number_text_free isDollar _ plainFor_dollar), numberToString_chars.
Qed.

Lemma searchFirst_parts (matchLen : str -> option nat) (s before m after : str) :
  searchFirst matchLen s = Some (before, m, after) -> s = before ++ m ++ after.
Proof.
  intros Hsearch.
  destruct (searchFirst_some matchLen _ _ _ _ Hsearch)
    as (len & _ & -> & -> & Hsplit & _).
  rewrite firstn_skipn. exact Hsplit.
Qed.

(** X10. When the text holds no marked rectangle and its first opening svg
    tag holds no dollar sign, the injector returns the text with a line
    feed, two spaces and the rectangle put right behind that tag; the text
    in front of the tag, the tag and the text behind it stay as they
    are. *)
Theorem rectangle_is_inserted_behind_the_opening_tag
    (svgText color : str) (cornerRadius : number) (insetRatio : Q)
    (front tag back : str) :
  searchFirst rectPattern svgText = None ->
  searchFirst svgOpenTagPattern svgText = Some (front, tag, back) ->
  free isDollar tag = true -> free isDollar color = true ->
  svgText = front ++ tag ++ back
  /\ addOrUpdateBackgroundRect svgText color cornerRadius insetRatio
     = Ok (front ++ tag ++ [10; 32; 32]
           ++ rectElementFor svgText color cornerRadius insetRatio ++ back).
Proof.
  intros Hrect Htag Hdollar Hcolor.
  pose proof (searchFirst_parts _ _ _ _ _ Htag) as Hs. split; [exact Hs|].
  unfold addOrUpdateBackgroundRect. cbv zeta. rewrite Hrect, Htag.
  unfold replaceString.
  destruct (findSub tag svgText) as [[front' back']|] eqn:Hfind.
  - destruct (opening_tag_found_in_place _ _ _ _ _ _ Htag Hfind) as [-> ->].
    rewrite getSubstitution_plain.
    + now rewrite <- !app_assoc.
    + rewrite free_app, Hdollar, free_app.
      now rewrite (rectElementFor_without_dollar _ _ _ _ Hcolor).
  - exfalso. rewrite Hs in Hfind. now apply (findSub_found _ _ _ Hfind).
Qed.

Lemma rectangle_is_inserted_behind_the_opening_tag_witness :
  doc "<?xml version='1.0'?><svg viewBox='0 0 24 24'><path d='M0 0'/></svg>"
  = doc "<?xml version='1.0'?>" ++ doc "<svg viewBox='0 0 24 24'>"
    ++ doc "<path d='M0 0'/></svg>"
  /\ addOrUpdateBackgroundRect
       (doc "<?xml version='1.0'?><svg viewBox='0 0 24 24'><path d='M0 0'/></svg>")
       (u "#d9d9d9") (Num 6) (1 # 10)
     = Ok (doc "<?xml version='1.0'?>" ++ doc "<svg viewBox='0 0 24 24'>" ++ [10; 32; 32]
           ++ rectElementFor
                (doc "<?xml version='1.0'?><svg viewBox='0 0 24 24'><path d='M0 0'/></svg>")
                (u "#d9d9d9") (Num 6) (1 # 10)
           ++ doc "<path d='M0 0'/></svg>").
Proof.
  apply (rectangle_is_inserted_behind_the_opening_tag
           (doc "<?xml version='1.0'?><svg viewBox='0 0 24 24'><path d='M0 0'/></svg>")
           (u "#d9d9d9") (Num 6) (1 # 10)); reflexivity.
Defined.

(** X11. When the text holds a marked rectangle, the injector replaces the
    first one by the new rectangle and leaves the text in front of it and
    behind it as it is; it does so whether or not the text has an opening
    svg tag. *)
Theorem marked_rectangle_is_replaced_where_it_stands
    (svgText color : str) (cornerRadius : number) (insetRatio : Q)
    (before old after : str) :
  searchFirst rectPattern svgText = Some (before, old, after) ->
  free isDollar color = true ->
  svgText = before ++ old ++ after
  /\ isRectLike old
  /\ addOrUpdateBackgroundRect svgText color cornerRadius insetRatio
     = Ok (before ++ rectElementFor svgText color cornerRadius insetRatio ++ after).
Proof.
  intros Hrect Hcolor.
  pose proof (searchFirst_parts _ _ _ _ _ Hrect) as Hs. split; [exact Hs|]. split.
  - destruct (searchFirst_some rectPattern _ _ _ _ Hrect)
      as (len & Hmatch & Hold & _ & _ & _).
    destruct (rectPattern_sound _ _ Hmatch) as (m & rest & Hrest & -> & Hm).
    rewrite Hold, Hrest. now destruct (firstn_skipn_exact m rest) as [-> _].
  - unfold addOrUpdateBackgroundRect. cbv zeta. rewrite Hrect.
    now rewrite (getSubstitution_plain _ _ _ _
                   (rectElementFor_without_dollar _ _ _ _ Hcolor)).
Qed.

Lemma marked_rectangle_is_replaced_where_it_stands_witness :
  doc "<g><RECT id='bg' data-vivaldi-inactive-bg='true' /><rect data-vivaldi-inactive-bg='true'/></g>"
  = doc "<g>" ++ doc "<RECT id='bg' data-vivaldi-inactive-bg='true' />"
    ++ doc "<rect data-vivaldi-inactive-bg='true'/></g>"
  /\ isRectLike (doc "<RECT id='bg' data-vivaldi-inactive-bg='true' />")
  /\ addOrUpdateBackgroundRect
       (doc "<g><RECT id='bg' data-vivaldi-inactive-bg='true' /><rect data-vivaldi-inactive-bg='true'/></g>")
       (u "none") (Num 0) 0
     = Ok (doc "<g>"
           ++ rectElementFor
                (doc "<g><RECT id='bg' data-vivaldi-inactive-bg='true' /><rect data-vivaldi-inactive-bg='true'/></g>")
                (u "none") (Num 0) 0
           ++ doc "<rect data-vivaldi-inactive-bg='true'/></g>").
Proof.
  apply (marked_rectangle_is_replaced_where_it_stands
           (doc "<g><RECT id='bg' data-vivaldi-inactive-bg='true' /><rect data-vivaldi-inactive-bg='true'/></g>")
           (u "none") (Num 0) 0); reflexivity.
Defined.

(** ** Reading the viewBox *)

Lemma viewBoxSearch_unfold (s : str) :
  viewBoxSearch s
  = match viewBoxPattern s with
    | Some (value, _) => Some value
    | None => match s with [] => None | _ :: t => viewBoxSearch t end
    end.
Proof. now destruct s. Qed.

Lemma viewBoxSearch_first (pre value post : str) :
  findSubCI VIEWBOX_OPEN pre = None -> value <> [] -> free isQuote value = true ->
  viewBoxSearch (pre ++ VIEWBOX_OPEN ++ value ++ QUOTE :: post) = Some value.
Proof.
  intros Habsent Hvalue Hfree.
  assert (viewBoxPattern (VIEWBOX_OPEN ++ value ++ QUOTE :: post)
          = Some (value, S (List.length VIEWBOX_OPEN + List.length value))) as Hhere.
  { unfold viewBoxPattern. fold VIEWBOX_OPEN.
    rewrite (stripPrefixCI_app VIEWBOX_OPEN VIEWBOX_OPEN _ eq_refl).
    rewrite (span_stop (fun c => c =? QUOTE) value QUOTE post Hfree eq_refl).
    destruct value; [congruence|reflexivity]. }
  assert (forall a b, pre = a ++ b ->
            viewBoxSearch (b ++ VIEWBOX_OPEN ++ value ++ QUOTE :: post) = Some value)
    as Hall.
  { intros a b. revert a. induction b as [|c b IH]; intros a Hsplit.
    - cbn [app]. rewrite viewBoxSearch_unfold. now rewrite Hhere.
    - cbn [app viewBoxSearch].
      assert (viewBoxPattern (c :: b ++ VIEWBOX_OPEN ++ value ++ QUOTE :: post) = None)
        as ->.
      { unfold viewBoxPattern. fold VIEWBOX_OPEN.
        pose proof (absent_word_does_not_start VIEWBOX_OPEN pre a (c :: b) 118
                      (tl VIEWBOX_OPEN ++ value ++ QUOTE :: post) Habsent Hsplit
                      ltac:(discriminate) eq_refl) as Hstart.
        unfold startsCI in Hstart.
        change ((c :: b) ++ 118 :: tl VIEWBOX_OPEN ++ value ++ QUOTE :: post)
          with (c :: b ++ VIEWBOX_OPEN ++ value ++ QUOTE :: post) in Hstart.
        now destruct (stripPrefixCI VIEWBOX_OPEN _) as [[? ?]|]. }
      apply (IH (a ++ [c])). now rewrite <- app_assoc. }
  exact (Hall [] pre eq_refl).
Qed.

Lemma splitWsFrom_free (inGap : bool) (s : str) :
  s <> [] -> free isSpace s = true -> splitWsFrom inGap s = [s].
Proof.
  revert inGap. induction s as [|c s IH]; intros inGap Hs Hfree; [congruence|].
  cbn in Hfree. apply andb_true_iff in Hfree as [Hc Hfree]. apply negb_true_iff in Hc.
  cbn [splitWsFrom]. rewrite Hc. destruct s as [|d s]; [reflexivity|].
  now rewrite (IH false ltac:(discriminate) Hfree).
Qed.

Lemma trim_without_space (s : str) : free isSpace s = true -> trim s = s.
Proof.
  intros Hfree. apply trim_of_trimmed. unfold isTrimmed.
  destruct s as [|c s]; [reflexivity|].
  assert (forall x, In x (c :: s) -> isSpace x = false) as Hall.
  { intros x Hx. unfold free in Hfree. rewrite forallb_forall in Hfree.
    now apply negb_true_iff, Hfree. }
  rewrite (Hall c (or_introl eq_refl)).
  rewrite (Hall (last (c :: s) 0) (last_in (c :: s) ltac:(discriminate))).
  reflexivity.
Qed.

(** X12. A viewBox attribute whose value holds no white space (numbers
    separated by commas only, for one) is not read. *)
Theorem viewBox_without_white_space_is_not_read (pre value post : str) :
  findSubCI VIEWBOX_OPEN pre = None -> value <> [] ->
  free isQuote value = true -> free isSpace value = true ->
  extractViewBox (pre ++ VIEWBOX_OPEN ++ value ++ QUOTE :: post) = None.
Proof.
  intros Habsent Hvalue Hquote Hspace.
  unfold extractViewBox. rewrite (viewBoxSearch_first pre value post Habsent Hvalue Hquote).
  rewrite (trim_without_space value Hspace). unfold splitWs.
  now rewrite (splitWsFrom_free false value Hvalue Hspace).
Qed.

Lemma viewBox_without_white_space_is_not_read_witness :
  extractViewBox (doc "<svg " ++ VIEWBOX_OPEN ++ u "0,0,24,24" ++ QUOTE :: u ">") = None.
Proof.
  apply (viewBox_without_white_space_is_not_read (doc "<svg ") (u "0,0,24,24") (u ">"));
    try reflexivity. discriminate.
Defined.

(** ** Integers as text *)










Lemma takeWhile_all (p : N -> bool) (s : str) :
  forallb p s = true -> takeWhile p s = s /\ dropWhile p s = [].
Proof.
  induction s as [|c s IH]; [now split|]. cbn. intros H.
  apply andb_true_iff in H as [-> Hs]. destruct (IH Hs) as [-> ->]. now split.
Qed.












(** ** The command line: what parseArgs hands on *)

Lemma parseLoop_step (arg : str) (rest : list str) (raw : RawCliOptions) :
  parseLoop (arg :: rest) raw
  = let value := hd_error rest in
    let goOn := parseLoop (tl rest) in
    if isFlag arg ["-h"; "--help"]%string then HelpExit
    else if isFlag arg ["-i"; "--input"]%string then
      andThen (requireValue value arg) (fun v => goOn (assign raw (SetInput v)))
    else if isFlag arg ["--icon"]%string then
      andThen (requireValue value arg) (fun v =>
      andThen (parsePreset v) (fun preset => goOn (assign raw (SetIconPreset preset))))
    else if isFlag arg ["-o"; "--output"]%string then
      andThen (requireValue value arg) (fun v => goOn (assign raw (SetOutput v)))
    else if isFlag arg ["-f"; "--fill"]%string then
      andThen (requireValue value arg) (fun v =>
      andThen (ofResult (validateColorInput v)) (fun color =>
        goOn (assign raw (SetFill color))))
    else if isFlag arg ["-s"; "--stroke"]%string then
      andThen (requireValue value arg) (fun v =>
      andThen (ofResult (validateColorInput v)) (fun color =>
        goOn (assign raw (SetStroke color))))
    else if isFlag arg ["--overwrite"]%string then
      parseLoop rest (assign raw (SetOverwrite true))
    else if isFlag arg ["--no-preserve-fill-none"]%string then
      parseLoop rest (assign raw (SetPreserveFillNone false))
    else if isFlag arg ["--no-preserve-stroke-none"]%string then
      parseLoop rest (assign raw (SetPreserveStrokeNone false))
    else if isFlag arg ["--no-inactive"]%string then
      parseLoop rest (assign raw (SetGenerateInactive false))
    else if isFlag arg ["--inactive-mix"]%string then
      andThen (requireValue value arg) (fun v =>
      andThen (parseInactiveMix v) (fun mix => goOn (assign raw (SetInactiveMix mix))))
    else Throws (UnknownArgument arg).
Proof. destruct rest as [|v behind]; reflexivity. Qed.

Lemma andThen_returns {A B : Type} (o : outcome A) (k : A -> outcome B) (b : B) :
  andThen o k = Returns b -> exists a, o = Returns a /\ k a = Returns b.
Proof. destruct o as [a| |]; try discriminate. intros H. now exists a. Qed.

Lemma validated_is_valid (color c : str) : validateColorInput color = Ok c -> validColor c.
Proof.
  unfold validColor, validateColorInput. cbv zeta. fold (isNoneKeyword color).
  destruct (isNoneKeyword color) eqn:Hnone.
  - intros [= <-]. reflexivity.
  - destruct (HEX_COLOR_PATTERN (trim color)) eqn:Hhex; [|discriminate].
    intros [= <-]. fold (isNoneKeyword (trim color)).
    now rewrite isNoneKeyword_trim, Hnone, trim_idempotent, Hhex.
Qed.

Lemma parsePreset_returns (preset p : str) :
  parsePreset preset = Returns p -> p = u "black" \/ p = u "line".
Proof.
  unfold parsePreset. cbv zeta.
  destruct (streq (toLowerCase preset) (u "black")) eqn:Hblack.
  - intros [= <-]. left. now apply streq_eq.
  - destruct (streq (toLowerCase preset) (u "line")) eqn:Hline; [|discriminate].
    intros [= <-]. right. now apply streq_eq.
Qed.

Lemma parseInactiveMix_returns (value : str) (mix : number) :
  parseInactiveMix value = Returns mix ->
  mix = Number value /\ exists q, mix = Num q /\ (0 <= q)%Q /\ (q <= 1)%Q.
Proof.
  unfold parseInactiveMix. cbv zeta. destruct (Number value) as [| |q]; try discriminate.
  destruct (Qlt_bool q 0) eqn:Hlow; [discriminate|].
  destruct (Qlt_bool 1 q) eqn:Hhigh; [discriminate|]. intros [= <-].
  split; [reflexivity|]. exists q. split; [reflexivity|].
  split; apply Qnot_lt_le; intros Hlt; apply Qlt_bool_spec in Hlt; congruence.
Qed.

Lemma assign_usable (raw : RawCliOptions) (a : Assignment) :
  usableOptions raw -> usableAssignment a -> usableOptions (assign raw a).
Proof.
  intros (Hfill & Hstroke & Hmix & Hpreset) Ha.
  destruct a; cbn in Ha; repeat split; cbn [assign raw_fill raw_stroke raw_inactiveMix
    raw_iconPreset]; try assumption;
    try (intros ? [= <-]; assumption).
Qed.

Lemma parseLoop_keeps_usable (argv : list str) :
  forall raw out, usableOptions raw -> parseLoop argv raw = Returns out -> usableOptions out.
Proof.
  induction argv as [argv IH] using (induction_ltof1 _ (@List.length str)).
  unfold ltof in IH. intros raw out Hraw. destruct argv as [|arg rest].
  - now intros [= <-].
  - assert (forall a raw', usableAssignment a ->
              parseLoop (tl rest) (assign raw a) = Returns raw' -> usableOptions raw')
      as Hvalue.
    { intros a raw' Ha. apply IH; [destruct rest; cbn; lia|now apply assign_usable]. }
    assert (forall a raw', usableAssignment a ->
              parseLoop rest (assign raw a) = Returns raw' -> usableOptions raw')
      as Hswitch.
    { intros a raw' Ha. apply IH; [cbn; lia|now apply assign_usable]. }
    rewrite parseLoop_step. cbv zeta.
    repeat match goal with
           | |- (if ?b then _ else _) = _ -> _ => destruct b
           end;
      try discriminate;
      try (apply (Hswitch (SetOverwrite true)); exact I);
      try (apply (Hswitch (SetPreserveFillNone false)); exact I);
      try (apply (Hswitch (SetPreserveStrokeNone false)); exact I);
      try (apply (Hswitch (SetGenerateInactive false)); exact I);
      intros Hrun;
      repeat match type of Hrun with
             | andThen _ _ = Returns _ =>
                 let x := fresh "x" in
                 let Hx := fresh "Hx" in
                 apply andThen_returns in Hrun as (x & Hx & Hrun)
             end.
    + apply (Hvalue (SetInput x) _ I Hrun).
    + apply (Hvalue (SetIconPreset x0) _ (parsePreset_returns _ _ Hx0) Hrun).
    + apply (Hvalue (SetOutput x) _ I Hrun).
    + apply (Hvalue (SetFill x0) _); [|exact Hrun].
      cbn. destruct (validateColorInput x) eqn:Hv; [|discriminate].
      injection Hx0 as <-. exact (validated_is_valid _ _ Hv).
    + apply (Hvalue (SetStroke x0) _); [|exact Hrun].
      cbn. destruct (validateColorInput x) eqn:Hv; [|discriminate].
      injection Hx0 as <-. exact (validated_is_valid _ _ Hv).
    + apply (Hvalue (SetInactiveMix x0) _); [|exact Hrun].
      exact (proj2 (parseInactiveMix_returns _ _ Hx0)).
Qed.

Lemma initialOptions_usable : usableOptions initialOptions.
Proof.
  repeat split; cbn; try discriminate.
  exists (1 # 2)%Q. repeat split; unfold Qle; cbn; lia.
Qed.

(** X15. The options that parseArgs returns name at least one colour; each
    colour is in the form validateColorInput returns (the keyword none or a
    hex colour), the mix is a number from 0 to 1 and a preset is black or
    line. *)
Theorem parseArgs_returns_usable_options (argv : list str) (raw : RawCliOptions) :
  parseArgs argv = Returns raw ->
  ((exists c, raw_fill raw = Some c) \/ (exists c, raw_stroke raw = Some c))
  /\ (forall c, raw_fill raw = Some c -> validColor c)
  /\ (forall c, raw_stroke raw = Some c -> validColor c)
  /\ (exists q, raw_inactiveMix raw = Num q /\ (0 <= q)%Q /\ (q <= 1)%Q)
  /\ (forall preset, raw_iconPreset raw = Some preset ->
        preset = u "black" \/ preset = u "line").
Proof.
  unfold parseArgs. destruct argv as [|arg rest]; [discriminate|]. intros Hrun.
  apply andThen_returns in Hrun as (out & Hloop & Hcheck).
  pose proof (parseLoop_keeps_usable _ _ _ initialOptions_usable Hloop) as Husable.
  assert (out = raw) as ->.
  { destruct (truthy (raw_fill out)), (truthy (raw_stroke out)); congruence. }
  split; [|exact Husable].
  unfold truthy in Hcheck.
  destruct (raw_fill raw) as [[|x f]|]; [| left; now eexists |];
    (destruct (raw_stroke raw) as [[|y t]|]; [| right; now eexists |]); discriminate.
Qed.

Lemma parseArgs_returns_usable_options_witness :
  ((exists c, raw_fill (assign initialOptions (SetFill (u "#FF0000"))) = Some c)
   \/ (exists c, raw_stroke (assign initialOptions (SetFill (u "#FF0000"))) = Some c))
  /\ (forall c, raw_fill (assign initialOptions (SetFill (u "#FF0000"))) = Some c ->
        validColor c)
  /\ (forall c, raw_stroke (assign initialOptions (SetFill (u "#FF0000"))) = Some c ->
        validColor c)
  /\ (exists q, raw_inactiveMix (assign initialOptions (SetFill (u "#FF0000"))) = Num q
                /\ (0 <= q)%Q /\ (q <= 1)%Q)
  /\ (forall preset,
        raw_iconPreset (assign initialOptions (SetFill (u "#FF0000"))) = Some preset ->
        preset = u "black" \/ preset = u "line").
Proof.
  apply (parseArgs_returns_usable_options [u "--fill"; u " #FF0000 "]). reflexivity.
Defined.

(** ** The generator on validated colours *)






(** ** The command line: arguments from left to right *)

Lemma requireValue_returns (value : option str) (flag v : str) :
  requireValue value flag = Returns v -> value = Some v /\ v <> [].
Proof.
  unfold requireValue, truthy. destruct value as [[|x t]|]; try discriminate.
  intros [= <-]. split; [reflexivity|discriminate].
Qed.

Lemma parseLoop_app (front : list str) :
  forall rest raw0 raw1,
    parseLoop front raw0 = Returns raw1 ->
    parseLoop (front ++ rest) raw0 = parseLoop rest raw1.
Proof.
  induction front as [front IH] using (induction_ltof1 _ (@List.length str)).
  unfold ltof in IH. intros rest raw0 raw1. destruct front as [|arg more].
  - now intros [= <-].
  - assert (forall raw, parseLoop more raw = Returns raw1 ->
              parseLoop (more ++ rest) raw = parseLoop rest raw1) as Hswitch.
    { intros raw. apply IH. cbn. lia. }
    destruct more as [|v behind].
    + cbn [app]. rewrite (parseLoop_step arg rest). cbn [parseLoop]. cbv zeta.
      repeat match goal with
             | |- (if ?b then _ else _) = _ -> _ => destruct b
             end;
        try discriminate; try (intros [= <-]; reflexivity).
    + assert (forall raw, parseLoop behind raw = Returns raw1 ->
                parseLoop (behind ++ rest) raw = parseLoop rest raw1) as Hvalue.
      { intros raw. apply IH. cbn. lia. }
      specialize (Hswitch). cbn [app] in *.
      rewrite (parseLoop_step arg (v :: behind)),
        (parseLoop_step arg (v :: behind ++ rest)).
      cbv zeta. cbn [hd_error tl].
      repeat match goal with
             | |- (if ?b then _ else _) = _ -> _ => destruct b
             end;
        try discriminate; try (apply Hswitch);
        destruct (requireValue (Some v) arg) as [x| |]; cbn [andThen];
        try discriminate; try (apply Hvalue).
      * destruct (parsePreset x); cbn [andThen]; try discriminate. apply Hvalue.
      * destruct (ofResult (validateColorInput x)); cbn [andThen]; try discriminate.
        apply Hvalue.
      * destruct (ofResult (validateColorInput x)); cbn [andThen]; try discriminate.
        apply Hvalue.
      * destruct (parseInactiveMix x); cbn [andThen]; try discriminate. apply Hvalue.
Qed.

(** X17. Arguments are read from left to right: when the front of the
    argument list is read without an exception and without help, the whole
    list is read as its rest is, from the options reached. So a help flag
    behind such a front ends the run with the help text, whatever follows it
    and whether or not a colour was given. *)
Theorem help_behind_good_arguments_wins (front rest : list str) (raw : RawCliOptions) :
  parseLoop front initialOptions = Returns raw ->
  parseLoop (front ++ rest) initialOptions = parseLoop rest raw
  /\ parseArgs (front ++ u "--help" :: rest) = HelpExit
  /\ parseArgs (front ++ u "-h" :: rest) = HelpExit.
Proof.
  intros Hfront. split; [now apply parseLoop_app|].
  unfold parseArgs.
  split;
    (destruct (front ++ _ :: rest) eqn:Hlist;
     [now destruct front|]; rewrite <- Hlist;
     rewrite (parseLoop_app front _ _ _ Hfront), parseLoop_step; reflexivity).
Qed.

Lemma help_behind_good_arguments_wins_witness :
  parseLoop ([u "--overwrite"; u "--fill"; u "#fff"] ++ [u "--bogus"]) initialOptions
  = parseLoop [u "--bogus"]
      (assign (assign initialOptions (SetOverwrite true)) (SetFill (u "#fff")))
  /\ parseArgs ([u "--overwrite"; u "--fill"; u "#fff"] ++ u "--help" :: [u "--bogus"])
     = HelpExit
  /\ parseArgs ([u "--overwrite"; u "--fill"; u "#fff"] ++ u "-h" :: [u "--bogus"])
     = HelpExit.
Proof.
  apply (help_behind_good_arguments_wins [u "--overwrite"; u "--fill"; u "#fff"]
           [u "--bogus"]).
  reflexivity.
Defined.

(** ** The command line: the suffix of the file name *)

Lemma isHexDigit_alphanumeric (c : N) :
  isHexDigit c = true -> isAlphanumeric c = true /\ isHyphen c = false.
Proof.
  intros H.
  pose proof (below_cases
                (fun c => implb (isHexDigit c) (isAlphanumeric c && negb (isHyphen c)))
                103 eq_refl c (isHexDigit_bound _ H)) as Hc.
  cbv beta in Hc. rewrite H in Hc. cbn [implb] in Hc.
  apply andb_true_iff in Hc as [Ha Hh]. now apply negb_true_iff in Hh.
Qed.

Lemma sanitizeForSuffix_hex (digits : str) :
  forallb isHexDigit digits = true -> sanitizeForSuffix (HASH :: digits) = digits.
Proof.
  intros Hall. rewrite forallb_forall in Hall.
  assert (forall a b, digits = a ++ b ->
            takeWhile (fun c => negb (isAlphanumeric c)) b = []
            /\ takeWhile isHyphen b = []) as Hsuffix.
  { intros a [|x b] ->; [now split|]. cbn [takeWhile].
    destruct (isHexDigit_alphanumeric x (Hall x ltac:(apply in_or_app; right; now left)))
      as [-> ->]. now split. }
  assert (replaceAll otherRun (HASH :: digits) = MINUS :: digits) as Hfirst.
  { assert (otherRun (HASH :: digits) = Some (1%nat, u "-")) as Hmatch.
    { unfold otherRun. cbn [takeWhile]. change (negb (isAlphanumeric HASH)) with true.
      cbv iota. now rewrite (proj1 (Hsuffix [] digits eq_refl)). }
    assert (1 <= 1)%nat as Hlen by lia.
    assert (HASH :: digits <> []) as Hne by discriminate.
    rewrite (replaceAll_hit otherRun (HASH :: digits) 1 (u "-") Hmatch Hlen Hne).
    cbn [skipn]. change (u "-") with [MINUS]. cbn [app]. f_equal.
    apply replaceAll_no_match. intros a b Hb. unfold otherRun.
    now rewrite (proj1 (Hsuffix a b Hb)). }
  unfold sanitizeForSuffix. rewrite Hfirst. unfold stripHyphens.
  cbn [takeWhile]. change (isHyphen MINUS) with true. cbv iota.
  rewrite (proj2 (Hsuffix [] digits eq_refl)). cbn [List.length scanFrom].
  change (scanFrom trailingHyphens 0 digits) with (replaceAll trailingHyphens digits).
  apply replaceAll_no_match. intros a b Hb. unfold trailingHyphens.
  now rewrite (proj2 (Hsuffix a b Hb)).
Qed.

Lemma sanitizeForSuffix_valid (c : str) : validColor c -> sanitizeForSuffix c = stripHash c.
Proof.
  intros Hvalid. destruct (validColor_cases c Hvalid) as [->|Hhex]; [reflexivity|].
  destruct c as [|hash digits]; [discriminate|].
  cbn [HEX_COLOR_PATTERN] in Hhex. apply andb_true_iff in Hhex as [Hhex _].
  apply andb_true_iff in Hhex as [Hhash Hall]. apply N.eqb_eq in Hhash. subst hash.
  unfold stripHash. rewrite (trim_hex _ Hall). change (HASH =? HASH) with true. cbv iota.
  now apply sanitizeForSuffix_hex.
Qed.

(** X18. For colours in the form validateColorInput returns, the suffix of
    the file name names each colour given, the fill first, by its hex digits
    without the hash sign or by the word none; the fallback recolored stands
    for no colour at all. *)
Theorem suffix_names_the_colors (raw : RawCliOptions) :
  (forall c, raw_fill raw = Some c -> validColor c) ->
  (forall c, raw_stroke raw = Some c -> validColor c) ->
  createSuffix raw
  = match raw_fill raw, raw_stroke raw with
    | Some f, Some s => u "fill-" ++ stripHash f ++ u "-stroke-" ++ stripHash s
    | Some f, None => u "fill-" ++ stripHash f
    | None, Some s => u "stroke-" ++ stripHash s
    | None, None => u "recolored"
    end.
Proof.
  intros Hfill Hstroke. unfold createSuffix. cbv zeta.
  assert (forall color, (forall c, color = Some c -> validColor c) ->
            truthy color = color
            /\ forall c, color = Some c -> sanitizeForSuffix c = stripHash c) as Hone.
  { intros color Hvalid. split.
    - destruct color as [[|x t]|]; try reflexivity.
      specialize (Hvalid [] eq_refl). discriminate.
    - intros c Hc. apply sanitizeForSuffix_valid. now apply Hvalid. }
  destruct (Hone _ Hfill) as [-> Hf]. destruct (Hone _ Hstroke) as [-> Hs].
  destruct (raw_fill raw) as [f|], (raw_stroke raw) as [s|]; cbn [app join];
    rewrite ?(Hf _ eq_refl), ?(Hs _ eq_refl); reflexivity.
Qed.

Lemma suffix_names_the_colors_witness :
  createSuffix (assign (assign initialOptions (SetFill (u "#FF0000"))) (SetStroke NONE))
  = u "fill-FF0000-stroke-none".
Proof.
  apply (suffix_names_the_colors
           (assign (assign initialOptions (SetFill (u "#FF0000"))) (SetStroke NONE)));
    intros c [= <-]; reflexivity.
Defined.

Lemma takeWhile_dropWhile (p : N -> bool) (s : str) :
  s = takeWhile p s ++ dropWhile p s
  /\ skipn (List.length (takeWhile p s)) s = dropWhile p s
  /\ forallb p (takeWhile p s) = true.
Proof.
  induction s as [|c s (IH1 & IH2 & IH3)]; [now repeat split|].
  cbn [takeWhile dropWhile]. destruct (p c) eqn:Hc; [|now repeat split].
  cbn [app List.length skipn forallb]. rewrite Hc, IH3, <- IH1. now repeat split.
Qed.

Lemma dropWhile_snoc (p : N -> bool) (s : str) (c : N) :
  p c = false -> dropWhile p (s ++ [c]) = dropWhile p s ++ [c].
Proof.
  intros Hc. induction s as [|x s IH]; cbn [app dropWhile]; [now rewrite Hc|].
  now destruct (p x).
Qed.

Lemma dropWhile_app_stop (p : N -> bool) (x y : str) :
  dropWhile p x <> [] -> dropWhile p (x ++ y) = dropWhile p x ++ y.
Proof.
  induction x as [|c x IH]; cbn [app dropWhile]; [congruence|].
  destruct (p c); [exact IH|reflexivity].
Qed.

Lemma dropWhile_all (p : N -> bool) (s : str) :
  forallb p s = true -> dropWhile p s = [].
Proof. intros H. now apply takeWhile_all. Qed.

(** The second replacement takes the hyphens off both ends. *)
Lemma replaceAll_trailingHyphens (s : str) :
  replaceAll trailingHyphens s = rev (dropWhile isHyphen (rev s)).
Proof.
  induction s as [|c t IH]; [reflexivity|].
  destruct (takeWhile_dropWhile isHyphen (c :: t)) as (Hsplit & Hskip & Hrun).
  destruct (trailingHyphens (c :: t)) as [[len repl]|] eqn:Hmatch.
  - unfold trailingHyphens in Hmatch.
    destruct (takeWhile isHyphen (c :: t)) as [|x run] eqn:Htake; [discriminate|].
    destruct (dropWhile isHyphen (c :: t)) eqn:Hdrop; [|discriminate].
    injection Hmatch as <- <-. rewrite app_nil_r in Hsplit.
    assert (trailingHyphens (c :: t) = Some (List.length (x :: run), [])) as Hhere
      by (unfold trailingHyphens; rewrite Htake, Hdrop; reflexivity).
    assert (1 <= List.length (x :: run))%nat as Hlen by (cbn [List.length]; lia).
    assert (c :: t <> []) as Hne by discriminate.
    rewrite (replaceAll_hit trailingHyphens (c :: t) _ [] Hhere Hlen Hne).
    rewrite Hskip. cbn [app replaceAll scanFrom].
    rewrite dropWhile_all; [reflexivity|].
    rewrite forallb_rev. now rewrite Hsplit.
  - rewrite (replaceAll_miss trailingHyphens c t Hmatch), IH. cbn [rev].
    destruct (forallb isHyphen t) eqn:Hall.
    + assert (isHyphen c = false) as Hc.
      { destruct (isHyphen c) eqn:Hc; [|reflexivity].
        unfold trailingHyphens in Hmatch.
        destruct (takeWhile_all isHyphen (c :: t)) as [Htake Hdrop];
          [cbn; now rewrite Hc, Hall|].
        now rewrite Htake, Hdrop in Hmatch. }
      rewrite (dropWhile_snoc _ _ _ Hc), rev_app_distr. reflexivity.
    + assert (dropWhile isHyphen (rev t) <> []) as Hne.
      { intros Hnil. destruct (takeWhile_dropWhile isHyphen (rev t)) as (Hs & _ & Hr).
        rewrite Hnil, app_nil_r in Hs. rewrite <- Hs, forallb_rev in Hr. congruence. }
      rewrite (dropWhile_app_stop _ _ [c] Hne), rev_app_distr. reflexivity.
Qed.

Lemma stripHyphens_spec (s : str) :
  stripHyphens s = rev (dropWhile isHyphen (rev (dropWhile isHyphen s))).
Proof.
  unfold stripHyphens. rewrite scanFrom_skipn.
  destruct (takeWhile_dropWhile isHyphen s) as (_ & -> & _).
  apply replaceAll_trailingHyphens.
Qed.

Lemma filter_dropWhile (p q : N -> bool) (s : str) :
  (forall c, q c = true -> p c = false) ->
  filter p (dropWhile q s) = filter p s.
Proof.
  intros Hqp. induction s as [|c s IH]; [reflexivity|]. cbn [dropWhile].
  destruct (q c) eqn:Hc; [|reflexivity]. cbn [filter]. now rewrite (Hqp c Hc).
Qed.

Lemma filter_none (p : N -> bool) (s : str) :
  forallb (fun c => negb (p c)) s = true -> filter p s = [].
Proof.
  induction s as [|c s IH]; [reflexivity|]. cbn [forallb filter]. intros H.
  apply andb_true_iff in H as [Hc Hs]. apply negb_true_iff in Hc. rewrite Hc. now apply IH.
Qed.

Lemma hyphen_is_not_alphanumeric (c : N) : isHyphen c = true -> isAlphanumeric c = false.
Proof. unfold isHyphen. intros Hc. apply N.eqb_eq in Hc. now subst c. Qed.

Lemma replaceAll_otherRun (value : str) :
  filter isAlphanumeric (replaceAll otherRun value) = filter isAlphanumeric value
  /\ forallb (fun c => isAlphanumeric c || isHyphen c) (replaceAll otherRun value) = true.
Proof.
  induction value as [value IH] using (induction_ltof1 _ (@List.length N)).
  unfold ltof in IH. destruct value as [|c t]; [now split|].
  destruct (takeWhile_dropWhile (fun c => negb (isAlphanumeric c)) (c :: t))
    as (Hsplit & Hskip & Hrun).
  destruct (otherRun (c :: t)) as [[len repl]|] eqn:Hmatch.
  - unfold otherRun in Hmatch.
    destruct (takeWhile (fun c => negb (isAlphanumeric c)) (c :: t)) as [|x run] eqn:Htake;
      [discriminate|].
    injection Hmatch as <- <-.
    assert (otherRun (c :: t) = Some (List.length (x :: run), u "-")) as Hhere
      by (unfold otherRun; now rewrite Htake).
    assert (1 <= List.length (x :: run))%nat as Hlen by (cbn [List.length]; lia).
    assert (c :: t <> []) as Hne by discriminate.
    rewrite (replaceAll_hit otherRun (c :: t) _ _ Hhere Hlen Hne), Hskip.
    set (rest := dropWhile (fun c => negb (isAlphanumeric c)) (c :: t)) in *.
    clearbody rest. clear Hhere Hskip Htake.
    destruct (IH rest) as [IHf IHa].
    { rewrite Hsplit, length_app. cbn [List.length]. lia. }
    rewrite Hsplit. clear Hsplit IH. split.
    + rewrite !filter_app, IHf.
      now rewrite (filter_none _ _ Hrun).
    + now rewrite forallb_app, IHa.
  - rewrite (replaceAll_miss otherRun c t Hmatch).
    destruct (IH t ltac:(cbn; lia)) as [IHf IHa].
    assert (isAlphanumeric c = true) as Hc.
    { unfold otherRun in Hmatch. cbn [takeWhile] in Hmatch.
      destruct (isAlphanumeric c); [reflexivity|discriminate]. }
    split; cbn [filter forallb]; rewrite Hc; [now rewrite IHf|exact IHa].
Qed.

(** X19. Whatever the text, the part of the suffix made from it keeps the
    ASCII letters and digits of the text, in their order, and puts nothing
    but hyphens between them; it neither starts nor ends with a hyphen. No
    other code unit, a path separator or a dot for one, gets into the file
    name. *)
Theorem suffix_part_keeps_letters_and_digits (value : str) :
  filter isAlphanumeric (sanitizeForSuffix value) = filter isAlphanumeric value
  /\ forallb (fun c => isAlphanumeric c || isHyphen c) (sanitizeForSuffix value) = true
  /\ (forall c t, sanitizeForSuffix value = c :: t ->
        isHyphen c = false /\ isHyphen (last (c :: t) 0) = false).
Proof.
  destruct (replaceAll_otherRun value) as [Hfilter Halphabet].
  unfold sanitizeForSuffix. rewrite stripHyphens_spec.
  set (text := replaceAll otherRun value) in *. clearbody text.
  split; [|split].
  - rewrite <- Hfilter, filter_rev, (filter_dropWhile _ _ _ hyphen_is_not_alphanumeric),
      filter_rev, rev_involutive.
    apply filter_dropWhile, hyphen_is_not_alphanumeric.
  - rewrite forallb_rev. apply forallb_dropWhile. rewrite forallb_rev.
    now apply forallb_dropWhile.
  - intros c t Hresult.
    pose proof (dropWhile_stops isHyphen text) as Hhead.
    pose proof (dropWhile_stops isHyphen (rev (dropWhile isHyphen text))) as Hlast.
    destruct (dropWhile isHyphen text) as [|b body]; [discriminate|].
    cbn [rev] in Hresult, Hlast.
    rewrite (dropWhile_snoc _ _ _ Hhead), rev_app_distr in Hresult.
    cbn [rev app] in Hresult. injection Hresult as <- Ht. split; [exact Hhead|].
    rewrite (dropWhile_snoc _ _ _ Hhead) in Hlast.
    destruct (dropWhile isHyphen (rev body)) as [|y rest] eqn:Hdrop.
    + cbn [rev] in Ht. subst t. exact Hhead.
    + cbn [app] in Hlast. rewrite <- Ht.
      change (b :: rev (y :: rest)) with ([b] ++ rev (y :: rest)).
      cbn [rev]. rewrite app_assoc, last_last. exact Hlast.
Qed.

(** ** Texts without the property *)

Lemma replaceAll_same (matchAt : str -> option (nat * str)) (s : str) :
  (forall a b len repl, s = a ++ b -> matchAt b = Some (len, repl) ->
     (1 <= len)%nat /\ b = repl ++ skipn len b) ->
  replaceAll matchAt s = s.
Proof.
  induction s as [s IH] using (induction_ltof1 _ (@List.length N)).
  unfold ltof in IH. intros Hsame. destruct s as [|c t]; [reflexivity|].
  destruct (matchAt (c :: t)) as [[len repl]|] eqn:Hmatch.
  - destruct (Hsame [] (c :: t) len repl eq_refl Hmatch) as [Hlen Hshape].
    assert (c :: t <> []) as Hne by discriminate.
    rewrite (replaceAll_hit matchAt (c :: t) len repl Hmatch Hlen Hne).
    rewrite IH; [now rewrite <- Hshape| |].
    + destruct len as [|len]; [lia|]. cbn [skipn List.length].
      pose proof (length_skipn len t). lia.
    + intros a b len' repl' Hsplit. apply (Hsame (firstn len (c :: t) ++ a)).
      now rewrite <- app_assoc, <- Hsplit, firstn_skipn.
  - rewrite (replaceAll_miss matchAt c t Hmatch). f_equal. apply IH; [cbn; lia|].
    intros a b len repl ->. now apply (Hsame (c :: a)).
Qed.

Lemma toLowerCase_app (a b : str) : toLowerCase (a ++ b) = toLowerCase a ++ toLowerCase b.
Proof. apply flat_map_app. Qed.

Lemma findSub_none (pat a b : str) :
  findSub pat (a ++ b) = None -> stripPrefix pat b = None.
Proof.
  induction a as [|c a IH]; cbn [app].
  - destruct b as [|c b]; cbn [findSub]; destruct (stripPrefix pat _); try discriminate;
      reflexivity.
  - cbn [findSub]. destruct (stripPrefix pat (c :: a ++ b)); [discriminate|].
    destruct (findSub pat (a ++ b)) as [[? ?]|]; [discriminate|]. intros _. now apply IH.
Qed.

(** A match of the property name under the [i] flag is the property name
    once the text is in lower case. *)
Lemma stripPrefixCI_lower (property : Property) (s m rest : str) :
  stripPrefixCI (propertyName property) s = Some (m, rest) ->
  toLowerCase m = propertyName property.
Proof.
  assert (forall pat, forallb (fun p => (97 <=? p) && (p <=? 122)) pat = true ->
            forall s m rest, stripPrefixCI pat s = Some (m, rest) -> toLowerCase m = pat)
    as Hgen.
  { intros pat. induction pat as [|p pat IH]; intros Hpat [|c t] m' rest';
      cbn [stripPrefixCI]; try discriminate; try (now intros [= <- <-]).
    cbn [forallb] in Hpat. apply andb_true_iff in Hpat as [Hp Hpat].
    destruct (ciEq p c) eqn:Hc; [|discriminate].
    destruct (stripPrefixCI pat t) as [[m1 r1]|] eqn:Hstrip; [|discriminate].
    intros [= <- <-]. cbn [toLowerCase flat_map].
    fold (toLowerCase m1). rewrite (IH Hpat _ _ _ Hstrip). cbn [app]. 
    assert (lowerUnit c = [p]) as ->; [|reflexivity].
    unfold ciEq, canon in Hc. unfold lowerUnit.
    apply andb_true_iff in Hp as [Hlow Hhigh]. apply N.leb_le in Hlow, Hhigh.
    replace ((97 <=? p) && (p <=? 122)) with true in Hc
      by (symmetry; apply andb_true_iff; split; apply N.leb_le; lia).
    destruct ((97 <=? c) && (c <=? 122)) eqn:Hrange.
    - apply N.eqb_eq in Hc. apply andb_true_iff in Hrange as [H1 H2].
      apply N.leb_le in H1, H2.
      replace ((65 <=? c) && (c <=? 90)) with false
        by (symmetry; apply andb_false_iff; right; apply N.leb_gt; lia).
      replace (c =? 8490) with false by (symmetry; apply N.eqb_neq; lia).
      replace (c =? 304) with false by (symmetry; apply N.eqb_neq; lia).
      f_equal. lia.
    - apply N.eqb_eq in Hc.
      replace ((65 <=? c) && (c <=? 90)) with true
        by (symmetry; apply andb_true_iff; split; apply N.leb_le; lia).
      f_equal. lia. }
  intros H. apply (Hgen (propertyName property)) in H; [exact H|now destruct property].
Qed.

Lemma trim_infix (s : str) : exists a b, s = a ++ trim s ++ b.
Proof.
  unfold trim, trimEnd, trimStart.
  destruct (dropWhile_suffix isSpace s) as [front Hfront].
  destruct (dropWhile_suffix isSpace (rev (dropWhile isSpace s))) as [back Hback].
  exists front, (rev back). rewrite <- rev_app_distr, <- Hback, rev_involutive. exact Hfront.
Qed.

Lemma split_infix (sep : N) (s : str) :
  (exists rest, s = hd [] (split sep s) ++ rest)
  /\ forall piece, In piece (split sep s) -> exists a b, s = a ++ piece ++ b.
Proof.
  induction s as [|c t [[rest Hhead] IH]]; cbn [split].
  - split; [now exists []|]. intros piece [<-|[]]. now exists [], [].
  - destruct (c =? sep) eqn:Hc.
    + split; [now exists (c :: t)|]. intros piece [<-|Hin].
      * now exists [], (c :: t).
      * destruct (IH piece Hin) as (a & b & ->). now exists (c :: a), b.
    + destruct (split sep t) as [|p ps] eqn:Hsplit.
      * split; [exists t; reflexivity|]. intros piece [<-|[]]. now exists [], t.
      * cbn [hd] in Hhead. split; [exists rest; cbn; now rewrite <- Hhead|].
        intros piece [<-|Hin].
        -- exists [], rest. cbn. now rewrite <- Hhead.
        -- destruct (IH piece (or_intror Hin)) as (a & b & ->). now exists (c :: a), b.
Qed.

Lemma lower_absent (word s a x b : str) :
  findSub word (toLowerCase s) = None -> s = a ++ x ++ b -> toLowerCase x <> word.
Proof.
  intros Habsent -> Hx. rewrite !toLowerCase_app, Hx in Habsent.
  now apply findSub_found in Habsent.
Qed.

Lemma absent_property_infix (property : Property) (s a b c : str) :
  findSub (propertyName property) (toLowerCase s) = None -> s = a ++ b ++ c ->
  stripPrefixCI (propertyName property) b = None.
Proof.
  intros Habsent Hs.
  destruct (stripPrefixCI (propertyName property) b) as [[m rest]|] eqn:Hm; [|reflexivity].
  destruct (stripPrefixCI_spec _ _ _ _ Hm) as (Hb & _ & _).
  exfalso. apply (lower_absent _ s a m (rest ++ c) Habsent).
  - rewrite Hs, Hb. now rewrite <- !app_assoc.
  - exact (stripPrefixCI_lower _ _ _ _ Hm).
Qed.

Lemma updateDeclaration_other (property : Property) (color : str) (preserveNone : bool)
    (declaration : str) :
  (forall a x b, declaration = a ++ x ++ b -> toLowerCase x <> propertyName property) ->
  fst (updateDeclaration property color preserveNone declaration) = false.
Proof.
  intros Habsent. unfold updateDeclaration. cbv zeta.
  destruct (split_infix COLON declaration) as [[rest Hhead] _].
  destruct (split COLON declaration) as [|p [|q ps]]; cbn [List.map]; try reflexivity.
  cbn [hd] in Hhead.
  destruct (isEmpty (trim p)); [reflexivity|].
  destruct (streq (toLowerCase (trim p)) (propertyName property)) eqn:Hname;
    [|reflexivity].
  apply streq_eq in Hname. destruct (trim_infix p) as (a & b & Hp).
  exfalso. apply (Habsent a (trim p) (b ++ rest)); [|exact Hname].
  rewrite Hhead, Hp at 1. now rewrite <- !app_assoc.
Qed.

Lemma styleAttributeCallback_other (property : Property) (color : str)
    (preserveNone : bool) (opening styleBody : str) :
  (forall a x b, styleBody = a ++ x ++ b -> toLowerCase x <> propertyName property) ->
  styleAttributeCallback property color preserveNone opening styleBody
  = opening ++ styleBody ++ [QUOTE].
Proof.
  intros Habsent. unfold styleAttributeCallback. cbv zeta.
  assert (forall d, In d (styleDeclarations styleBody) ->
            fst (updateDeclaration property color preserveNone d) = false) as Hall.
  { intros d Hd. apply updateDeclaration_other. intros a x b Hx.
    unfold styleDeclarations in Hd. apply filter_In in Hd as [Hd _].
    apply in_map_iff in Hd as (piece & <- & Hpiece).
    destruct (proj2 (split_infix SEMI styleBody) piece Hpiece) as (a1 & b1 & Hbody).
    destruct (trim_infix piece) as (a2 & b2 & Hp).
    apply (Habsent (a1 ++ a2 ++ a) x (b ++ b2 ++ b1)).
    rewrite Hbody, Hp, Hx. now rewrite <- !app_assoc. }
  destruct (styleDeclarations styleBody) as [|d ds]; [reflexivity|].
  replace (existsb fst (List.map (updateDeclaration property color preserveNone) (d :: ds)))
    with false; [reflexivity|].
  symmetry. induction (d :: ds) as [|e es IHes]; [reflexivity|].
  cbn [List.map existsb]. rewrite (Hall e (or_introl eq_refl)). cbn [orb].
  apply IHes. intros d' Hd'. apply Hall. now right.
Qed.

Lemma styleBlockPattern_sound (s front blockContent closing : str) :
  styleBlockPattern s = Some (front, blockContent, closing) ->
  front <> [] /\ exists after, s = front ++ blockContent ++ closing ++ after.
Proof.
  unfold styleBlockPattern.
  destruct (stripPrefixCI (u "<style") s) as [[opening s1]|] eqn:Hopen; [|discriminate].
  destruct (stripPrefixCI_spec _ _ _ _ Hopen) as (-> & _ & _).
  destruct (span (fun c => c =? GT) s1) as [attrs s2] eqn:Hspan.
  destruct (span_spec _ _ _ _ Hspan) as (-> & _ & Hstop).
  destruct s2 as [|c s3]; [discriminate|].
  destruct (findSubCI (u "</style>") s3) as [[[b m] after]|] eqn:Hfind; [|discriminate].
  destruct (findSubCI_spec _ _ _ _ _ Hfind) as (-> & _).
  intros [= <- <- <-]. split; [now destruct opening, attrs|]. exists after.
  cbn in Hstop. apply N.eqb_eq in Hstop. subst c.
  now rewrite <- !app_assoc.
Qed.

(** X20. A text in which the name of the property does not occur, in
    whatever letter case, is returned as it is: a request for the fill
    colour leaves a text without fill untouched, whatever the colour and the
    none preservation. *)
Theorem text_without_the_property_is_untouched (svgText : str) (property : Property)
    (color : str) (preserveNone : bool) :
  findSub (propertyName property) (toLowerCase svgText) = None ->
  applyColor svgText property color preserveNone = svgText.
Proof.
  intros Habsent.
  assert (replaceSvgAttributes svgText property color preserveNone = svgText) as Hattributes.
  { apply replaceAll_no_match. intros a b Hsplit.
    unfold attributeMatchAt, attributePattern.
    rewrite (absent_property_infix property svgText a b [] Habsent); [reflexivity|].
    now rewrite app_nil_r. }
  assert (replaceInlineStyleAttributes svgText property color preserveNone = svgText)
    as Hinline.
  { apply replaceAll_same. intros a b len repl Hsplit. unfold styleAttributeMatchAt.
    destruct (styleAttributePattern b) as [[opening body]|] eqn:Hmatch; [|discriminate].
    destruct (styleAttributePattern_sound _ _ _ Hmatch) as (rest & Hb & _ & _).
    intros [= <- <-]. split; [lia|].
    rewrite styleAttributeCallback_other.
    - rewrite Hb at 2.
      replace (S (List.length opening + List.length body))
        with (List.length (opening ++ body ++ [QUOTE]))
        by (rewrite !length_app; cbn [List.length]; lia).
      replace (opening ++ body ++ QUOTE :: rest) with ((opening ++ body ++ [QUOTE]) ++ rest)
        by now rewrite <- !app_assoc.
      rewrite (proj2 (firstn_skipn_exact _ _)). rewrite Hb. now rewrite <- !app_assoc.
    - intros a1 x b1 Hbody. apply (lower_absent _ svgText (a ++ opening ++ a1) x
                                     (b1 ++ QUOTE :: rest) Habsent).
      rewrite Hsplit, Hb, Hbody. now rewrite <- !app_assoc. }
  assert (replaceStyleBlocks svgText property color preserveNone = svgText) as Hblocks.
  { apply replaceAll_same. intros a b len repl Hsplit. unfold styleBlockMatchAt.
    destruct (styleBlockPattern b) as [[[front blockContent] closing]|] eqn:Hmatch;
      [|discriminate].
    destruct (styleBlockPattern_sound _ _ _ _ Hmatch) as (Hfront & after & Hb).
    assert (replaceAll (propertyMatchAt property color preserveNone) blockContent
            = blockContent) as ->.
    { apply replaceAll_no_match. intros a1 b1 Hcontent.
      unfold propertyMatchAt, propertyPattern.
      rewrite (absent_property_infix property svgText
                 (a ++ front ++ a1) b1 (closing ++ after) Habsent); [reflexivity|].
      rewrite Hsplit, Hb, Hcontent. now rewrite <- !app_assoc. }
    rewrite streq_refl. intros [= <- <-]. split.
    - destruct front; [congruence|]. cbn [app List.length]. lia.
    - rewrite Hb at 2.
      replace (front ++ blockContent ++ closing ++ after)
        with ((front ++ blockContent ++ closing) ++ after) by now rewrite <- !app_assoc.
      rewrite (proj2 (firstn_skipn_exact _ _)). rewrite Hb. now rewrite <- !app_assoc. }
  unfold applyColor. cbv zeta. now rewrite Hattributes, Hinline, Hblocks.
Qed.

Lemma text_without_the_property_is_untouched_witness :
  applyColor (doc "<svg><path stroke='#000' style='stroke:red'/></svg>") Fill
    (u "#ff0000") false
  = doc "<svg><path stroke='#000' style='stroke:red'/></svg>".
Proof.
  apply (text_without_the_property_is_untouched
           (doc "<svg><path stroke='#000' style='stroke:red'/></svg>") Fill
           (u "#ff0000") false).
  reflexivity.
Defined.

(** ** From RGB to HSL and back *)

Open Scope Q_scope.

Lemma Qlt_bool_true (x y : Q) : x < y -> Qlt_bool x y = true.
Proof. apply Qlt_bool_spec. Qed.

Lemma Qlt_bool_false (x y : Q) : y <= x -> Qlt_bool x y = false.
Proof.
  intros Hle. destruct (Qlt_bool x y) eqn:Hlt; [|reflexivity].
  apply Qlt_bool_spec in Hlt. lra.
Qed.

Lemma Qeq_bool_false (x y : Q) : ~ x == y -> Qeq_bool x y = false.
Proof.
  intros Hne. destruct (Qeq_bool x y) eqn:Heq; [|reflexivity].
  apply Qeq_bool_iff in Heq. contradiction.
Qed.

Lemma Qeq_bool_true (x y : Q) : x == y -> Qeq_bool x y = true.
Proof. apply Qeq_bool_iff. Qed.

(** The four stretches of [hueToRgb], and the two shifts in front. *)
Lemma hueToRgb_stretches (p q t : Q) :
  (-1 <= t -> t < 0 -> hueToRgb p q t = hueToRgb p q (t + 1))
  /\ (1 < t -> t <= 2 -> hueToRgb p q t = hueToRgb p q (t - 1))
  /\ (0 <= t -> t < 1 / 6 -> hueToRgb p q t = p + (q - p) * 6 * t)
  /\ (1 / 6 <= t -> t < 1 / 2 -> hueToRgb p q t = q)
  /\ (1 / 2 <= t -> t < 2 / 3 -> hueToRgb p q t = p + (q - p) * ((2 / 3) - t) * 6)
  /\ (2 / 3 <= t -> t <= 1 -> hueToRgb p q t = p).
Proof.
  assert (1 / 6 == 1 # 6) as H6 by reflexivity.
  assert (1 / 2 == 1 # 2) as H2 by reflexivity.
  assert (2 / 3 == 2 # 3) as H3 by reflexivity.
  unfold hueToRgb. cbv zeta. repeat split; intros Hlow Hhigh.
  - rewrite (Qlt_bool_true t 0 Hhigh), (Qlt_bool_false (t + 1) 0), (Qlt_bool_false 1 (t + 1))
      by lra. reflexivity.
  - rewrite (Qlt_bool_false t 0), (Qlt_bool_true 1 t Hlow), (Qlt_bool_false (t - 1) 0),
      (Qlt_bool_false 1 (t - 1)) by lra. reflexivity.
  - rewrite (Qlt_bool_false t 0), (Qlt_bool_false 1 t), (Qlt_bool_true t (1 / 6)) by lra.
    reflexivity.
  - rewrite (Qlt_bool_false t 0), (Qlt_bool_false 1 t), (Qlt_bool_false t (1 / 6)),
      (Qlt_bool_true t (1 / 2)) by lra. reflexivity.
  - rewrite (Qlt_bool_false t 0), (Qlt_bool_false 1 t), (Qlt_bool_false t (1 / 6)),
      (Qlt_bool_false t (1 / 2)), (Qlt_bool_true t (2 / 3)) by lra. reflexivity.
  - rewrite (Qlt_bool_false t 0), (Qlt_bool_false 1 t), (Qlt_bool_false t (1 / 6)),
      (Qlt_bool_false t (1 / 2)), (Qlt_bool_false t (2 / 3)) by lra. reflexivity.
Qed.

(** [hueToRgb] as a function of the hue within one turn: the value at [t]
    for [u] in [0, 1] equal to [t], [t + 1] or [t - 1]. *)
Lemma hueToRgb_turn (p q t u : Q) :
  0 <= u -> u <= 1 -> (t == u \/ (t < 0 /\ t + 1 == u) \/ (1 < t /\ t - 1 == u)) ->
  (u <= 1 / 6 -> hueToRgb p q t == p + (q - p) * 6 * u)
  /\ (1 / 6 <= u -> u <= 1 / 2 -> hueToRgb p q t == q)
  /\ (1 / 2 <= u -> u <= 2 / 3 -> hueToRgb p q t == p + (q - p) * ((2 / 3) - u) * 6)
  /\ (2 / 3 <= u -> hueToRgb p q t == p).
Proof.
  intros Hu0 Hu1 Hturn.
  assert (exists t', hueToRgb p q t = hueToRgb p q t' /\ t' == u) as (t' & -> & Ht').
  { destruct (hueToRgb_stretches p q t) as (Hdown & Hup & _).
    destruct Hturn as [H|[[Hneg H]|[Hbig H]]].
    - now exists t.
    - exists (t + 1). split; [apply Hdown; lra|exact H].
    - exists (t - 1). split; [apply Hup; lra|exact H]. }
  destruct (hueToRgb_stretches p q t') as (_ & _ & Hrise & Htop & Hfall & Hbottom).
  assert (1 / 6 == 1 # 6) as H6 by reflexivity.
  assert (1 / 2 == 1 # 2) as H2 by reflexivity.
  assert (2 / 3 == 2 # 3) as H3 by reflexivity.
  repeat split.
  - intros Hhigh. destruct (Qlt_le_dec t' (1 / 6)) as [Hlt|Hge].
    + rewrite Hrise by lra. now rewrite Ht'.
    + rewrite Htop by lra. assert (u == 1 # 6) as -> by lra. field.
  - intros Hlow Hhigh. destruct (Qlt_le_dec t' (1 / 2)) as [Hlt|Hge].
    + rewrite Htop by lra. reflexivity.
    + rewrite Hfall by lra. assert (t' == 1 # 2) as -> by lra. field.
  - intros Hlow Hhigh. destruct (Qlt_le_dec t' (2 / 3)) as [Hlt|Hge].
    + rewrite Hfall by lra. now rewrite Ht'.
    + rewrite Hbottom by lra. assert (u == 2 # 3) as -> by lra. field.
  - intros Hlow. rewrite Hbottom by lra. reflexivity.
Qed.

Lemma hue_bounds (x d y : Q) : 0 < d -> x * 6 * d == y ->
  (0 <= y -> 0 <= x) /\ (y <= d -> x <= 1 / 6) /\ (y < 0 -> x < 0) /\ (- d <= y -> - (1 / 6) <= x)
  /\ (0 < y -> 0 < x).
Proof.
  intros Hd Hx. assert (1 / 6 == 1 # 6) as H6 by reflexivity.
  repeat split; intros Hy.
  - destruct (Qlt_le_dec x 0) as [Hneg|]; [|assumption]. exfalso. nra.
  - destruct (Qlt_le_dec (1 / 6) x) as [Hbig|]; [|assumption]. exfalso. nra.
  - destruct (Qlt_le_dec x 0) as [|Hpos]; [assumption|]. exfalso. nra.
  - destruct (Qlt_le_dec x (- (1 / 6))) as [Hsmall|]; [|assumption]. exfalso. nra.
  - destruct (Qlt_le_dec 0 x) as [|Hpos]; [assumption|]. exfalso. nra.
Qed.

(** The three channels that [hslToRgb] computes from the hue of
    [rgbToHsl], once [p] is the least and [q] the greatest channel. *)
Lemma channels_from_hue (R G B p q H : Q) :
  p <= R -> R <= q -> p <= G -> G <= q -> p <= B -> B <= q -> p < q ->
  (p == R \/ p == G \/ p == B) ->
  (q == R /\ ((B <= G /\ H * 6 * (q - p) == G - B)
             \/ (G < B /\ (H - 1) * 6 * (q - p) == G - B)))
  \/ (q == G /\ (H - 1 / 3) * 6 * (q - p) == B - R)
  \/ (q == B /\ (H - 2 / 3) * 6 * (q - p) == R - G) ->
  hueToRgb p q (H + 1 / 3) == R
  /\ hueToRgb p q H == G
  /\ hueToRgb p q (H - 1 / 3) == B.
Proof.
  intros HpR HRq HpG HGq HpB HBq Hpq Hmin Hhue.
  assert (1 / 6 == 1 # 6) as H6 by reflexivity.
  assert (1 / 2 == 1 # 2) as H2 by reflexivity.
  assert (1 / 3 == 1 # 3) as H13 by reflexivity.
  assert (2 / 3 == 2 # 3) as H3 by reflexivity.
  assert (0 < q - p) as Hd by lra.
  destruct Hhue as [[Hq [[Hle Hx]|[Hlt Hx]]]|[[Hq Hx]|[Hq Hx]]].
  - destruct (hue_bounds _ _ _ Hd Hx) as (Hx0 & Hx1 & _).
    assert (0 <= H) by (apply Hx0; lra). assert (H <= 1 / 6) by (apply Hx1; lra).
    assert (p == B) as HpB' by lra.
    split; [|split].
    + destruct (hueToRgb_turn p q (H + 1 / 3) (H + 1 / 3)) as (_ & Htop & _);
        [lra|lra|left; reflexivity|]. rewrite Htop by lra. exact Hq.
    + destruct (hueToRgb_turn p q H H) as (Hrise & _); [lra|lra|left; reflexivity|].
      rewrite Hrise by lra. nra.
    + destruct (hueToRgb_turn p q (H - 1 / 3) (H - 1 / 3 + 1)) as (_ & _ & _ & Hbottom);
        [lra|lra|right; left; split; [lra|reflexivity]|]. rewrite Hbottom by lra. lra.
  - destruct (hue_bounds _ _ _ Hd Hx) as (_ & _ & Hx0 & Hx1 & _).
    assert (H - 1 < 0) by (apply Hx0; lra).
    assert (- (1 / 6) <= H - 1) by (apply Hx1; lra).
    assert (p == G) as HpG' by lra.
    split; [|split].
    + destruct (hueToRgb_turn p q (H + 1 / 3) (H + 1 / 3 - 1)) as (_ & Htop & _);
        [lra|lra|right; right; split; [lra|reflexivity]|]. rewrite Htop by lra. exact Hq.
    + destruct (hueToRgb_turn p q H H) as (_ & _ & _ & Hbottom);
        [lra|lra|left; reflexivity|]. rewrite Hbottom by lra. exact HpG'.
    + destruct (hueToRgb_turn p q (H - 1 / 3) (H - 1 / 3)) as (_ & _ & Hfall & _);
        [lra|lra|left; reflexivity|]. rewrite Hfall by lra. nra.
  - destruct (hue_bounds _ _ _ Hd Hx) as (Hx0 & Hx1 & Hx2 & Hx3 & _).
    assert (H - 1 / 3 <= 1 / 6) by (apply Hx1; lra).
    assert (- (1 / 6) <= H - 1 / 3) by (apply Hx3; lra).
    split; [|split].
    + destruct (Qlt_le_dec B R) as [Hlt|Hle].
      * assert (H - 1 / 3 < 0) by (apply Hx2; lra). assert (p == B) by lra.
        destruct (hueToRgb_turn p q (H + 1 / 3) (H + 1 / 3)) as (_ & _ & Hfall & _);
          [lra|lra|left; reflexivity|]. rewrite Hfall by lra. nra.
      * assert (0 <= H - 1 / 3) by (apply Hx0; lra). assert (p == R) by lra.
        destruct (hueToRgb_turn p q (H + 1 / 3) (H + 1 / 3)) as (_ & _ & _ & Hbottom);
          [lra|lra|left; reflexivity|]. rewrite Hbottom by lra. assumption.
    + destruct (hueToRgb_turn p q H H) as (_ & Htop & _); [lra|lra|left; reflexivity|].
      rewrite Htop by lra. exact Hq.
    + destruct (Qlt_le_dec B R) as [Hlt|Hle].
      * assert (H - 1 / 3 < 0) by (apply Hx2; lra). assert (p == B) by lra.
        destruct (hueToRgb_turn p q (H - 1 / 3) (H - 1 / 3 + 1)) as (_ & _ & _ & Hbottom);
          [lra|lra|right; left; split; [lra|reflexivity]|]. rewrite Hbottom by lra.
        assumption.
      * assert (0 <= H - 1 / 3) by (apply Hx0; lra). assert (p == R) by lra.
        destruct (hueToRgb_turn p q (H - 1 / 3) (H - 1 / 3)) as (Hrise & _);
          [lra|lra|left; reflexivity|]. rewrite Hrise by lra. nra.
  - destruct (hue_bounds _ _ _ Hd Hx) as (Hx0 & Hx1 & Hx2 & Hx3 & Hx4).
    assert (H - 2 / 3 <= 1 / 6) by (apply Hx1; lra).
    assert (- (1 / 6) <= H - 2 / 3) by (apply Hx3; lra).
    split; [|split].
    + destruct (Qlt_le_dec G R) as [Hlt|Hle].
      * assert (0 < H - 2 / 3) by (apply Hx4; lra). assert (p == G) by lra.
        destruct (hueToRgb_turn p q (H + 1 / 3) (H + 1 / 3 - 1)) as (Hrise & _);
          [lra|lra|right; right; split; [lra|reflexivity]|]. rewrite Hrise by lra. nra.
      * assert (p == R) by lra.
        destruct (Qlt_le_dec R G) as [Hlt|Hge].
        -- assert (H - 2 / 3 < 0) by (apply Hx2; lra).
           destruct (hueToRgb_turn p q (H + 1 / 3) (H + 1 / 3)) as (_ & _ & _ & Hbottom);
             [lra|lra|left; reflexivity|]. rewrite Hbottom by lra. assumption.
        -- assert (H - 2 / 3 == 0) as Hzero by nra.
           destruct (hueToRgb_turn p q (H + 1 / 3) (H + 1 / 3)) as (_ & _ & _ & Hbottom);
             [lra|lra|left; reflexivity|]. rewrite Hbottom by lra. assumption.
    + destruct (Qlt_le_dec R G) as [Hlt|Hle].
      * assert (H - 2 / 3 < 0) by (apply Hx2; lra). assert (p == R) by lra.
        destruct (hueToRgb_turn p q H H) as (_ & _ & Hfall & _);
          [lra|lra|left; reflexivity|]. rewrite Hfall by lra. nra.
      * assert (0 <= H - 2 / 3) by (apply Hx0; lra). assert (p == G) by lra.
        destruct (hueToRgb_turn p q H H) as (_ & _ & _ & Hbottom);
          [lra|lra|left; reflexivity|]. rewrite Hbottom by lra. assumption.
    + destruct (hueToRgb_turn p q (H - 1 / 3) (H - 1 / 3)) as (_ & Htop & _);
        [lra|lra|left; reflexivity|]. rewrite Htop by lra. exact Hq.
Qed.

Lemma channel_back (v : Z) (x : Q) :
  (0 <= v <= 255)%Z -> x == inject_Z v / 255 -> clampChannel (round (x * 255)) = v.
Proof.
  intros Hv Hx. rewrite (round_of_eq (x * 255) (inject_Z v / 255 * 255)) by now rewrite Hx.
  rewrite round_alpha. unfold clampChannel. lia.
Qed.

Lemma extremes (R G B : Q) :
  let mx := Qmax (Qmax R G) B in
  let mn := Qmin (Qmin R G) B in
  (mn <= R /\ R <= mx) /\ (mn <= G /\ G <= mx) /\ (mn <= B /\ B <= mx)
  /\ (mx == R \/ mx == G \/ mx == B) /\ (mn == R \/ mn == G \/ mn == B).
Proof.
  intros mx mn. subst mx mn.
  destruct (Q.max_spec R G) as [[Ho1 E1]|[Ho1 E1]],
    (Q.max_spec (Qmax R G) B) as [[Ho2 E2]|[Ho2 E2]],
    (Q.min_spec R G) as [[Ho3 E3]|[Ho3 E3]],
    (Q.min_spec (Qmin R G) B) as [[Ho4 E4]|[Ho4 E4]];
    repeat split; try lra; auto; try (left; lra); try (right; left; lra); try (right; right; lra).
Qed.

(** X21. Converting a colour with channels from 0 to 255 to HSL and back
    gives the same colour: the three channels and the alpha. *)
Theorem rgb_to_hsl_and_back (color : Rgba) :
  channelInRange color -> hslToRgb (rgbToHsl color) = color.
Proof.
  intros (Hr & Hg & Hb).
  destruct (unit_channel _ Hr) as [HR0 HR1]. destruct (unit_channel _ Hg) as [HG0 HG1].
  destruct (unit_channel _ Hb) as [HB0 HB1].
  unfold hslToRgb, rgbToHsl. cbv zeta. cbn [h s l ha].
  set (R := inject_Z (r color) / 255) in *.
  set (G := inject_Z (g color) / 255) in *.
  set (B := inject_Z (b color) / 255) in *.
  destruct (extremes R G B) as ((HRa & HRb) & (HGa & HGb) & (HBa & HBb) & Hmax & Hmin).
  set (mx := Qmax (Qmax R G) B) in *. set (mn := Qmin (Qmin R G) B) in *.
  clearbody mx mn.
  change ((mx + mn) / 2) with ((mx + mn) * (1 # 2)).
  assert (clamp01 ((mx + mn) * (1 # 2)) == (mx + mn) * (1 # 2)) as HL
    by (apply clamp01_inside; lra).
  set (L := clamp01 ((mx + mn) * (1 # 2))) in *. clearbody L.
  destruct (Qeq_bool (mx - mn) 0) eqn:Hdelta.
  - apply Qeq_bool_iff in Hdelta. change (Qeq_bool (clamp01 0) 0) with true. cbv iota.
    transitivity {| r := r color; g := g color; b := b color; a := a color |};
      [|now destruct color].
    f_equal; apply channel_back; try assumption; rewrite HL; fold R G B;
      clearbody R G B; lra.
  - assert (mn < mx) as Hlt.
    { apply Qeq_bool_neq in Hdelta. destruct (Qlt_le_dec mn mx); [assumption|].
      exfalso. apply Hdelta. lra. }
    set (S0 := (mx - mn) / (1 - Qabs (2 * ((mx + mn) * (1 # 2)) - 1))) in *.
    assert (0 < S0 /\ S0 <= 1
            /\ (mx + mn <= 1 -> S0 * (mx + mn) == mx - mn)
            /\ (1 <= mx + mn -> S0 * (2 - (mx + mn)) == mx - mn)) as (HS0 & HS1 & Hlow & Hhigh).
    { set (D := 1 - Qabs (2 * ((mx + mn) * (1 # 2)) - 1)) in *.
      assert (0 < D /\ (mx + mn <= 1 -> D == mx + mn)
              /\ (1 <= mx + mn -> D == 2 - (mx + mn))) as (HD & HDlow & HDhigh).
      { subst D. destruct (Qlt_le_dec (mx + mn) 1) as [Hsmall|Hbig].
        - rewrite Qabs_neg by lra. repeat split; intros; lra.
        - rewrite Qabs_pos by lra. repeat split; intros; lra. }
      assert (S0 * D == mx - mn) as Hprod.
      { subst S0. rewrite Qmult_comm. apply Qmult_div_r. lra. }
      clearbody D S0.
      destruct (Qlt_le_dec (mx + mn) 1) as [Hsmall|Hbig].
      - rewrite (HDlow ltac:(lra)) in Hprod. repeat split; intros; try nra; try lra.
      - rewrite (HDhigh Hbig) in Hprod. repeat split; intros; try nra; try lra. }
    clearbody S0.
    assert (clamp01 S0 == S0) as HS by (apply clamp01_inside; lra).
    set (S := clamp01 S0) in *. clearbody S.
    rewrite (Qeq_bool_false S 0) by lra.
    set (Qt := if Qlt_bool L (1 / 2) then L * (1 + S) else L + S - L * S).
    assert (Qt == mx) as HQt.
    { subst Qt. assert (1 / 2 == 1 # 2) as H2 by reflexivity.
      destruct (Qlt_bool L (1 / 2)) eqn:Hhalf.
      - apply Qlt_bool_spec in Hhalf. specialize (Hlow ltac:(lra)). nra.
      - assert (1 / 2 <= L) as Hge.
        { destruct (Qlt_le_dec L (1 / 2)) as [Hc|]; [|assumption].
          apply Qlt_bool_true in Hc. congruence. }
        specialize (Hhigh ltac:(lra)). nra. }
    clearbody Qt.
    set (P := 2 * L - Qt). assert (P == mn) as HP by (subst P; lra). clearbody P.
    set (h0 := if Qeq_bool mx R then jsRem ((G - B) / (mx - mn)) 6
               else if Qeq_bool mx G then (B - R) / (mx - mn) + 2
               else (R - G) / (mx - mn) + 4).
    set (Hh := (if Qlt_bool (h0 * 60) 0 then h0 * 60 + 360 else h0 * 60) / 360).
    assert (forall y, - (mx - mn) <= y -> y <= mx - mn ->
              (y / (mx - mn)) * (mx - mn) == y
              /\ -1 <= y / (mx - mn) /\ y / (mx - mn) <= 1
              /\ (0 <= y -> 0 <= y / (mx - mn)) /\ (y < 0 -> y / (mx - mn) < 0)) as Hdiv.
    { intros y Hy0 Hy1. assert ((y / (mx - mn)) * (mx - mn) == y) as Hprod
        by (rewrite Qmult_comm; apply Qmult_div_r; lra).
      set (x := y / (mx - mn)) in *. clearbody x. clearbody R G B.
      split; [assumption|]. split; [|split; [|split]].
      - destruct (Qlt_le_dec x (-1)); [exfalso; nra|assumption].
      - destruct (Qlt_le_dec 1 x); [exfalso; nra|assumption].
      - intros Hsign. destruct (Qlt_le_dec x 0); [exfalso; nra|assumption].
      - intros Hsign. destruct (Qlt_le_dec x 0); [assumption|exfalso; nra]. }
    assert ((Qt == R /\ ((B <= G /\ Hh * 6 * (Qt - P) == G - B)
                         \/ (G < B /\ (Hh - 1) * 6 * (Qt - P) == G - B)))
            \/ (Qt == G /\ (Hh - 1 / 3) * 6 * (Qt - P) == B - R)
            \/ (Qt == B /\ (Hh - 2 / 3) * 6 * (Qt - P) == R - G)) as Hhue.
    { change (1 / 3) with (1 # 3). change (2 / 3) with (2 # 3).
      assert (Hh = (if Qlt_bool (h0 * 60) 0 then h0 * 60 + 360 else h0 * 60) * (1 # 360))
        as HhE by reflexivity.
      clearbody Hh.
      destruct (Qeq_bool mx R) eqn:HmR.
      - apply Qeq_bool_iff in HmR. left. split; [lra|].
        destruct (Hdiv (G - B) ltac:(lra) ltac:(lra)) as (Hprod & Hx0 & Hx1 & Hpos & Hneg).
        assert (h0 == (G - B) / (mx - mn)) as Hh0 by (apply jsRem_small; assumption).
        set (x := (G - B) / (mx - mn)) in *. clearbody x h0.
        destruct (Qlt_le_dec G B) as [Hlt'|Hle'].
        + right. split; [assumption|]. specialize (Hneg ltac:(lra)).
          rewrite (Qlt_bool_true (h0 * 60) 0) in HhE by lra.
          rewrite HhE, HQt, HP, Hh0, <- Hprod. ring.
        + left. split; [assumption|]. specialize (Hpos ltac:(lra)).
          rewrite (Qlt_bool_false (h0 * 60) 0) in HhE by lra.
          rewrite HhE, HQt, HP, Hh0, <- Hprod. ring.
      - apply Qeq_bool_neq in HmR. destruct (Qeq_bool mx G) eqn:HmG.
        + apply Qeq_bool_iff in HmG. right. left. split; [lra|].
          destruct (Hdiv (B - R) ltac:(lra) ltac:(lra)) as (Hprod & Hx0 & Hx1 & _).
          subst h0. set (x := (B - R) / (mx - mn)) in *. clearbody x.
          rewrite (Qlt_bool_false ((x + 2) * 60) 0) in HhE by lra.
          rewrite HhE, HQt, HP, <- Hprod. ring.
        + apply Qeq_bool_neq in HmG. assert (mx == B) as HmB by tauto.
          right. right. split; [lra|].
          destruct (Hdiv (R - G) ltac:(lra) ltac:(lra)) as (Hprod & Hx0 & Hx1 & _).
          subst h0. set (x := (R - G) / (mx - mn)) in *. clearbody x.
          rewrite (Qlt_bool_false ((x + 4) * 60) 0) in HhE by lra.
          rewrite HhE, HQt, HP, <- Hprod. ring. }
    clearbody Hh.
    assert (P == R \/ P == G \/ P == B) as Hmin'
      by (destruct Hmin as [E|[E|E]]; [left|right; left|right; right]; lra).
    destruct (channels_from_hue R G B P Qt Hh ltac:(lra) ltac:(lra) ltac:(lra) ltac:(lra)
                ltac:(lra) ltac:(lra) ltac:(lra) Hmin' Hhue) as (HcR & HcG & HcB).
    transitivity {| r := r color; g := g color; b := b color; a := a color |};
      [|now destruct color].
    f_equal; apply channel_back; assumption.
Qed.

Lemma rgb_to_hsl_and_back_witness :
  hslToRgb (rgbToHsl {| r := 255; g := 51; b := 0; a := 1 |})
  = {| r := 255; g := 51; b := 0; a := 1 |}.
Proof.
  apply (rgb_to_hsl_and_back {| r := 255; g := 51; b := 0; a := 1 |}).
  unfold channelInRange. cbn. lia.
Defined.

Close Scope Q_scope.

(** ** From channels to text and back *)





(** ** The attribute pass, one attribute at a time *)

Lemma initial_facts (property : Property) (x : N) :
  ciEq (initial property) x = true ->
  notSpace x = true
  /\ forallb (fun p => negb (ciEq p x)) (tl (propertyName property)) = true
  /\ (x =? EQUALS) = false /\ (x =? QUOTE) = false.
Proof.
  intros Hx. destruct (initial_cases property x Hx) as [->| ->]; destruct property;
    repeat split; reflexivity.
Qed.

Lemma attributePattern_stays_none_at (property : Property) (b : str) (x : N) (rest : str) :
  b <> [] -> ciEq (initial property) x = true ->
  attributePattern property b = None -> danglingAt property b = false ->
  attributePattern property (b ++ x :: rest) = None.
Proof.
  intros Hb Hx. destruct (initial_facts property x Hx) as (Hstop & Hblocked & He & Hq).
  unfold attributePattern, danglingAt.
  destruct (Nat.le_gt_cases (List.length (propertyName property)) (List.length b))
    as [Hlong|Hshort].
  2:{ intros _ _. now rewrite stripPrefixCI_blocked_behind. }
  rewrite (stripPrefixCI_long _ b (x :: rest) Hlong).
  destruct (stripPrefixCI (propertyName property) b) as [[name s1]|]; [|reflexivity].
  rewrite (span_app_stop notSpace s1 x rest Hstop).
  destruct (span notSpace s1) as [ws1 s2]. cbn [fst snd].
  destruct s2 as [|e s3]; [cbn [app]; now rewrite He|]. cbn [app].
  destruct (e =? EQUALS); [|reflexivity]. cbn [andb].
  rewrite (span_app_stop notSpace s3 x rest Hstop).
  destruct (span notSpace s3) as [ws2 s4]. cbn [fst snd].
  destruct s4 as [|q s5]; [cbn [app]; now rewrite Hq|]. cbn [app].
  destruct (q =? QUOTE); [|reflexivity]. cbn [andb].
  rewrite (span_app (fun c => (c =? QUOTE) || isLineTerminator c) s5 (x :: rest)).
  destruct (span (fun c => (c =? QUOTE) || isLineTerminator c) s5) as [value s6].
  cbn [fst snd]. destruct s6 as [|q' s6]; [discriminate 2|].
  cbn [app]. trivial.
Qed.

(** When no value is left open in [pre], the attribute pass works on [pre]
    and on what follows separately, if that begins with the first letter of
    the property name. *)
Lemma attribute_pass_splits_at (property : Property) (color : str) (preserveNone : bool)
    (pre : str) (x : N) (rest : str) :
  validColor color -> ciEq (initial property) x = true ->
  hasUnclosed property pre = false ->
  replaceSvgAttributes (pre ++ x :: rest) property color preserveNone
  = replaceSvgAttributes pre property color preserveNone
    ++ replaceSvgAttributes (x :: rest) property color preserveNone.
Proof.
  intros Hcolor Hx. unfold replaceSvgAttributes.
  set (matchAt := attributeMatchAt property color preserveNone).
  induction pre as [pre IH] using (induction_ltof1 _ (@List.length N)).
  unfold ltof in IH. destruct pre as [|c t]; [reflexivity|]. intros Hclosed.
  destruct (matchAt (c :: t)) as [[len repl]|] eqn:Hm.
  - destruct (attributeMatchAt_sound property color preserveNone Hcolor _ _ _ Hm)
      as (a & value & _ & rest0 & _ & _ & _ & _ & Heq & _ & Hlen & Hskip & _).
    assert (matchAt ((c :: t) ++ x :: rest) = Some (len, repl)) as Hm'.
    { revert Hm. unfold matchAt, attributeMatchAt.
      destruct (attributePattern property (c :: t)) as [r|] eqn:Hp; [|discriminate].
      now rewrite (attributePattern_keeps_match property _ (x :: rest) r Hp). }
    assert (len <= List.length (c :: t))%nat as Hfits.
    { rewrite Hlen, Heq, !length_app. cbn. rewrite !length_app. cbn. lia. }
    assert (1 <= len)%nat as Hpos by (rewrite Hlen, length_app; cbn; lia).
    rewrite (replaceAll_hit matchAt _ len _ Hm' Hpos ltac:(discriminate)).
    rewrite (replaceAll_hit matchAt _ len _ Hm Hpos ltac:(discriminate)).
    rewrite skipn_app, Hskip.
    replace (len - List.length (c :: t))%nat with 0%nat by lia. cbn [skipn].
    rewrite <- app_assoc. f_equal. apply IH.
    + rewrite Heq, !length_app. cbn. rewrite !length_app. cbn. lia.
    + apply (hasUnclosed_suffix property (a ++ QUOTE :: value ++ [QUOTE]) rest0).
      rewrite <- app_assoc. cbn [app]. rewrite <- app_assoc. cbn [app].
      now rewrite <- Heq.
  - assert (matchAt ((c :: t) ++ x :: rest) = None) as Hm'.
    { revert Hm. unfold matchAt, attributeMatchAt.
      destruct (attributePattern property (c :: t)) as [[? ?]|] eqn:Hp; [discriminate|].
      intros _.
      now rewrite (attributePattern_stays_none_at property (c :: t) x rest
                     ltac:(discriminate) Hx Hp (hasUnclosed_head _ _ Hclosed)). }
    cbn [app] in Hm' |- *.
    rewrite (replaceAll_miss matchAt _ _ Hm'), (replaceAll_miss matchAt _ _ Hm).
    cbn [app]. f_equal. apply IH; [cbn; lia|].
    apply (hasUnclosed_suffix property [c] t Hclosed).
Qed.

(** X23. The attribute pass rewrites an attribute of the property where it
    stands: the name as written, the spacing around the equals sign and the
    quotes stay, the value becomes the colour (or stays, when none is
    preserved and the value is none and the colour is not), and the texts in
    front of the attribute and behind it are rewritten on their own. The
    text in front must not leave a value of the property open. *)
Theorem attribute_value_is_replaced (property : Property) (color : str)
    (preserveNone : bool) (pre opener value post : str) :
  validColor color -> hasUnclosed property pre = false ->
  isOpener property opener -> free valueStop value = true ->
  replaceSvgAttributes (pre ++ opener ++ QUOTE :: value ++ QUOTE :: post)
    property color preserveNone
  = replaceSvgAttributes pre property color preserveNone
    ++ opener ++ QUOTE
       :: (if keepsNone preserveNone (toLowerCase (trim value)) (toLowerCase (trim color))
           then value else color)
    ++ QUOTE :: replaceSvgAttributes post property color preserveNone.
Proof.
  intros Hcolor Hclosed Hopener Hvalue.
  destruct (opener_starts_with_initial property opener Hopener) as (x & a' & Ha & Hx).
  pose proof (attributePattern_complete property opener value post Hopener Hvalue) as Hmatch.
  rewrite Ha in *. cbn [app] in *.
  rewrite (attribute_pass_splits_at property color preserveNone pre x _ Hcolor Hx Hclosed).
  f_equal. unfold replaceSvgAttributes.
  set (matchAt := attributeMatchAt property color preserveNone).
  assert (matchAt (x :: a' ++ QUOTE :: value ++ QUOTE :: post)
          = Some (S (List.length ((x :: a') ++ [QUOTE]) + List.length value),
                  attributeCallback color preserveNone ((x :: a') ++ [QUOTE]) value))
    as Hhere.
  { unfold matchAt, attributeMatchAt. now rewrite Hmatch. }
  rewrite (replaceAll_hit matchAt _ _ _ Hhere ltac:(lia) ltac:(discriminate)).
  replace (skipn _ (x :: a' ++ QUOTE :: value ++ QUOTE :: post)) with post.
  - unfold attributeCallback. cbv zeta.
    destruct (keepsNone preserveNone _ _); cbn [app]; rewrite <- ?app_assoc; cbn [app];
      rewrite <- ?app_assoc; reflexivity.
  - replace (x :: a' ++ QUOTE :: value ++ QUOTE :: post)
      with ((((x :: a') ++ [QUOTE]) ++ value ++ [QUOTE]) ++ post)
      by (rewrite <- !app_assoc; reflexivity).
    replace (S (List.length ((x :: a') ++ [QUOTE]) + List.length value))
      with (List.length (((x :: a') ++ [QUOTE]) ++ value ++ [QUOTE]))
      by (rewrite !length_app; cbn [List.length]; lia).
    now rewrite (proj2 (firstn_skipn_exact _ post)).
Qed.

Lemma attribute_value_is_replaced_witness :
  replaceSvgAttributes (doc "<path STROKE = 'Red'/>") Stroke (u "#00ffcc") true
  = doc "<path STROKE = '#00ffcc'/>".
Proof.
  apply (attribute_value_is_replaced Stroke (u "#00ffcc") true (doc "<path ")
           (u "STROKE = ") (u "Red") (u "/>")).
  - reflexivity.
  - reflexivity.
  - exists (u "STROKE"), (u " "), (u " "). repeat split; reflexivity.
  - reflexivity.
Defined.

(** ** The background rectangle: what the result holds *)

Lemma getSubstitution_tail (before matched after template plain : str) :
  isDollar (last template 0) = false -> free isDollar plain = true ->
  getSubstitution before matched after (template ++ plain)
  = getSubstitution before matched after template ++ plain.
Proof.
  intros Hlast Hplain.
  induction template as [template IH] using (induction_ltof1 _ (@List.length N)).
  unfold ltof in IH.
  assert (forall t, (List.length t < List.length template)%nat ->
            (t = [] \/ last t 0 = last template 0) ->
            getSubstitution before matched after (t ++ plain)
            = getSubstitution before matched after t ++ plain) as Hnext.
  { intros t Hshort [->|Hsame].
    - cbn [app]. now rewrite getSubstitution_plain.
    - apply IH; [exact Hshort|]. now rewrite Hsame. }
  destruct template as [|c t]; [cbn [app]; now rewrite getSubstitution_plain|].
  assert (t = [] \/ last t 0 = last (c :: t) 0) as Ht
    by (destruct t; [now left|now right]).
  cbn [app getSubstitution]. destruct (c =? DOLLAR) eqn:Hc.
  - destruct t as [|d t'].
    + cbn in Hlast. unfold isDollar in Hlast. congruence.
    + assert (t' = [] \/ last t' 0 = last (c :: d :: t') 0) as Ht'
        by (destruct t'; [now left|now right]).
      cbn [app].
      destruct (d =? DOLLAR) eqn:Hd.
      * destruct t' as [|e t''].
        -- cbn in Hlast. unfold isDollar in Hlast. congruence.
        -- cbn [app]. f_equal. apply (Hnext (e :: t'')); [cbn; lia|].
           destruct Ht' as [Ht'|Ht']; [discriminate|right; exact Ht'].
      * destruct (d =? AMP); [|destruct (d =? BACKTICK); [|destruct (d =? APOS)]];
          rewrite ?Hnext by (try (cbn; lia); assumption);
          rewrite <- ?app_assoc; try reflexivity.
        cbn [app]. f_equal. 
        change (d :: t' ++ plain) with ((d :: t') ++ plain).
        apply Hnext; [cbn; lia|].
        destruct Ht as [Ht|Ht]; [discriminate|right; exact Ht].
  - cbn [app]. f_equal. apply Hnext; [cbn; lia|assumption].
Qed.

Lemma searchFirst_exists (matchLen : str -> option nat) (a b : str) :
  matchLen b <> None -> searchFirst matchLen (a ++ b) <> None.
Proof.
  intros Hb. induction a as [|c a IH]; cbn [app].
  - destruct b; cbn [searchFirst]; destruct (matchLen _); congruence.
  - cbn [searchFirst]. destruct (matchLen (c :: a ++ b)); [discriminate|].
    destruct (searchFirst matchLen (a ++ b)) as [[[? ?] ?]|]; [discriminate|congruence].
Qed.

(** X24. When the background rectangle is added or updated for a colour
    without dollar sign and greater-than sign (a validated colour, for one),
    the result holds the new rectangle element, and the expression for the
    marked rectangle finds a rectangle in it: the next call replaces a
    rectangle and inserts none. *)
Theorem result_holds_the_rectangle (svgText color : str) (cornerRadius : number)
    (insetRatio : Q) (out : str) :
  free isGT color = true -> free isDollar color = true ->
  addOrUpdateBackgroundRect svgText color cornerRadius insetRatio = Ok out ->
  (exists front back,
     out = front ++ rectElementFor svgText color cornerRadius insetRatio ++ back)
  /\ searchFirst rectPattern out <> None.
Proof.
  intros Hgt Hdollar Hrun.
  destruct (rectElementFor_shape svgText color cornerRadius insetRatio Hgt Hdollar)
    as [Hshape Hplain].
  assert (exists front back,
            out = front ++ rectElementFor svgText color cornerRadius insetRatio ++ back)
    as (front & back & Hout).
  { revert Hrun. unfold addOrUpdateBackgroundRect. cbv zeta.
    destruct (searchFirst rectPattern svgText) as [[[before matched] after]|].
    - intros [= <-]. exists before, after. now rewrite getSubstitution_plain.
    - destruct (searchFirst svgOpenTagPattern svgText) as [[[b tag] a]|] eqn:Htag;
        [|discriminate].
      intros [= <-]. unfold replaceString.
      pose proof (searchFirst_parts _ _ _ _ _ Htag) as Hs.
      destruct (findSub tag svgText) as [[front' back']|] eqn:Hfind.
      2:{ exfalso. rewrite Hs in Hfind. now apply (findSub_found _ _ _ Hfind). }
      destruct (searchFirst_some _ _ _ _ _ Htag) as (len & Hlen & Hm & _).
      destruct (svgOpenTagPattern_sound _ _ Hlen) as (tag0 & rest & Hsuffix & Hlength).
      assert (tag = tag0 ++ [GT]) as Htag0.
      { rewrite Hm, Hsuffix, Hlength. apply (proj1 (firstn_skipn_exact _ _)). }
      match goal with
      | |- context [getSubstitution front' tag back' ?t] =>
          replace t
            with ((tag ++ [10; 32; 32])
                  ++ rectElementFor svgText color cornerRadius insetRatio)
            by now rewrite <- app_assoc
      end.
      rewrite getSubstitution_tail.
      + exists (front' ++ getSubstitution front' tag back' (tag ++ [10; 32; 32])), back'.
        now rewrite <- !app_assoc.
      + rewrite Htag0, <- app_assoc. cbn [app]. now rewrite last_behind.
      + exact Hplain. }
  split; [now exists front, back|].
  rewrite Hout. apply searchFirst_exists.
  now rewrite (rectPattern_complete _ back Hshape).
Qed.

Lemma result_holds_the_rectangle_witness :
  (exists front back,
     doc "<svg><rect data-vivaldi-inactive-bg='true' x='5.00%' y='5.00%' width='90.00%' height='90.00%' rx='6' ry='6' fill='#d9d9d9'/></svg>"
     = front
       ++ rectElementFor (doc "<svg><rect data-vivaldi-inactive-bg='true' x='0'/></svg>")
            (u "#d9d9d9") (Num 6) (1 # 10)
       ++ back)
  /\ searchFirst rectPattern
       (doc "<svg><rect data-vivaldi-inactive-bg='true' x='5.00%' y='5.00%' width='90.00%' height='90.00%' rx='6' ry='6' fill='#d9d9d9'/></svg>")
     <> None.
Proof.
  apply (result_holds_the_rectangle
           (doc "<svg><rect data-vivaldi-inactive-bg='true' x='0'/></svg>") (u "#d9d9d9")
           (Num 6) (1 # 10)); reflexivity.
Defined.
